(** * id3-go: the ID3v2 tag engine, embedded and verified

    A shallow embedding of the packages [encodedbytes], [v2] and [id3] of
    id3-go, and the properties of the integer codec, the encoding table,
    the tag container and the in-memory commit.

    Conventions of the embedding.
    - A Go [byte] is a [Z] in [0, 2^8), a [uint32] a [Z] in [0, 2^32); Go's
      [int] and [uint] are the 64-bit ones, [Z] with the wrap-around of
      [int] and [uint] written out at every operation.
    - A [[]byte] is a [list Z] whose capacity is its length; a Go [string]
      that names something is a [string].
    - A panic (index out of range, slice bounds out of range, nil
      dereference) is the result [None]. *)

From Stdlib Require Import ZArith Lia Bool Ascii String.
From stdpp Require Import base option list strings.

Local Open Scope Z_scope.

(** ** Machine integers *)

Definition uint8 (z : Z) : Z := z mod 2 ^ 8.
Definition uint32 (z : Z) : Z := z mod 2 ^ 32.
Definition uint (z : Z) : Z := z mod 2 ^ 64.
Definition int (z : Z) : Z := (z + 2 ^ 63) mod 2 ^ 64 - 2 ^ 63.

(** [len(s)] as a Go [int]. *)
Definition len {A} (s : list A) : Z := Z.of_nat (length s).

(** [a[i]] on an array or slice: a panic outside [0 <= i < len(a)]. *)
Definition index {A} (a : list A) (i : Z) : option A :=
  if decide (0 <= i) then a !! Z.to_nat i else None.

(** [s[lo:hi]]: a panic unless [0 <= lo <= hi <= len(s)]. *)
Definition slice {A} (s : list A) (lo hi : Z) : option (list A) :=
  if decide (0 <= lo /\ lo <= hi /\ hi <= len s)
  then Some (take (Z.to_nat (hi - lo)) (drop (Z.to_nat lo) s))
  else None.

(** The bytes of a Go string, and the string of a byte sequence. *)
Fixpoint bytes_of_string (s : string) : list Z :=
  match s with
  | EmptyString => []
  | String c s' => Z.of_N (N_of_ascii c) :: bytes_of_string s'
  end.

Fixpoint string_of_bytes (bs : list Z) : string :=
  match bs with
  | [] => EmptyString
  | b :: bs' => String (ascii_of_N (Z.to_N b)) (string_of_bytes bs')
  end.

(** ** Package encodedbytes *)

Module encodedbytes.

Definition BytesPerInt : Z := 4.
Definition SynchByteLength : Z := 7.
Definition NormByteLength : Z := 8.
Definition NativeEncoding : Z := 3.

Record Encoding := { Name : string; NullLength : Z }.

Definition EncodingMap : list Encoding :=
  [ {| Name := "ISO-8859-1"; NullLength := 1 |};
    {| Name := "UTF-16"; NullLength := 2 |};
    {| Name := "UTF-16BE"; NullLength := 2 |};
    {| Name := "UTF-8"; NullLength := 1 |} ].

Inductive error :=
| ErrInvalidLength   (* "byte integer: invalid []byte length" *)
| ErrExceedMaxBit.   (* "byte integer: exceed max bit" *)

(** The [for _, b := range buf] loop of [ByteInt]; [i] and [err] are the
    named results, so an error leaves the partial [i]. The untyped [1] in
    [b >= (1<<base)] takes the type of [b], a byte; [uint32(b)] is [b]. *)
Fixpoint ByteInt_loop (buf : list Z) (base : Z) (i : Z) : Z * option error :=
  match buf with
  | [] => (i, None)
  | b :: rest =>
      if (base <? NormByteLength) && (uint8 (Z.shiftl 1 base) <=? b)
      then (i, Some ErrExceedMaxBit)
      else ByteInt_loop rest base (Z.lor (uint32 (Z.shiftl i base)) b)
  end.

Definition ByteInt (buf : list Z) (base : Z) : Z * option error :=
  if BytesPerInt <? len buf then (0, Some ErrInvalidLength)
  else ByteInt_loop buf base 0.

Definition SynchInt (buf : list Z) : Z * option error :=
  ByteInt buf SynchByteLength.

Definition NormInt (buf : list Z) : Z * option error :=
  ByteInt buf NormByteLength.

(** The loop of [IntBytes]: iteration [i] writes [bytes[len(bytes)-i-1]],
    so the bytes are produced from the last to the first; [k] iterations
    remain and [acc] holds the bytes already written. *)
Fixpoint IntBytes_loop (k : nat) (n mask base : Z) (acc : list Z) : list Z :=
  match k with
  | O => acc
  | S k' =>
      IntBytes_loop k' (Z.shiftr n base) mask base (uint8 (Z.land n mask) :: acc)
  end.

Definition IntBytes (n base : Z) : list Z :=
  let mask := uint32 (uint32 (Z.shiftl 1 base) - 1) in
  IntBytes_loop (Z.to_nat BytesPerInt) n mask base [].

Definition SynchBytes (n : Z) : list Z := IntBytes n SynchByteLength.
Definition NormBytes (n : Z) : list Z := IntBytes n NormByteLength.

(** [EncodingMap[encodingIndex]] panics when the index is [len(EncodingMap)]. *)
Definition EncodingForIndex (b : Z) : option string :=
  let encodingIndex := b in
  let encodingIndex :=
    if (encodingIndex <? 0) || (len EncodingMap <? encodingIndex)
    then 0 else encodingIndex in
  Name <$> index EncodingMap encodingIndex.

Definition EncodingNullLengthForIndex (b : Z) : option Z :=
  let encodingIndex := b in
  let encodingIndex :=
    if (encodingIndex <? 0) || (len EncodingMap <? encodingIndex)
    then 0 else encodingIndex in
  NullLength <$> index EncodingMap encodingIndex.

Fixpoint IndexForEncoding_loop (m : list Encoding) (i : Z) (e : string) : Z :=
  match m with
  | [] => 0
  | v :: m' =>
      if String.eqb (Name v) e then uint8 i
      else IndexForEncoding_loop m' (i + 1) e
  end.

Definition IndexForEncoding (e : string) : Z :=
  IndexForEncoding_loop EncodingMap 0 e.

(** The loop of [nullIndex] over [data[:limit/byteCount]]: [k] iterations
    remain and [i] is the index of the iteration. *)
Fixpoint nullIndex_loop (k : nat) (i : Z) (data null : list Z) (byteCount : Z)
    : option (Z * Z) :=
  match k with
  | O => Some (-1, -1)
  | S k' =>
      let atIndex := int (byteCount * i) in
      let afterIndex := int (atIndex + byteCount) in
      chunk ← slice data atIndex afterIndex;
      if decide (chunk = null) then Some (atIndex, afterIndex)
      else nullIndex_loop k' (i + 1) data null byteCount
  end.

(** [nullIndex]: [bytes.Repeat] panics on a negative count and the
    division on a zero one. *)
Definition nullIndex (data : list Z) (encoding : Z) : option (Z * Z) :=
  byteCount ← EncodingNullLengthForIndex encoding;
  let limit := len data in
  if byteCount <=? 0 then None else
  let null := replicate (Z.to_nat byteCount) 0 in
  nullIndex_loop (Z.to_nat (Z.quot limit byteCount)) 0 data null byteCount.

End encodedbytes.

(** ** Package v2 *)

Module v2.

Definition HeaderSize : Z := 10.

(** Modelled from the spec: the constants [FrameHeaderSize] and
    [V22FrameHeaderSize], declared in files that are not under src. The
    frame header is 10 bytes for v2.3 and v2.4 and 6 bytes for v2.2. *)
Definition FrameHeaderSize : Z := 10.
Definition V22FrameHeaderSize : Z := 6.

(** The address of a [Tag]; the address of a frame is its position in the
    store of frames. *)
Abbreviation TagRef := nat (only parsing).
Abbreviation FrameRef := nat (only parsing).

(** Modelled from the spec: the [Framer] interface, declared in a file that
    is not under src. A frame object is what its methods return ([Id],
    [Size], [StatusFlags], [FormatFlags], [Bytes]) and the back-reference
    that [setOwner] writes. *)
Record Framer := mkFramer {
  f_Id : string;
  f_Size : Z;
  f_StatusFlags : Z;
  f_FormatFlags : Z;
  f_Bytes : list Z;
  f_owner : option TagRef
}.

(** [frame.setOwner(o)] on the object itself. *)
Definition set_owner (o : option TagRef) (f : Framer) : Framer :=
  {| f_Id := f_Id f; f_Size := f_Size f; f_StatusFlags := f_StatusFlags f;
     f_FormatFlags := f_FormatFlags f; f_Bytes := f_Bytes f; f_owner := o |}.

(** The store of frame objects. A [Framer] value of the code is an address
    in it: two values are [==] when the addresses are, and a mutation through
    one is seen through every other. An address outside the store is the nil
    [Framer]. *)
Abbreviation Heap := (list Framer) (only parsing).

(** [frame.setOwner(o)] through the address [r]. *)
Definition setOwner (r : FrameRef) (o : option TagRef) (h : Heap) : Heap :=
  match h !! r with
  | Some f => <[r := set_owner o f]> h
  | None => h
  end.

(** An [io.ReadSeeker] over a byte sequence ([bytes.Reader], or a file
    without I/O errors). *)
Record Reader := mkReader { rd_data : list Z; rd_pos : nat }.

(** [io.ReadFull(reader, buf)] with [len(buf) = n]: the bytes read, fewer
    than [n] exactly when the result is an error. *)
Definition ReadFull (reader : Reader) (n : Z) : list Z * Reader :=
  let got := take (Z.to_nat n) (drop (rd_pos reader) (rd_data reader)) in
  (got, {| rd_data := rd_data reader; rd_pos := (rd_pos reader + length got)%nat |}).

(** [Seek(offset, os.SEEK_SET)]: an error on a negative offset. *)
Definition Seek (reader : Reader) (offset : Z) : option Reader :=
  if offset <? 0 then None
  else Some {| rd_data := rd_data reader; rd_pos := Z.to_nat offset |}.

(** [bytes.Trim(s, "\x00")] for a one-byte cutset. *)
Fixpoint TrimLeft (s : list Z) (c : Z) : list Z :=
  match s with
  | [] => []
  | b :: s' => if b =? c then TrimLeft s' c else s
  end.

Definition TrimRight (s : list Z) (c : Z) : list Z :=
  reverse (TrimLeft (reverse s) c).

Definition Trim (s : list Z) (c : Z) : list Z := TrimRight (TrimLeft s c) c.

Record FrameType (Ctor : Type) := mkFrameType {
  id : string;
  description : string;
  constructor : Ctor
}.
Arguments mkFrameType {Ctor}.
Arguments id {Ctor}.
Arguments description {Ctor}.
Arguments constructor {Ctor}.

Record FrameHead (Ctor : Type) := mkFrameHead {
  fh_FrameType : FrameType Ctor;
  statusFlags : Z;
  formatFlags : Z;
  fh_size : Z
}.
Arguments mkFrameHead {Ctor}.

(** What the code uses of the files that are not under src: the payload
    constructors ([Ctor] names one, [construct] calls it with a frame head
    and the payload; [None] is a nil [Framer]), the table of the v2.3 frame
    types, [isBitSet], and the frame codecs of v2.2 and v2.3. *)
Class FrameCodecs := {
  Ctor : Type;
  ParseDataFrame : Ctor;
  construct : Ctor -> FrameHead Ctor -> list Z -> option Framer;
  V23FrameTypeMap : string -> option (FrameType Ctor);
  isBitSet : Z -> Z -> bool;
  ParseV22Frame : Reader -> option Framer * Reader;
  ParseV23Frame : Reader -> option Framer * Reader;
  V22Bytes : Framer -> list Z;
  V23Bytes : Framer -> list Z
}.

Definition V24FrameTypeMap `{FrameCodecs} : string -> option (FrameType Ctor) :=
  V23FrameTypeMap.

(** [ParseV24Frame]. Its file imports [encodedbytes] from the module that
    this one was patched from; [SynchInt] is the function of that name of
    the package under src. *)
Definition ParseV24Frame `{FrameCodecs} (reader : Reader) : option Framer * Reader :=
  let '(data, reader) := ReadFull reader FrameHeaderSize in
  if len data <? FrameHeaderSize then (None, reader) else
  let id := string_of_bytes (Trim (take 4 data) 0) in
  let t := match V24FrameTypeMap id with
           | Some t => t
           | None => mkFrameType id "Unknown frame" ParseDataFrame
           end in
  let '(size, err) := encodedbytes.SynchInt (take 4 (drop 4 data)) in
  if err is Some _ then (None, reader) else
  if String.eqb id EmptyString && (size =? 0) then (None, reader) else
  let h := mkFrameHead t (nth 8 data 0) (nth 9 data 0) size in
  let '(frameData, reader) := ReadFull reader size in
  if len frameData <? int size then (None, reader) else
  (construct (constructor t) h frameData, reader).

Definition V24Bytes (f : Framer) : list Z :=
  let headBytes := [] in
  let headBytes := headBytes ++ bytes_of_string (f_Id f) in
  let headBytes := headBytes ++ encodedbytes.SynchBytes (uint32 (f_Size f)) in
  let headBytes := headBytes ++ [f_StatusFlags f; f_FormatFlags f] in
  headBytes ++ f_Bytes f.

Record Header := mkHeader {
  version : Z;
  revision : Z;
  flags : Z;
  unsynchronization : bool;
  compression : bool;
  experimental : bool;
  extendedHeader : bool;
  size : Z
}.

(** The fields of [Tag] that the operations below read; [commonMap], which
    only the semantic accessors read, is left out. *)
Record Tag := mkTag {
  header : Header;
  frames : list FrameRef;
  padding : Z;
  frameHeaderSize : Z;
  frameConstructor : Reader -> option Framer * Reader;
  frameBytesConstructor : Framer -> list Z;
  dirty : bool
}.

Definition with_size (s : Z) (h : Header) : Header :=
  mkHeader (version h) (revision h) (flags h) (unsynchronization h)
    (compression h) (experimental h) (extendedHeader h) s.

Definition with_header (h : Header) (t : Tag) : Tag :=
  mkTag h (frames t) (padding t) (frameHeaderSize t) (frameConstructor t)
    (frameBytesConstructor t) (dirty t).

Definition with_frames (fs : list FrameRef) (t : Tag) : Tag :=
  mkTag (header t) fs (padding t) (frameHeaderSize t) (frameConstructor t)
    (frameBytesConstructor t) (dirty t).

Definition with_padding (p : Z) (t : Tag) : Tag :=
  mkTag (header t) (frames t) p (frameHeaderSize t) (frameConstructor t)
    (frameBytesConstructor t) (dirty t).

Definition with_dirty (d : bool) (t : Tag) : Tag :=
  mkTag (header t) (frames t) (padding t) (frameHeaderSize t)
    (frameConstructor t) (frameBytesConstructor t) d.

Definition NewTag `{FrameCodecs} (version : Z) : Tag :=
  let header := mkHeader version 0 0 false false false false 0 in
  match version with
  | 2 => mkTag header [] 0 V22FrameHeaderSize ParseV22Frame V22Bytes false
  | 3 => mkTag header [] 0 FrameHeaderSize ParseV23Frame V23Bytes false
  | 4 => mkTag header [] 0 FrameHeaderSize ParseV24Frame V24Bytes false
  | _ => mkTag header [] 0 FrameHeaderSize ParseV23Frame V23Bytes false
  end.

Module Header.

Definition Size (h : Header) : Z := int (size h).

Definition Bytes (h : Header) : list Z :=
  let data := [] in
  let data := data ++ bytes_of_string "ID3" in
  let data := data ++ [version h; revision h; flags h] in
  let data := data ++ encodedbytes.SynchBytes (size h) in
  data.

End Header.

(** [copy(dst[lo:hi], src)]: the slice expression panics unless
    [0 <= lo <= hi <= cap(dst)]; [copy] writes as many bytes as the shorter
    of the two has. *)
Definition copy_at (dst : list Z) (lo hi : Z) (src : list Z) : option (list Z) :=
  if decide (0 <= lo /\ lo <= hi /\ hi <= len dst) then
    let n := Nat.min (Z.to_nat (hi - lo)) (length src) in
    Some (take (Z.to_nat lo) dst ++ take n src ++ drop (Z.to_nat lo + n) dst)
  else None.

Module Tag.

(** [Size] is the method of the embedded [*Header]. *)
Definition Size (t : Tag) : Z := Header.Size (header t).

Definition changeSize (diff : Z) (t : Tag) : Tag :=
  let d := int (int (padding t) - diff) in
  let t :=
    if d <? 0 then
      let t := with_padding 0 t in
      with_header (with_size (uint32 (size (header t) + uint32 (int (- d)))) (header t)) t
    else with_padding (uint d) t in
  with_dirty true t.

Definition Dirty (t : Tag) : bool := dirty t.

Definition Padding (t : Tag) : Z := padding t.

(** The loop of [Bytes] over [t.frames], with the buffer [data] and the
    write position [index]. *)
Fixpoint Bytes_loop (fs : list FrameRef) (t : Tag) (h : Heap)
    (data : list Z) (index : Z) : option (list Z) :=
  match fs with
  | [] => Some data
  | r :: fs' =>
      f ← h !! r;
      let size := int (frameHeaderSize t + int (f_Size f)) in
      data ← copy_at data index (int (index + size)) (frameBytesConstructor t f);
      Bytes_loop fs' t h data (int (index + size))
  end.

Definition Bytes (t : Tag) (h : Heap) : option (list Z) :=
  let data := replicate (Z.to_nat (Size t)) 0 in
  data ← Bytes_loop (frames t) t h data 0;
  Some (Header.Bytes (header t) ++ data).

Definition AllFrames (t : Tag) : list FrameRef := frames t.

(** The loop of [Frames]; [rv] is never nil, it comes from [make]. *)
Fixpoint Frames_loop (fs : list FrameRef) (id : string) (h : Heap)
    (rv : list FrameRef) : option (list FrameRef) :=
  match fs with
  | [] => Some rv
  | r :: fs' =>
      f ← h !! r;
      if String.eqb (f_Id f) id then Frames_loop fs' id h (rv ++ [r])
      else Frames_loop fs' id h rv
  end.

Definition Frames (t : Tag) (id : string) (h : Heap) : option (list FrameRef) :=
  Frames_loop (frames t) id h [].

(** [Frame]: the inner [None] is the nil [Framer]. *)
Definition Frame (t : Tag) (id : string) (h : Heap) : option (option FrameRef) :=
  frames ← Frames t id h;
  Some (head frames).

(** The [for i < len(t.frames)] loop of [DeleteFrames]. Every iteration
    either advances [i] or shortens [t.frames], so [len(t.frames)]
    iterations suffice; without fuel the result is [None]. *)
Fixpoint DeleteFrames_loop (fuel : nat) (id : string) (i : nat) (diff : Z)
    (t : Tag) (h : Heap) : option (Z * Tag * Heap) :=
  match frames t !! i with
  | None => Some (diff, t, h)
  | Some frame =>
      match fuel with
      | O => None
      | S fuel' =>
          f ← h !! frame;
          if negb (String.eqb (f_Id f) id) then
            DeleteFrames_loop fuel' id (S i) diff t h
          else
            let h := setOwner frame None h in
            let diff := int (diff + int (frameHeaderSize t + int (f_Size f))) in
            let t := with_frames (take i (frames t) ++ drop (S i) (frames t)) t in
            DeleteFrames_loop fuel' id i diff t h
      end
  end.

(** [Frames] and [AllFrames] return a slice made by [make], never nil, so
    the [frames == nil] exits of the two delete methods are not taken. *)
Definition DeleteFrames (t : Tag) (id : string) (h : Heap)
    : option (list FrameRef * Tag * Heap) :=
  frames ← Frames t id h;
  '(diff, t, h) ← DeleteFrames_loop (length (v2.frames t)) id 0 0 t h;
  let t := changeSize (int (- diff)) t in
  Some (frames, t, h).

Fixpoint DeleteFrame_loop (fuel : nat) (delFrame : FrameRef) (i : nat) (diff : Z)
    (t : Tag) (h : Heap) : option (Z * Tag * Heap) :=
  match frames t !! i with
  | None => Some (diff, t, h)
  | Some frame =>
      match fuel with
      | O => None
      | S fuel' =>
          if decide (frame = delFrame) then
            f ← h !! frame;
            let h := setOwner frame None h in
            let diff := int (diff + int (frameHeaderSize t + int (f_Size f))) in
            let t := with_frames (take i (frames t) ++ drop (S i) (frames t)) t in
            DeleteFrame_loop fuel' delFrame i diff t h
          else
            DeleteFrame_loop fuel' delFrame (S i) diff t h
      end
  end.

Definition DeleteFrame (t : Tag) (delFrame : FrameRef) (h : Heap)
    : option (list FrameRef * Tag * Heap) :=
  let frames := AllFrames t in
  '(diff, t, h) ← DeleteFrame_loop (length (v2.frames t)) delFrame 0 0 t h;
  let t := changeSize (int (- diff)) t in
  Some (frames, t, h).

(** [AddFrames], the tag being at the address [self]. *)
Fixpoint AddFrames (self : TagRef) (t : Tag) (fs : list FrameRef) (h : Heap)
    : option (Tag * Heap) :=
  match fs with
  | [] => Some (t, h)
  | frame :: fs' =>
      f ← h !! frame;
      let t := changeSize (int (frameHeaderSize t + int (f_Size f))) t in
      let t := with_frames (frames t ++ [frame]) t in
      let h := setOwner frame (Some self) h in
      AddFrames self t fs' h
  end.

(** [RealSize]: the subtraction is one of [uint]. *)
Definition RealSize (t : Tag) : Z :=
  let size := uint (uint (size (header t)) - padding t) in
  int size.

End Tag.

Definition ParseHeader `{FrameCodecs} (reader : Reader) : option Header * Reader :=
  let '(data, reader) := ReadFull reader HeaderSize in
  if (len data <? HeaderSize)
     || negb (String.eqb (string_of_bytes (take 3 data)) "ID3")
  then (None, reader) else
  let '(size, err) := encodedbytes.SynchInt (drop 6 data) in
  if err is Some _ then (None, reader) else
  let version := nth 3 data 0 in
  let revision := nth 4 data 0 in
  let flags := nth 5 data 0 in
  let header :=
    match version with
    | 2 => mkHeader version revision flags (isBitSet flags 7) (isBitSet flags 6)
             false false size
    | 3 | 4 => mkHeader version revision flags (isBitSet flags 7) false
             (isBitSet flags 5) (isBitSet flags 6) size
    | _ => mkHeader version revision flags false false false false size
    end in
  (Some header, reader).

(** The [for size > 0] loop of [ParseTag]. A parsed frame is a new object:
    it is stored at the next free address, with the tag as its owner. Every
    iteration lowers [size], so [size] iterations suffice; without fuel the
    result is [None]. *)
Fixpoint ParseTag_loop (fuel : nat) (self : TagRef) (t : Tag) (h : Heap)
    (readSeeker : Reader) (size : Z) : option (Tag * Heap * Reader * Z) :=
  if size >? 0 then
    match fuel with
    | O => None
    | S fuel' =>
        let '(frame, readSeeker) := frameConstructor t readSeeker in
        match frame with
        | None => Some (t, h, readSeeker, size)
        | Some f =>
            let r := length h in
            let h := h ++ [f] in
            let t := with_frames (frames t ++ [r]) t in
            let h := setOwner r (Some self) h in
            let size := int (size - int (frameHeaderSize t + int (f_Size f))) in
            ParseTag_loop fuel' self t h readSeeker size
        end
    end
  else Some (t, h, readSeeker, size).

(** [ParseTag], the new tag being at the address [self]: the inner [None]
    is the nil result. *)
Definition ParseTag `{FrameCodecs} (self : TagRef) (h : Heap) (readSeeker : Reader)
    : option (option Tag * Heap * Reader) :=
  let '(header, readSeeker) := ParseHeader readSeeker in
  match header with
  | None => Some (None, h, readSeeker)
  | Some header =>
      let t := NewTag (version header) in
      let t := with_header header t in
      let size := int (v2.size (v2.header t)) in
      '(t, h, readSeeker, size) ← ParseTag_loop (Z.to_nat size) self t h readSeeker size;
      let t := with_padding (uint size) t in
      match Seek readSeeker (int (HeaderSize + Tag.Size t)) with
      | None => Some (None, h, readSeeker)
      | Some readSeeker => Some (Some t, h, readSeeker)
      end
  end.

End v2.

(** ** Package v1 *)

Module v1.

(** Modelled from the spec: the constant [TagSize] of the package v1, which
    is not under src: the ID3v1 trailer is the last 128 bytes of the file. *)
Definition TagSize : Z := 128.

End v1.

(** ** Package id3 *)

Module id3.

(** The dynamic type of a [Tagger] and the value under it. Of a [*v1.Tag],
    whose package is not under src, only what [Dirty] and [Bytes] return is
    kept; [OtherTagger] is any other implementation of the interface. *)
Inductive Tagger :=
| V1Tag (dirty : bool) (bytes : list Z)
| V2Tag (t : v2.Tag)
| OtherTagger (dirty : bool) (bytes : list Z).

Record Mp3Bytes := mkMp3Bytes {
  tagger : Tagger;
  originalSize : Z;
  blob : list Z
}.

Definition Dirty (b : Mp3Bytes) : bool :=
  match tagger b with
  | V1Tag d _ => d
  | V2Tag t => v2.Tag.Dirty t
  | OtherTagger d _ => d
  end.

Definition Bytes (b : Mp3Bytes) (h : v2.Heap) : option (list Z) :=
  match tagger b with
  | V1Tag _ bs => Some bs
  | V2Tag t => v2.Tag.Bytes t h
  | OtherTagger _ bs => Some bs
  end.

Definition shiftBytesBackInMem (blob : list Z) (start offset : Z) : option (list Z) :=
  if decide (0 <= int (len blob + offset)) then
    let out := replicate (Z.to_nat (int (len blob + offset))) 0 in
    if decide (0 <= start /\ start <= len blob) then
      out ← v2.copy_at out 0 (len out) (take (Z.to_nat start) blob);
      v2.copy_at out (int (start + offset)) (len out) (drop (Z.to_nat start) blob)
    else None
  else None.

(** The result of [UpdateEditsIntoBytes]: the receiver after the call, and
    either the slice that the returned pointer designates or the error. *)
Definition UpdateEditsIntoBytes (b : Mp3Bytes) (h : v2.Heap)
    : option (Mp3Bytes * (list Z + string)) :=
  if negb (Dirty b) then Some (b, inl (blob b)) else
  let start := 0 in
  let offset := 0 in
  let state :=
    match tagger b with
    | V1Tag _ _ =>
        let offset := int (len (blob b) - v1.TagSize) in
        Some (inl (b, start, offset))
    | V2Tag t =>
        if v2.Tag.Size t >? originalSize b then
          let start := int (originalSize b + v2.HeaderSize) in
          let offset := int (v2.Tag.Size t - originalSize b) in
          blob' ← shiftBytesBackInMem (blob b) start offset;
          Some (inl (mkMp3Bytes (tagger b) (originalSize b) blob', start, offset))
        else Some (inl (b, start, offset))
    | OtherTagger _ _ => Some (inr "Close: unknown tag version"%string)
    end in
  match state with
  | None => None
  | Some (inr e) => Some (b, inr e)
  | Some (inl (b, start, offset)) =>
      insert ← Bytes b h;
      blob' ← v2.copy_at (blob b) 0 (int (start + offset)) insert;
      Some (mkMp3Bytes (tagger b) (originalSize b) blob', inl blob')
  end.

End id3.

(** ** The vocabulary of the specification *)

Section Vocabulary.
Import v2.

(** The bytes a frame takes in a tag whose frame headers have [fhs] bytes:
    its header and its payload. *)
Definition frame_footprint (fhs : Z) (h : Heap) (r : FrameRef) : Z :=
  match h !! r with
  | Some f => fhs + f_Size f
  | None => 0
  end.

Definition footprint_of (fhs : Z) (h : Heap) (fs : list FrameRef) : Z :=
  foldr (fun r acc => frame_footprint fhs h r + acc) 0 fs.

Definition footprint (t : Tag) (h : Heap) : Z :=
  footprint_of (frameHeaderSize t) h (frames t).

(** The invariant of the data model: the size field is the sum of the
    frames' footprints plus the padding. *)
Definition tag_invariant (t : Tag) (h : Heap) : Prop :=
  size (header t) = footprint t h + padding t.

(** The frames at the addresses [fs] exist and their sizes are [uint32]. *)
Definition frames_ok (h : Heap) (fs : list FrameRef) : Prop :=
  Forall (fun r => exists f, h !! r = Some f /\ 0 <= f_Size f < 2 ^ 32) fs.

(** The ranges of the fields of a tag: [size] is a [uint32], [padding] a
    [uint], [frameHeaderSize] a frame header size, and the frames exist. *)
Definition tag_ok (t : Tag) (h : Heap) : Prop :=
  0 <= size (header t) < 2 ^ 32 /\
  0 <= padding t < 2 ^ 64 /\
  0 < frameHeaderSize t <= 10 /\
  frames_ok h (frames t).

(** The owner of the frame at [r]. *)
Definition owner_at (h : Heap) (r : FrameRef) : option (option TagRef) :=
  f_owner <$> h !! r.

(** Does the frame at [r] carry the identifier [id]? *)
Definition has_id (h : Heap) (id : string) (r : FrameRef) : bool :=
  match h !! r with
  | Some f => String.eqb (f_Id f) id
  | None => false
  end.

(** The serialization of the frame at [r] by the codec of the tag. *)
Definition frame_bytes (t : Tag) (h : Heap) (r : FrameRef) : list Z :=
  match h !! r with
  | Some f => frameBytesConstructor t f
  | None => []
  end.

(** The frames at the addresses [fs] exist, their sizes are [uint32] and
    the codec of the tag serializes each to its footprint. *)
Definition frames_serializable (t : Tag) (h : Heap) (fs : list FrameRef) : Prop :=
  Forall (fun r => exists f, h !! r = Some f /\ 0 <= f_Size f < 2 ^ 32 /\
            len (frameBytesConstructor t f) = frameHeaderSize t + f_Size f) fs.

(** Two stores hold the same frames, owners apart. *)
Definition same_frames (h h' : Heap) : Prop :=
  forall r : FrameRef, set_owner None <$> h !! r = set_owner None <$> h' !! r.

(** The tag after one iteration of the loop of [AddFrames], on the frame
    [f] at the address [r]. *)
Definition AddFrames_step (t : Tag) (r : FrameRef) (f : Framer) : Tag :=
  let t := Tag.changeSize (int (frameHeaderSize t + int (f_Size f))) t in
  with_frames (frames t ++ [r]) t.

(** The shape that the loops of [DeleteFrames] and [DeleteFrame] share, the
    test on the frame being [m]. *)
Fixpoint remove_loop (fuel : nat) (m : FrameRef -> bool) (i : nat) (diff : Z)
    (t : Tag) (h : Heap) : option (Z * Tag * Heap) :=
  match frames t !! i with
  | None => Some (diff, t, h)
  | Some frame =>
      match fuel with
      | O => None
      | S fuel' =>
          if m frame then
            f ← h !! frame;
            let h := setOwner frame None h in
            let diff := int (diff + int (frameHeaderSize t + int (f_Size f))) in
            let t := with_frames (take i (frames t) ++ drop (S i) (frames t)) t in
            remove_loop fuel' m i diff t h
          else
            remove_loop fuel' m (S i) diff t h
      end
  end.

(** The state of the frame scan of [ParseTag]: the tag, the store, the
    reader and the part of the declared size that is not yet accounted for. *)
Abbreviation ScanState := (Tag * Heap * Reader * Z)%type (only parsing).

(** [scanned self s s']: from the state [s], the loop of [ParseTag] parses
    some frames, each with a [uint32] size, and reaches the state [s']. *)
Inductive scanned (self : TagRef) : ScanState -> ScanState -> Prop :=
| scanned_refl (s : ScanState) : scanned self s s
| scanned_step (t : Tag) (h : Heap) (rd rd1 : Reader) (size : Z) (f : Framer)
    (s' : ScanState) :
    0 < size ->
    frameConstructor t rd = (Some f, rd1) ->
    0 <= f_Size f < 2 ^ 32 ->
    scanned self
      (with_frames (frames t ++ [length h]) t,
       setOwner (length h) (Some self) (h ++ [f]),
       rd1,
       int (size - int (frameHeaderSize t + int (f_Size f)))) s' ->
    scanned self (t, h, rd, size) s'.

(** The reader is at a v2.3/v2.4 frame header whose identifier and size
    are all zero bytes. *)
Definition end_of_frames_next (rd rd' : Reader) : Prop :=
  exists data, ReadFull rd FrameHeaderSize = (data, rd') /\
    len data = FrameHeaderSize /\ take 8 data = replicate 8 0.

(** The reader is at a v2.4 frame header that declares [n] bytes of
    payload, [n] a [uint32], and fewer bytes are left after the header. *)
Definition truncated_frame_next (rd rd' : Reader) : Prop :=
  exists data rd1 n got, ReadFull rd FrameHeaderSize = (data, rd1) /\
    len data = FrameHeaderSize /\
    encodedbytes.SynchInt (take 4 (drop 4 data)) = (n, None) /\ n < 2 ^ 32 /\
    ReadFull rd1 n = (got, rd') /\ len got < n.

(** The value of the big-endian digits [bs] in base [2^k], after the more
    significant part [i]. *)
Fixpoint digits_value (k : Z) (bs : list Z) (i : Z) : Z :=
  match bs with
  | [] => i
  | b :: bs' => digits_value k bs' (i * 2 ^ k + b)
  end.

End Vocabulary.

(** ** Concrete frames, tags and buffers for the examples *)

Section Examples.
Import v2.

(** Stand-ins for the parts that are not under src: every identifier is an
    unknown one, a payload constructor makes the opaque data frame of its
    arguments, [isBitSet] tests the bit, and there is no codec for v2.2 and
    v2.3. The examples use the version 4, whose codec is under src. *)
Definition ex_codecs : FrameCodecs :=
  {| Ctor := unit;
     ParseDataFrame := tt;
     construct := fun _ hd data =>
       Some (mkFramer (id (fh_FrameType unit hd)) (fh_size unit hd)
               (statusFlags unit hd) (formatFlags unit hd) data None);
     V23FrameTypeMap := fun _ => None;
     isBitSet := fun flags i => Z.testbit flags i;
     ParseV22Frame := fun reader => (None, reader);
     ParseV23Frame := fun reader => (None, reader);
     V22Bytes := V24Bytes;
     V23Bytes := V24Bytes |}.

(** A title frame of 5 bytes and an album frame of 1 byte, at the addresses
    0 and 1. *)
Definition ex_title : Framer := mkFramer "TIT2" 5 0 0 [3; 72; 105; 33; 33] None.
Definition ex_album : Framer := mkFramer "TALB" 1 0 0 [3] None.
Definition ex_heap : list Framer := [ex_title; ex_album].

(** The empty v2.4 tag, and the v2.4 tag that holds the title. *)
Definition ex_empty : Tag := @NewTag ex_codecs 4.
Definition ex_titled : Tag :=
  with_dirty true (with_frames [0%nat] (with_header (with_size 15 (header ex_empty)) ex_empty)).

(** The v2.4 tag that holds the title and the album, and the store once
    the tag, at the address 0, owns the two frames. *)
Definition ex_two : Tag :=
  with_dirty true
    (with_frames [0%nat; 1%nat] (with_header (with_size 26 (header ex_empty)) ex_empty)).
Definition ex_heap_owned : list Framer :=
  [set_owner (Some 0%nat) ex_title; set_owner (Some 0%nat) ex_album].

(** The v2.4 tag left when the title is deleted again: 15 bytes, all of
    them padding. *)
Definition ex_padded : Tag :=
  with_dirty true (with_padding 15 (with_header (with_size 15 (header ex_empty)) ex_empty)).

(** The tag [ex_padded] after the album is added to it: the padding has
    absorbed the 11 bytes of the frame. *)
Definition ex_padded_album : Tag := with_frames [1%nat] (with_padding 4 ex_padded).

(** A buffer that starts with the 10 bytes of an empty v2.4 tag, followed
    by three bytes of audio, and its [Mp3Bytes] once the title is added to
    the tag. *)
Definition ex_blob : list Z := [73; 68; 51; 4; 0; 0; 0; 0; 0; 0; 255; 251; 144].
Definition ex_mp3 : id3.Mp3Bytes := id3.mkMp3Bytes (id3.V2Tag ex_titled) 0 ex_blob.

(** A v2.4 tag that declares 30 bytes: the title frame, then padding. *)
Definition ex_file_padded : list Z :=
  [73; 68; 51; 4; 0; 0; 0; 0; 0; 30;
   84; 73; 84; 50; 0; 0; 0; 5; 0; 0; 3; 72; 105; 33; 33;
   0; 0; 0; 0; 0; 0; 0; 0; 0; 0; 0; 0; 0; 0; 0].

(** A v2.4 tag that declares 30 bytes: the title frame, then the header of
    an album frame of 9 bytes, of which the file holds 2. *)
Definition ex_file_truncated : list Z :=
  [73; 68; 51; 4; 0; 0; 0; 0; 0; 30;
   84; 73; 84; 50; 0; 0; 0; 5; 0; 0; 3; 72; 105; 33; 33;
   84; 65; 76; 66; 0; 0; 0; 9; 0; 0; 3; 72].

(** A tag of 20 bytes of padding. *)
Definition ex_padded_20 : Tag :=
  with_padding 20 (with_header (with_size 20 (header ex_empty)) ex_empty).

End Examples.

(** * Properties *)

(** ** The integer codec *)

Section IntegerCodec.
Import encodedbytes.

Lemma land_shiftl_low (a b k : Z) :
  0 <= k -> 0 <= b < 2 ^ k -> Z.land (Z.shiftl a k) b = 0.
Proof.
  intros Hk Hb. apply Z.bits_inj'. intros i Hi.
  rewrite Z.land_spec, Z.bits_0.
  destruct (Z.lt_ge_cases i k) as [Hlt|Hge].
  - rewrite Z.shiftl_spec_low by lia. reflexivity.
  - destruct (Z.eq_dec b 0) as [->|Hnz].
    + rewrite Z.bits_0. apply andb_false_r.
    + rewrite (Z.bits_above_log2 b i), andb_false_r; [reflexivity | lia |].
      assert (Z.log2 b < k) by (apply Z.log2_lt_pow2; lia). lia.
Qed.

Lemma lor_shiftl_low (a b k : Z) :
  0 <= k -> 0 <= b < 2 ^ k -> Z.lor (Z.shiftl a k) b = a * 2 ^ k + b.
Proof.
  intros Hk Hb.
  pose proof (land_shiftl_low a b k Hk Hb) as H0.
  rewrite <- Z.lxor_lor, <- Z.add_nocarry_lxor, Z.shiftl_mul_pow2 by (assumption || lia).
  reflexivity.
Qed.


Lemma uint32_small z : 0 <= z < 2 ^ 32 -> uint32 z = z.
Proof. intros. unfold uint32. apply Z.mod_small. assumption. Qed.

Lemma ByteInt_step (i b k : Z) :
  0 <= k -> 0 <= b < 2 ^ k -> 0 <= i -> i * 2 ^ k + b < 2 ^ 32 ->
  Z.lor (uint32 (Z.shiftl i k)) b = i * 2 ^ k + b.
Proof.
  intros Hk Hb Hi Hlt.
  rewrite uint32_small.
  - apply lor_shiftl_low; assumption.
  - rewrite Z.shiftl_mul_pow2 by lia. nia.
Qed.

Lemma IntBytes_loop_digits (k : Z) (c : nat) : forall n acc,
  0 < k <= 8 -> 0 <= n ->
  exists ds, IntBytes_loop c n (2 ^ k - 1) k acc = ds ++ acc /\
    length ds = c /\ Forall (fun d => 0 <= d < 2 ^ k) ds /\
    forall i, digits_value k ds i = i * 2 ^ (k * Z.of_nat c) + n mod 2 ^ (k * Z.of_nat c).
Proof.
  induction c as [|c IH]; intros n acc Hk Hn.
  - exists []. repeat split; auto. intros i. simpl. rewrite Z.mul_0_r. simpl. rewrite Z.mod_1_r. lia.
  - simpl IntBytes_loop.
    destruct (IH (Z.shiftr n k) (uint8 (Z.land n (2 ^ k - 1)) :: acc)) as (ds & E & L & F & V); [lia| apply Z.shiftr_nonneg; lia |].
    assert (Hd : uint8 (Z.land n (2 ^ k - 1)) = n mod 2 ^ k).
    { change (2 ^ k - 1) with (Z.pred (2 ^ k)). rewrite <- Z.ones_equiv, Z.land_ones by lia.
      unfold uint8. apply Z.mod_small. 
      pose proof (Z.mod_pos_bound n (2 ^ k) ltac:(lia)).
      assert (2 ^ k <= 2 ^ 8) by (apply Z.pow_le_mono_r; lia). lia. }
    exists (ds ++ [n mod 2 ^ k]). rewrite E, Hd, <- app_assoc. split; [reflexivity|].
    split; [rewrite length_app; simpl; lia|].
    split; [apply Forall_app; split; [assumption| constructor; [apply Z.mod_pos_bound; lia| constructor]]|].
    intros i.
    assert (Hdv : forall xs ys j, digits_value k (xs ++ ys) j = digits_value k ys (digits_value k xs j)).
    { induction xs; simpl; auto. }
    rewrite Hdv, V. simpl digits_value.
    rewrite Z.shiftr_div_pow2 by lia.
    replace (k * Z.of_nat (S c)) with (k * Z.of_nat c + k) by lia.
    rewrite Z.pow_add_r by lia.
    set (P := 2 ^ (k * Z.of_nat c)). set (Q := 2 ^ k).
    assert (0 < P) by (apply Z.pow_pos_nonneg; lia).
    assert (0 < Q) by (apply Z.pow_pos_nonneg; lia).
    rewrite (Z.mul_comm P Q), Z.rem_mul_r by lia. lia.
Qed.

Lemma digits_value_ge (k : Z) (ds : list Z) : forall i,
  0 <= k -> Forall (fun d => 0 <= d < 2 ^ k) ds -> 0 <= i -> i <= digits_value k ds i.
Proof.
  induction ds as [|d ds IH]; intros i Hk HF Hi; simpl; [lia|].
  inversion HF as [|? ? Hd HF']; subst.
  assert (1 <= 2 ^ k) by (apply Z.lt_pred_le, Z.pow_pos_nonneg; lia).
  specialize (IH (i * 2 ^ k + d) Hk HF' ltac:(nia)). nia.
Qed.

Lemma ByteInt_loop_digits (k : Z) (ds : list Z) : forall i,
  0 < k <= 8 -> Forall (fun d => 0 <= d < 2 ^ k) ds -> 0 <= i ->
  digits_value k ds i < 2 ^ 32 ->
  ByteInt_loop ds k i = (digits_value k ds i, None).
Proof.
  induction ds as [|d ds IH]; intros i Hk HF Hi Hlt; simpl in *; [reflexivity|].
  inversion HF as [|? ? Hd HF']; subst.
  assert (Hguard : (k <? NormByteLength) && (uint8 (Z.shiftl 1 k) <=? d) = false).
  { unfold NormByteLength. destruct (Z.ltb_spec k 8) as [Hk8|Hk8]; [|reflexivity]. simpl.
    rewrite Z.shiftl_1_l. unfold uint8. rewrite Z.mod_small.
    - apply Z.leb_gt. lia.
    - split; [lia|]. apply Z.pow_lt_mono_r; lia. }
  rewrite Hguard.
  assert (1 <= 2 ^ k) by (apply Z.lt_pred_le, Z.pow_pos_nonneg; lia).
  pose proof (digits_value_ge k ds (i * 2 ^ k + d) ltac:(lia) HF' ltac:(nia)).
  rewrite ByteInt_step by lia.
  apply IH; [assumption|assumption|nia|assumption].
Qed.

Lemma ByteInt_IntBytes (k n : Z) :
  0 < k <= 8 -> 0 <= n < 2 ^ (4 * k) -> ByteInt (IntBytes n k) k = (n, None).
Proof.
  intros Hk Hn. unfold IntBytes.
  assert (Hmask : uint32 (uint32 (Z.shiftl 1 k) - 1) = 2 ^ k - 1).
  { rewrite Z.shiftl_1_l.
    assert (2 ^ k <= 2 ^ 8) by (apply Z.pow_le_mono_r; lia).
    assert (0 < 2 ^ k) by (apply Z.pow_pos_nonneg; lia).
    change (2 ^ 8) with 256 in *.
    rewrite (uint32_small (2 ^ k)) by (change (2 ^ 32) with 4294967296; lia).
    apply uint32_small. change (2 ^ 32) with 4294967296; lia. }
  rewrite Hmask.
  destruct (IntBytes_loop_digits k (Z.to_nat BytesPerInt) n [] Hk ltac:(lia))
    as (ds & E & L & F & V).
  rewrite E, app_nil_r. unfold ByteInt, len. rewrite L.
  change (BytesPerInt <? Z.of_nat (Z.to_nat BytesPerInt)) with false. cbv iota.
  assert (Hv : digits_value k ds 0 = n).
  { rewrite V. change (Z.of_nat (Z.to_nat BytesPerInt)) with 4.
    rewrite (Z.mul_comm k 4), Z.mod_small by lia. lia. }
  assert (2 ^ (4 * k) <= 2 ^ 32) by (apply Z.pow_le_mono_r; lia).
  rewrite ByteInt_loop_digits; [rewrite Hv; reflexivity|assumption|assumption|lia|lia].
Qed.

(** C8: decoding the 4 bytes that encode [n] gives [n] back and no error,
    under the 7-bit convention for every [n] of 28 bits and under the 8-bit
    convention for every [uint32]. *)
Theorem SynchInt_NormInt_round_trip :
  (forall n, 0 <= n < 2 ^ 28 -> SynchInt (SynchBytes n) = (n, None)) /\
  (forall n, 0 <= n < 2 ^ 32 -> NormInt (NormBytes n) = (n, None)).
Proof.
  split; intros n Hn.
  - apply (ByteInt_IntBytes 7); [unfold SynchByteLength; lia | exact Hn].
  - apply (ByteInt_IntBytes 8); [unfold NormByteLength; lia | exact Hn].
Qed.

Lemma SynchInt_NormInt_round_trip_witness :
  SynchInt (SynchBytes 144619524) = (144619524, None) /\
  NormInt (NormBytes 194358964) = (194358964, None).
Proof.
  split.
  - apply (proj1 SynchInt_NormInt_round_trip 144619524). lia.
  - apply (proj2 SynchInt_NormInt_round_trip 194358964). lia.
Defined.

End IntegerCodec.

(** ** The encoding table *)

Section EncodingTable.
Import encodedbytes.

(** Inside the table the two lookups return the entry at the index. *)
Lemma EncodingForIndex_in_range (b : Z) (e : Encoding) :
  index EncodingMap b = Some e ->
  EncodingForIndex b = Some (Name e) /\
  EncodingNullLengthForIndex b = Some (NullLength e).
Proof.
  intros He. unfold EncodingForIndex, EncodingNullLengthForIndex.
  assert (Hb : 0 <= b < 4).
  { unfold index in He. destruct (decide (0 <= b)); [|discriminate].
    apply lookup_lt_Some in He. simpl in He. lia. }
  replace ((b <? 0) || (len EncodingMap <? b)) with false.
  - rewrite He. split; reflexivity.
  - symmetry. apply orb_false_iff. split; [apply Z.ltb_ge; lia|].
    apply Z.ltb_ge. unfold len. simpl. lia.
Qed.

(** Above [len(EncodingMap)] the two lookups fall back on the entry 0. *)
Lemma EncodingForIndex_above (b : Z) :
  4 < b ->
  EncodingForIndex b = Some "ISO-8859-1"%string /\
  EncodingNullLengthForIndex b = Some 1.
Proof.
  intros Hb. unfold EncodingForIndex, EncodingNullLengthForIndex.
  replace ((b <? 0) || (len EncodingMap <? b)) with true; [split; reflexivity|].
  symmetry. apply orb_true_iff. right. apply Z.ltb_lt. unfold len. simpl. lia.
Qed.

(** A name that the table does not hold has the index 0. *)
Lemma IndexForEncoding_unknown (s : string) :
  Forall (fun e => Name e <> s) EncodingMap -> IndexForEncoding s = 0.
Proof.
  intros HF. unfold IndexForEncoding.
  generalize 0 at 1. induction HF as [|e m Hne HF IH]; intros i; simpl; [reflexivity|].
  destruct (String.eqb_spec (Name e) s) as [Heq|_]; [contradiction|]. apply IH.
Qed.

(** C9, at the index [len(EncodingMap)]: the guard [encodingIndex >
    len(EncodingMap)] lets the index 4 through, and [EncodingMap[4]] is out
    of range: the two lookups panic where the claim has them fall back on
    ISO-8859-1. *)
Theorem EncodingForIndex_len_panics :
  index EncodingMap 4 = None /\
  EncodingForIndex 4 = None /\
  EncodingNullLengthForIndex 4 = None.
Proof. repeat split. Qed.

End EncodingTable.

(** ** Machine integers in range *)

Lemma int_small z : - 2 ^ 63 <= z < 2 ^ 63 -> int z = z.
Proof. intros Hz. unfold int. rewrite Z.mod_small; lia. Qed.

Lemma uint_small z : 0 <= z < 2 ^ 64 -> uint z = z.
Proof. intros Hz. unfold uint. apply Z.mod_small. lia. Qed.

Lemma uint32_add_idemp a b : uint32 (a + uint32 b) = uint32 (a + b).
Proof. unfold uint32. apply Z.add_mod_idemp_r. lia. Qed.

Lemma uint32_range z : 0 <= uint32 z < 2 ^ 32.
Proof. unfold uint32. apply Z.mod_pos_bound. lia. Qed.

(** ** The size accounting of the tag *)

Section SizeAccounting.
Import v2.

(** [changeSize] when the padding, read as an [int], is not negative: the
    padding absorbs what it can of [diff], the size field takes the rest. *)
Lemma changeSize_spec (diff : Z) (t : Tag) :
  0 <= padding t < 2 ^ 63 -> - 2 ^ 63 < padding t - diff < 2 ^ 63 ->
  Tag.changeSize diff t =
    with_dirty true
      (if padding t - diff <? 0
       then with_header
              (with_size (uint32 (size (header t) + (diff - padding t))) (header t))
              (with_padding 0 t)
       else with_padding (padding t - diff) t).
Proof.
  intros Hp Hd. unfold Tag.changeSize.
  rewrite (int_small (padding t)) by lia.
  rewrite (int_small (padding t - diff)) by lia.
  destruct (Z.ltb_spec (padding t - diff) 0) as [Hneg|Hpos].
  - rewrite int_small by lia. simpl. rewrite uint32_add_idemp.
    replace (- (padding t - diff)) with (diff - padding t) by lia. reflexivity.
  - rewrite uint_small by lia. reflexivity.
Qed.

Lemma changeSize_dirty (diff : Z) (t : Tag) : dirty (Tag.changeSize diff t) = true.
Proof. reflexivity. Qed.

Lemma changeSize_frames (diff : Z) (t : Tag) :
  frames (Tag.changeSize diff t) = frames t.
Proof. unfold Tag.changeSize. destruct (_ <? 0); reflexivity. Qed.

Lemma changeSize_frameHeaderSize (diff : Z) (t : Tag) :
  frameHeaderSize (Tag.changeSize diff t) = frameHeaderSize t.
Proof. unfold Tag.changeSize. destruct (_ <? 0); reflexivity. Qed.

End SizeAccounting.

Section SizeAccountingClaims.
Import v2.

(** C2, as amended: in a tag with 20 bytes of padding, [changeSize(5)]
    leaves the size field as it is and the padding at 15; [changeSize(30)]
    then leaves no padding and adds 15, the part of the 30 bytes that the
    padding did not absorb, to the size field (a [uint32]). *)
Theorem changeSize_padding_20 (t : Tag) :
  padding t = 20 ->
  let t1 := Tag.changeSize 5 t in
  let t2 := Tag.changeSize 30 t1 in
  size (header t1) = size (header t) /\ padding t1 = 15 /\ dirty t1 = true /\
  padding t2 = 0 /\ size (header t2) = uint32 (size (header t) + 15) /\
  dirty t2 = true /\
  (0 <= size (header t) < 2 ^ 32 - 15 -> size (header t2) = size (header t) + 15).
Proof.
  intros Hp t1 t2.
  assert (E1 : t1 = with_dirty true (with_padding 15 t)).
  { unfold t1. rewrite changeSize_spec by (rewrite Hp; lia).
    rewrite Hp. reflexivity. }
  assert (E2 : t2 = with_dirty true (with_header
            (with_size (uint32 (size (header t) + 15)) (header t))
            (with_padding 0 t))).
  { unfold t2. rewrite E1, changeSize_spec by (simpl; lia). reflexivity. }
  rewrite E1, E2. simpl. repeat split; try reflexivity.
  intros Hs. apply uint32_small. lia.
Qed.

Lemma changeSize_padding_20_witness :
  padding ex_padded_20 = 20 /\
  padding (Tag.changeSize 5 ex_padded_20) = 15 /\
  size (header (Tag.changeSize 30 (Tag.changeSize 5 ex_padded_20))) = 35.
Proof.
  destruct (changeSize_padding_20 ex_padded_20 eq_refl)
    as (_ & Hp1 & _ & _ & Hs2 & _).
  split; [reflexivity|]. split; [exact Hp1|]. rewrite Hs2. reflexivity.
Defined.

(** C2, as stated, fails: after [changeSize(5)] and [changeSize(30)] on a
    tag of 20 bytes of padding the size field has grown by 15, not by 10. *)
Lemma changeSize_padding_20_grows_by_15_not_10 :
  padding ex_padded_20 = 20 /\
  size (header (Tag.changeSize 30 (Tag.changeSize 5 ex_padded_20)))
    = size (header ex_padded_20) + 15 /\
  size (header (Tag.changeSize 30 (Tag.changeSize 5 ex_padded_20)))
    <> size (header ex_padded_20) + 10.
Proof. repeat split. intros H. vm_compute in H. discriminate H. Qed.

End SizeAccountingClaims.

(** ** The store of frames *)

Section Store.
Import v2.

Lemma same_frames_refl (h : Heap) : same_frames h h.
Proof. intros r. reflexivity. Qed.

Lemma same_frames_trans (h1 h2 h3 : Heap) :
  same_frames h1 h2 -> same_frames h2 h3 -> same_frames h1 h3.
Proof. intros H12 H23 r. rewrite H12. apply H23. Qed.

Lemma set_owner_idemp (o o' : option TagRef) (f : Framer) :
  set_owner o (set_owner o' f) = set_owner o f.
Proof. reflexivity. Qed.

Lemma setOwner_lookup_eq (h : Heap) (r : FrameRef) (o : option TagRef) (f : Framer) :
  h !! r = Some f -> setOwner r o h !! r = Some (set_owner o f).
Proof.
  intros Hf. unfold setOwner. rewrite Hf.
  apply list_lookup_insert_eq. eapply lookup_lt_Some, Hf.
Qed.

Lemma setOwner_lookup_ne (h : Heap) (r r' : FrameRef) (o : option TagRef) :
  r <> r' -> setOwner r o h !! r' = h !! r'.
Proof.
  intros Hne. unfold setOwner. destruct (h !! r); [|reflexivity].
  apply list_lookup_insert_ne. exact Hne.
Qed.

Lemma setOwner_same_frames (h : Heap) (r : FrameRef) (o : option TagRef) :
  same_frames h (setOwner r o h).
Proof.
  intros r'. destruct (decide (r = r')) as [<-|Hne].
  - destruct (h !! r) as [f|] eqn:Hf.
    + rewrite (setOwner_lookup_eq h r o f Hf). reflexivity.
    + unfold setOwner. rewrite Hf, Hf. reflexivity.
  - rewrite setOwner_lookup_ne by exact Hne. reflexivity.
Qed.

Lemma same_frames_lookup (h h' : Heap) (r : FrameRef) (f : Framer) :
  same_frames h h' -> h !! r = Some f ->
  exists f', h' !! r = Some f' /\ f_Id f' = f_Id f /\ f_Size f' = f_Size f /\
    f_StatusFlags f' = f_StatusFlags f /\ f_FormatFlags f' = f_FormatFlags f /\
    f_Bytes f' = f_Bytes f.
Proof.
  intros Hs Hf. specialize (Hs r). rewrite Hf in Hs.
  destruct (h' !! r) as [f'|]; [|discriminate].
  exists f'. split; [reflexivity|]. simpl in Hs. injection Hs as H1 H2 H3 H4 H5.
  repeat split; congruence.
Qed.

Lemma same_frames_sym (h h' : Heap) : same_frames h h' -> same_frames h' h.
Proof. intros H r. symmetry. apply H. Qed.

Lemma same_frames_footprint (fhs : Z) (h h' : Heap) (r : FrameRef) :
  same_frames h h' -> frame_footprint fhs h' r = frame_footprint fhs h r.
Proof.
  intros Hs. unfold frame_footprint. specialize (Hs r).
  destruct (h !! r) as [f|], (h' !! r) as [f'|]; try discriminate; [|reflexivity].
  simpl in Hs. injection Hs as _ H2 _. congruence.
Qed.

Lemma same_frames_footprint_of (fhs : Z) (h h' : Heap) (fs : list FrameRef) :
  same_frames h h' -> footprint_of fhs h' fs = footprint_of fhs h fs.
Proof.
  intros Hs. induction fs as [|r fs IH]; simpl; [reflexivity|].
  rewrite IH, (same_frames_footprint fhs h h' r Hs). reflexivity.
Qed.

Lemma same_frames_has_id (h h' : Heap) (id : string) (r : FrameRef) :
  same_frames h h' -> has_id h' id r = has_id h id r.
Proof.
  intros Hs. unfold has_id. specialize (Hs r).
  destruct (h !! r) as [f|], (h' !! r) as [f'|]; try discriminate; [|reflexivity].
  simpl in Hs. injection Hs as H1 _. congruence.
Qed.

Lemma same_frames_ok (h h' : Heap) (fs : list FrameRef) :
  same_frames h h' -> frames_ok h fs -> frames_ok h' fs.
Proof.
  intros Hs HF. unfold frames_ok in *. eapply Forall_impl; [exact HF|].
  intros r (f & Hf & Hr).
  destruct (same_frames_lookup h h' r f Hs Hf) as (f' & Hf' & _ & Hsz & _).
  exists f'. split; [exact Hf'|]. rewrite Hsz. exact Hr.
Qed.

Lemma footprint_of_app (fhs : Z) (h : Heap) (fs gs : list FrameRef) :
  footprint_of fhs h (fs ++ gs) = footprint_of fhs h fs + footprint_of fhs h gs.
Proof. induction fs as [|r fs IH]; simpl; [reflexivity|]. rewrite IH. lia. Qed.

Lemma footprint_of_nonneg (fhs : Z) (h : Heap) (fs : list FrameRef) :
  0 <= fhs -> frames_ok h fs -> 0 <= footprint_of fhs h fs.
Proof.
  intros Hfhs HF. induction HF as [|r fs (f & Hf & Hr) _ IH]; simpl; [lia|].
  unfold frame_footprint. rewrite Hf. lia.
Qed.

Lemma footprint_of_filter (fhs : Z) (h : Heap) (m : FrameRef -> bool) (fs : list FrameRef) :
  footprint_of fhs h (List.filter m fs)
  + footprint_of fhs h (List.filter (fun r => negb (m r)) fs)
  = footprint_of fhs h fs.
Proof.
  induction fs as [|r fs IH]; simpl; [reflexivity|].
  destruct (m r); simpl; lia.
Qed.

Lemma frames_ok_app (h : Heap) (fs gs : list FrameRef) :
  frames_ok h (fs ++ gs) <-> frames_ok h fs /\ frames_ok h gs.
Proof. apply Forall_app. Qed.

Lemma frames_ok_filter (h : Heap) (m : FrameRef -> bool) (fs : list FrameRef) :
  frames_ok h fs -> frames_ok h (List.filter m fs).
Proof.
  intros HF. induction HF as [|r fs Hr _ IH]; simpl; [constructor|].
  destruct (m r); [constructor; assumption|assumption].
Qed.

End Store.

(** ** Adding frames *)

Section AddFrames.
Import v2.

Lemma tag_ok_padding_le_size (t : Tag) (h : Heap) :
  tag_ok t h -> tag_invariant t h ->
  0 <= footprint t h /\ 0 <= padding t <= size (header t).
Proof.
  intros (Hs & Hp & Hf & Hok) Hinv. unfold tag_invariant in Hinv.
  assert (0 <= footprint t h) by (apply footprint_of_nonneg; [lia|exact Hok]).
  lia.
Qed.

Lemma AddFrames_cons (self : TagRef) (t : Tag) (r : FrameRef) (fs : list FrameRef)
    (h : Heap) (f : Framer) :
  h !! r = Some f ->
  Tag.AddFrames self t (r :: fs) h
  = Tag.AddFrames self (AddFrames_step t r f) fs (setOwner r (Some self) h).
Proof.
  intros Hf.
  change (Tag.AddFrames self t (r :: fs) h)
    with (h !! r ≫= fun f => Tag.AddFrames self (AddFrames_step t r f) fs
                               (setOwner r (Some self) h)).
  rewrite Hf. reflexivity.
Qed.

Lemma AddFrames_step_spec (t : Tag) (r : FrameRef) (f : Framer) :
  0 <= padding t < 2 ^ 63 -> 0 <= frameHeaderSize t <= 10 ->
  0 <= f_Size f < 2 ^ 32 ->
  let diff := frameHeaderSize t + f_Size f in
  AddFrames_step t r f =
    with_frames (frames t ++ [r])
      (with_dirty true
        (if padding t - diff <? 0
         then with_header
                (with_size (uint32 (size (header t) + (diff - padding t))) (header t))
                (with_padding 0 t)
         else with_padding (padding t - diff) t)).
Proof.
  intros Hp Hfhs Hsz diff. unfold AddFrames_step. cbv zeta.
  rewrite changeSize_frames.
  rewrite (int_small (f_Size f)) by lia.
  rewrite int_small by lia.
  rewrite changeSize_spec by (fold diff; lia).
  reflexivity.
Qed.

Lemma AddFrames_step_invariant (self : TagRef) (t : Tag) (r : FrameRef) (f : Framer)
    (h : Heap) :
  tag_ok t h -> tag_invariant t h -> h !! r = Some f -> 0 <= f_Size f < 2 ^ 32 ->
  footprint t h + (frameHeaderSize t + f_Size f) < 2 ^ 32 ->
  let t1 := AddFrames_step t r f in
  let h1 := setOwner r (Some self) h in
  tag_ok t1 h1 /\ tag_invariant t1 h1 /\ frameHeaderSize t1 = frameHeaderSize t /\
  frames t1 = frames t ++ [r] /\ dirty t1 = true.
Proof.
  intros Hok Hinv Hf Hsz Hfit t1 h1.
  destruct (tag_ok_padding_le_size t h Hok Hinv) as (Hfp & Hpad).
  destruct Hok as (Hs & Hp & Hfhs & Hfr).
  pose proof (setOwner_same_frames h r (Some self)) as Hsame. fold h1 in Hsame.
  assert (Hfr1 : frames_ok h1 (frames t ++ [r])).
  { apply (same_frames_ok h h1 _ Hsame). apply frames_ok_app. split; [exact Hfr|].
    constructor; [|constructor]. exists f. split; assumption. }
  assert (Hfp1 : footprint_of (frameHeaderSize t) h1 (frames t ++ [r])
                 = footprint t h + (frameHeaderSize t + f_Size f)).
  { rewrite (same_frames_footprint_of _ h h1 _ Hsame), footprint_of_app. simpl.
    unfold frame_footprint. rewrite Hf. unfold footprint. lia. }
  unfold tag_invariant in Hinv.
  unfold t1. rewrite AddFrames_step_spec by lia.
  destruct (Z.ltb_spec (padding t - (frameHeaderSize t + f_Size f)) 0) as [Hneg|Hpos].
  - assert (Hu : uint32 (size (header t) + (frameHeaderSize t + f_Size f - padding t))
                 = footprint t h + (frameHeaderSize t + f_Size f)).
    { rewrite uint32_small by lia. lia. }
    unfold tag_ok, tag_invariant, footprint. simpl. rewrite Hu, Hfp1.
    repeat split; try assumption; try lia.
  - unfold tag_ok, tag_invariant, footprint. simpl. rewrite Hfp1.
    repeat split; try assumption; try lia.
Qed.

(** [AddFrames] keeps the invariant as long as the frames fit the 32 bits
    of the size field. *)
Lemma AddFrames_invariant (self : TagRef) (fs : list FrameRef) :
  forall (t : Tag) (h : Heap),
  tag_ok t h -> tag_invariant t h -> frames_ok h fs ->
  footprint_of (frameHeaderSize t) h (frames t ++ fs) < 2 ^ 32 ->
  exists t' h', Tag.AddFrames self t fs h = Some (t', h') /\
    tag_ok t' h' /\ tag_invariant t' h' /\ frames t' = frames t ++ fs /\
    frameHeaderSize t' = frameHeaderSize t /\ same_frames h h'.
Proof.
  induction fs as [|r fs IH]; intros t h Hok Hinv Hfs Hfit.
  - exists t, h. rewrite app_nil_r. repeat split; try assumption; try apply Hok.
  - inversion Hfs as [|? ? (f & Hf & Hsz) Hfs']; subst.
    assert (Hfhs : 0 < frameHeaderSize t <= 10) by apply Hok.
    rewrite footprint_of_app in Hfit. simpl in Hfit.
    unfold frame_footprint in Hfit at 1. rewrite Hf in Hfit.
    pose proof (footprint_of_nonneg (frameHeaderSize t) h fs ltac:(lia) Hfs') as Hnn.
    destruct (AddFrames_step_invariant self t r f h Hok Hinv Hf Hsz)
      as (Hok1 & Hinv1 & Hfhs1 & Hfr1 & Hd1); [unfold footprint; lia|].
    pose proof (setOwner_same_frames h r (Some self)) as Hsame.
    destruct (IH (AddFrames_step t r f) (setOwner r (Some self) h) Hok1 Hinv1)
      as (t' & h' & HA & Hok' & Hinv' & Hfr' & Hfhs' & Hsame').
    + apply (same_frames_ok h _ _ Hsame). exact Hfs'.
    + rewrite Hfhs1, Hfr1, (same_frames_footprint_of _ h _ _ Hsame).
      rewrite !footprint_of_app. simpl. unfold frame_footprint. rewrite Hf. lia.
    + exists t', h'. rewrite (AddFrames_cons self t r fs h f Hf), HA.
      repeat split; try assumption; try apply Hok'.
      * rewrite Hfr', Hfr1, <- app_assoc. reflexivity.
      * congruence.
      * eapply same_frames_trans; eassumption.
Qed.


(** C3, as amended: [AddFrames(f)] adds to [Size()] the part of
    [frameHeaderSize + f.Size()] that the padding of the tag does not absorb
    (nothing when the padding absorbs it all), within the 32 bits of the size
    field, and leaves the tag dirty; with no padding, and room in the size
    field, that is all of [frameHeaderSize + f.Size()]. *)
Theorem AddFrames_Size (self : TagRef) (t : Tag) (r : FrameRef) (f : Framer) (h : Heap) :
  h !! r = Some f -> 0 <= f_Size f < 2 ^ 32 ->
  0 <= frameHeaderSize t <= 10 -> 0 <= size (header t) < 2 ^ 32 ->
  0 <= padding t < 2 ^ 63 ->
  exists t' h', Tag.AddFrames self t [r] h = Some (t', h') /\
    Tag.Size t'
      = uint32 (Tag.Size t + Z.max 0 (frameHeaderSize t + f_Size f - padding t)) /\
    Tag.Padding t' = Z.max 0 (padding t - (frameHeaderSize t + f_Size f)) /\
    Tag.Dirty t' = true /\
    (padding t = 0 -> Tag.Size t + (frameHeaderSize t + f_Size f) < 2 ^ 32 ->
     Tag.Size t' = Tag.Size t + (frameHeaderSize t + f_Size f)).
Proof.
  intros Hf Hsz Hfhs Hs Hp.
  exists (AddFrames_step t r f), (setOwner r (Some self) h).
  rewrite (AddFrames_cons self t r [] h f Hf). split; [reflexivity|].
  rewrite AddFrames_step_spec by assumption.
  unfold Tag.Size, Tag.Padding, Tag.Dirty, Header.Size.
  rewrite (int_small (size (header t))) by lia.
  destruct (Z.ltb_spec (padding t - (frameHeaderSize t + f_Size f)) 0) as [Hneg|Hpos];
    simpl.
  - rewrite Z.max_r by lia. rewrite Z.max_l by lia.
    replace (size (header t) + (frameHeaderSize t + f_Size f - padding t))
      with (size (header t) + (frameHeaderSize t + f_Size f) - padding t) by lia.
    pose proof (uint32_range (size (header t) + (frameHeaderSize t + f_Size f) - padding t)).
    rewrite int_small by lia.
    replace (size (header t) + (frameHeaderSize t + f_Size f - padding t))
      with (size (header t) + (frameHeaderSize t + f_Size f) - padding t) by lia.
    repeat split; try reflexivity.
    intros Hp0 Hfit. rewrite Hp0, Z.sub_0_r. apply uint32_small. lia.
  - rewrite Z.max_l by lia. rewrite Z.max_r by lia. rewrite Z.add_0_r.
    rewrite int_small, uint32_small by lia.
    repeat split; try reflexivity. intros Hp0 Hfit. lia.
Qed.

Lemma AddFrames_Size_witness :
  exists t' h', Tag.AddFrames 0 ex_empty [0%nat] ex_heap = Some (t', h') /\
    Tag.Size t' = 15 /\ Tag.Dirty t' = true.
Proof.
  destruct (AddFrames_Size 0%nat ex_empty 0%nat ex_title ex_heap)
    as (t' & h' & HA & HS & _ & HD & _).
  - reflexivity.
  - simpl. lia.
  - simpl. unfold FrameHeaderSize. lia.
  - simpl. lia.
  - simpl. lia.
  - exists t', h'. split; [exact HA|]. split; [rewrite HS; reflexivity|exact HD].
Defined.

(** C3, as stated, fails on a tag with padding: the 15 bytes of padding of
    [ex_padded] absorb the 11 bytes of the album frame, and [Size()] stays
    at 15. *)
Lemma AddFrames_Size_padding_absorbs :
  Tag.AddFrames 0 ex_padded [1%nat] ex_heap
    = Some (ex_padded_album, setOwner 1%nat (Some 0%nat) ex_heap) /\
  ex_heap !! 1%nat = Some ex_album /\
  Tag.Size ex_padded_album = Tag.Size ex_padded /\
  Tag.Size ex_padded_album
    <> Tag.Size ex_padded + (frameHeaderSize ex_padded + f_Size ex_album).
Proof.
  split; [reflexivity|]. split; [reflexivity|]. split; [reflexivity|].
  intros H. vm_compute in H. discriminate H.
Qed.

End AddFrames.

(** ** Deleting frames *)

Section DeleteFrames.
Import v2.

Lemma with_frames_id (t : Tag) : with_frames (frames t) t = t.
Proof. destruct t. reflexivity. Qed.

Lemma frames_ok_lookup (h : Heap) (fs : list FrameRef) (i : nat) (r : FrameRef) :
  frames_ok h fs -> fs !! i = Some r ->
  exists f, h !! r = Some f /\ 0 <= f_Size f < 2 ^ 32.
Proof. intros HF Hi. exact (proj1 (Forall_lookup _ _) HF i r Hi). Qed.

Lemma frames_ok_delete (h : Heap) (fs : list FrameRef) (i : nat) :
  frames_ok h fs -> frames_ok h (take i fs ++ drop (S i) fs).
Proof.
  intros HF. apply frames_ok_app. split.
  - apply Forall_take. exact HF.
  - apply Forall_drop. exact HF.
Qed.

(** The loop of the two delete methods, from the position [i] on: the
    frames that [m] selects leave the list, their owner is cleared and
    their footprints are added to [diff]; the other frames stay, in order. *)
Lemma remove_loop_spec (m : FrameRef -> bool) (fuel : nat) :
  forall (i : nat) (diff : Z) (t : Tag) (h : Heap),
  frames_ok h (frames t) -> 0 <= frameHeaderSize t <= 10 -> 0 <= diff ->
  diff + footprint_of (frameHeaderSize t) h (drop i (frames t)) < 2 ^ 63 ->
  (length (frames t) <= fuel + i)%nat ->
  exists h',
    remove_loop fuel m i diff t h
    = Some (diff + footprint_of (frameHeaderSize t) h (List.filter m (drop i (frames t))),
            with_frames (take i (frames t)
                         ++ List.filter (fun r => negb (m r)) (drop i (frames t))) t,
            h') /\
    same_frames h h' /\
    (forall r, In r (List.filter m (drop i (frames t))) -> owner_at h' r = Some None) /\
    (forall r, ~ In r (List.filter m (drop i (frames t))) -> h' !! r = h !! r).
Proof.
  induction fuel as [|fuel IH]; intros i diff t h Hok Hfhs Hdiff Hfit Hfuel.
  - assert (Hnone : frames t !! i = None) by (apply lookup_ge_None; lia).
    exists h. simpl. rewrite Hnone.
    rewrite drop_ge, take_ge by lia. simpl. rewrite app_nil_r, with_frames_id, Z.add_0_r.
    split; [reflexivity|]. split; [apply same_frames_refl|].
        split; intros r Hr; [destruct Hr | reflexivity].
  - destruct (frames t !! i) as [frame|] eqn:Hi.
    2:{ apply lookup_ge_None in Hi. exists h. simpl.
        rewrite (proj2 (lookup_ge_None _ _) Hi).
        rewrite drop_ge, take_ge by lia. simpl.
        rewrite app_nil_r, with_frames_id, Z.add_0_r.
        split; [reflexivity|]. split; [apply same_frames_refl|].
        split; intros r Hr; [destruct Hr | reflexivity]. }
    pose proof (lookup_lt_Some _ _ _ Hi) as Hlt.
    pose proof (drop_S _ _ _ Hi) as Hdrop.
    destruct (frames_ok_lookup h _ i frame Hok Hi) as (f & Hf & Hsz).
    rewrite Hdrop in Hfit |- *. simpl in Hfit.
    assert (Hff : frame_footprint (frameHeaderSize t) h frame = frameHeaderSize t + f_Size f)
      by (unfold frame_footprint; rewrite Hf; reflexivity).
    assert (Hrest : 0 <= footprint_of (frameHeaderSize t) h (drop (S i) (frames t))).
    { apply footprint_of_nonneg; [lia|]. apply Forall_drop. exact Hok. }
    simpl remove_loop. rewrite Hi. simpl List.filter.
    destruct (m frame) eqn:Hm; simpl negb; cbv iota.
    + rewrite Hf. simpl mbind. simpl option_bind.
      set (t1 := with_frames (take i (frames t) ++ drop (S i) (frames t)) t).
      set (h1 := setOwner frame None h).
      pose proof (setOwner_same_frames h frame None) as Hsame. fold h1 in Hsame.
      rewrite (int_small (f_Size f)) by lia.
      rewrite (int_small (frameHeaderSize t + f_Size f)) by lia.
      rewrite int_small by lia.
      assert (Htake : take i (frames t1) = take i (frames t)).
      { unfold t1. simpl. rewrite take_app_le by (rewrite length_take; lia).
        apply take_take_le_eq || (rewrite take_take; f_equal; lia). }
      assert (Hdrop1 : drop i (frames t1) = drop (S i) (frames t)).
      { unfold t1. simpl.
        rewrite drop_app_length' by (rewrite length_take; lia). reflexivity. }
      destruct (IH i (diff + (frameHeaderSize t + f_Size f)) t1 h1)
        as (h' & HR & Hsame' & Hown & Hkeep).
      * apply (same_frames_ok h h1 _ Hsame). unfold t1. simpl.
        apply frames_ok_delete. exact Hok.
      * exact Hfhs.
      * lia.
      * rewrite Hdrop1. change (frameHeaderSize t1) with (frameHeaderSize t).
        rewrite (same_frames_footprint_of _ h h1 _ Hsame). lia.
      * unfold t1. simpl. rewrite length_app, length_take, length_drop. lia.
      * exists h'. rewrite HR, Htake, Hdrop1.
        change (frameHeaderSize t1) with (frameHeaderSize t).
        rewrite (same_frames_footprint_of _ h h1 _ Hsame). simpl footprint_of.
        rewrite Hff.
        replace (diff + (frameHeaderSize t + f_Size f + footprint_of (frameHeaderSize t) h
                   (List.filter m (drop (S i) (frames t)))))
          with (diff + (frameHeaderSize t + f_Size f) + footprint_of (frameHeaderSize t) h
                   (List.filter m (drop (S i) (frames t)))) by lia.
        split; [reflexivity|].
        split; [eapply same_frames_trans; eassumption|]. split.
        -- intros r Hr. rewrite Hdrop1 in Hown, Hkeep.
           destruct (in_dec Nat.eq_dec r (List.filter m (drop (S i) (frames t))))
             as [Hin|Hnin]; [apply Hown; exact Hin|].
           destruct Hr as [<-|Hr]; [|contradiction].
           unfold owner_at. rewrite (Hkeep frame Hnin). unfold h1.
           rewrite (setOwner_lookup_eq h frame None f Hf). reflexivity.
        -- intros r Hr. rewrite Hdrop1 in Hkeep.
           rewrite Hkeep by (intros Hin; apply Hr; right; exact Hin).
           unfold h1. apply setOwner_lookup_ne. intros ->. apply Hr. left. reflexivity.
    + destruct (IH (S i) diff t h Hok Hfhs Hdiff) as (h' & HR & Hsame' & Hown & Hkeep).
      * lia.
      * lia.
      * exists h'. rewrite HR. rewrite (take_S_r _ _ _ Hi), <- app_assoc. simpl.
        repeat split; assumption.
Qed.

Lemma DeleteFrame_loop_remove_loop (delFrame : FrameRef) (fuel : nat) :
  forall (i : nat) (diff : Z) (t : Tag) (h : Heap),
  Tag.DeleteFrame_loop fuel delFrame i diff t h
  = remove_loop fuel (fun r => bool_decide (r = delFrame)) i diff t h.
Proof.
  induction fuel as [|fuel IH]; intros i diff t h; simpl; [reflexivity|].
  destruct (frames t !! i) as [frame|]; [|reflexivity].
  destruct (decide (frame = delFrame)) as [Heq|Hne].
  - rewrite (bool_decide_eq_true_2 _ Heq).
    destruct (h !! frame) as [f|]; [|reflexivity]. simpl. apply IH.
  - rewrite (bool_decide_eq_false_2 _ Hne). apply IH.
Qed.

Lemma DeleteFrames_loop_remove_loop (id : string) (h0 : Heap) (fuel : nat) :
  forall (i : nat) (diff : Z) (t : Tag) (h : Heap),
  same_frames h0 h -> frames_ok h (frames t) ->
  Tag.DeleteFrames_loop fuel id i diff t h
  = remove_loop fuel (has_id h0 id) i diff t h.
Proof.
  induction fuel as [|fuel IH]; intros i diff t h Hsame Hok; simpl; [reflexivity|].
  destruct (frames t !! i) as [frame|] eqn:Hi; [|reflexivity].
  destruct (frames_ok_lookup h _ i frame Hok Hi) as (f & Hf & _).
  rewrite <- (same_frames_has_id h0 h id frame Hsame).
  unfold has_id at 1. rewrite Hf. simpl.
  destruct (String.eqb (f_Id f) id); simpl.
  - apply IH.
    + eapply same_frames_trans; [exact Hsame|apply setOwner_same_frames].
    + apply (same_frames_ok h _ _ (setOwner_same_frames h frame None)).
      apply frames_ok_delete. exact Hok.
  - apply IH; assumption.
Qed.

Lemma Frames_loop_filter (id : string) (h : Heap) (fs : list FrameRef) :
  forall rv, frames_ok h fs ->
  Tag.Frames_loop fs id h rv = Some (rv ++ List.filter (has_id h id) fs).
Proof.
  induction fs as [|r fs IH]; intros rv Hok; simpl.
  - rewrite app_nil_r. reflexivity.
  - inversion Hok as [|? ? (f & Hf & _) Hok']; subst.
    unfold has_id at 1. rewrite Hf. simpl.
    destruct (String.eqb (f_Id f) id).
    + rewrite IH by exact Hok'. rewrite <- app_assoc. reflexivity.
    + apply IH. exact Hok'.
Qed.

Lemma Frames_filter (t : Tag) (id : string) (h : Heap) :
  frames_ok h (frames t) ->
  Tag.Frames t id h = Some (List.filter (has_id h id) (frames t)).
Proof. intros Hok. unfold Tag.Frames. rewrite Frames_loop_filter by exact Hok. reflexivity. Qed.

(** The tag after a delete method has removed the frames that [m] selects. *)
Lemma DeleteFrames_spec (t : Tag) (id : string) (h : Heap) :
  frames_ok h (frames t) -> 0 <= frameHeaderSize t <= 10 ->
  footprint t h < 2 ^ 63 ->
  exists h',
    Tag.DeleteFrames t id h
    = Some (List.filter (has_id h id) (frames t),
            Tag.changeSize
              (- footprint_of (frameHeaderSize t) h (List.filter (has_id h id) (frames t)))
              (with_frames (List.filter (fun r => negb (has_id h id r)) (frames t)) t),
            h') /\
    same_frames h h' /\
    (forall r, In r (List.filter (has_id h id) (frames t)) -> owner_at h' r = Some None) /\
    (forall r, ~ In r (List.filter (has_id h id) (frames t)) -> h' !! r = h !! r).
Proof.
  intros Hok Hfhs Hfit. unfold Tag.DeleteFrames.
  rewrite Frames_filter by exact Hok. cbn -[Tag.changeSize int Tag.DeleteFrames_loop].
  rewrite (DeleteFrames_loop_remove_loop id h) by (apply same_frames_refl || exact Hok).
  destruct (remove_loop_spec (has_id h id) (length (frames t)) 0 0 t h Hok Hfhs)
    as (h' & HR & Hrest); [lia|exact Hfit|lia|].
  rewrite ?drop_0, ?take_0 in HR, Hrest. simpl app in HR.
  exists h'. rewrite HR. cbn -[Tag.changeSize int]. rewrite Z.add_0_l.
  split; [|exact Hrest].
  assert (Hle : 0 <= footprint_of (frameHeaderSize t) h (List.filter (has_id h id) (frames t))
                <= footprint t h).
  { pose proof (footprint_of_filter (frameHeaderSize t) h (has_id h id) (frames t)).
    pose proof (footprint_of_nonneg (frameHeaderSize t) h _ ltac:(lia)
                  (frames_ok_filter h (has_id h id) _ Hok)).
    pose proof (footprint_of_nonneg (frameHeaderSize t) h _ ltac:(lia)
                  (frames_ok_filter h (fun r => negb (has_id h id r)) _ Hok)).
    unfold footprint. lia. }
  rewrite int_small by lia. reflexivity.
Qed.

Lemma DeleteFrame_spec (t : Tag) (delFrame : FrameRef) (h : Heap) :
  frames_ok h (frames t) -> 0 <= frameHeaderSize t <= 10 ->
  footprint t h < 2 ^ 63 ->
  let m := fun r : FrameRef => bool_decide (r = delFrame) in
  exists h',
    Tag.DeleteFrame t delFrame h
    = Some (frames t,
            Tag.changeSize
              (- footprint_of (frameHeaderSize t) h (List.filter m (frames t)))
              (with_frames (List.filter (fun r => negb (m r)) (frames t)) t),
            h') /\
    same_frames h h' /\
    (forall r, In r (List.filter m (frames t)) -> owner_at h' r = Some None) /\
    (forall r, ~ In r (List.filter m (frames t)) -> h' !! r = h !! r).
Proof.
  intros Hok Hfhs Hfit m. unfold Tag.DeleteFrame, Tag.AllFrames.
  rewrite DeleteFrame_loop_remove_loop. fold m.
  destruct (remove_loop_spec m (length (frames t)) 0 0 t h Hok Hfhs)
    as (h' & HR & Hrest); [lia|exact Hfit|lia|].
  rewrite ?drop_0, ?take_0 in HR, Hrest. simpl app in HR.
  exists h'. rewrite HR. cbn -[Tag.changeSize int]. rewrite Z.add_0_l.
  split; [|exact Hrest].
  assert (Hle : 0 <= footprint_of (frameHeaderSize t) h (List.filter m (frames t))
                <= footprint t h).
  { pose proof (footprint_of_filter (frameHeaderSize t) h m (frames t)).
    pose proof (footprint_of_nonneg (frameHeaderSize t) h _ ltac:(lia)
                  (frames_ok_filter h m _ Hok)).
    pose proof (footprint_of_nonneg (frameHeaderSize t) h _ ltac:(lia)
                  (frames_ok_filter h (fun r => negb (m r)) _ Hok)).
    unfold footprint. lia. }
  rewrite int_small by lia. reflexivity.
Qed.

(** Removing frames keeps the invariant: their footprints become padding. *)
Lemma remove_invariant (t : Tag) (h h' : Heap) (m : FrameRef -> bool) :
  tag_ok t h -> tag_invariant t h -> same_frames h h' ->
  let t' := Tag.changeSize
              (- footprint_of (frameHeaderSize t) h (List.filter m (frames t)))
              (with_frames (List.filter (fun r => negb (m r)) (frames t)) t) in
  tag_ok t' h' /\ tag_invariant t' h' /\ dirty t' = true /\
  size (header t') = size (header t).
Proof.
  intros Hok Hinv Hsame t'.
  destruct (tag_ok_padding_le_size t h Hok Hinv) as (Hfp & Hpad).
  destruct Hok as (Hs & Hp & Hfhs & Hfr).
  pose proof (footprint_of_filter (frameHeaderSize t) h m (frames t)) as Hsplit.
  pose proof (footprint_of_nonneg (frameHeaderSize t) h _ ltac:(lia)
                (frames_ok_filter h m _ Hfr)) as Hrm.
  pose proof (footprint_of_nonneg (frameHeaderSize t) h _ ltac:(lia)
                (frames_ok_filter h (fun r => negb (m r)) _ Hfr)) as Hkp.
  unfold tag_invariant, footprint in Hinv. unfold footprint in Hfp.
  unfold t'. rewrite changeSize_spec by (simpl; lia). simpl.
  destruct (Z.ltb_spec
    (padding t - - footprint_of (frameHeaderSize t) h (List.filter m (frames t))) 0)
    as [Hneg|Hpos]; [lia|].
  unfold tag_ok, tag_invariant, footprint. simpl.
  rewrite (same_frames_footprint_of _ h h' _ Hsame).
  repeat split; try lia.
  apply (same_frames_ok h h' _ Hsame). apply frames_ok_filter. exact Hfr.
Qed.

End DeleteFrames.

(** ** The tag container *)

Section TagContainer.
Import v2.

Lemma NewTag_fields `{FrameCodecs} (version : Z) :
  size (header (NewTag version)) = 0 /\ padding (NewTag version) = 0 /\
  frames (NewTag version) = [] /\ dirty (NewTag version) = false /\
  (frameHeaderSize (NewTag version) = 6 \/ frameHeaderSize (NewTag version) = 10).
Proof.
  unfold NewTag.
  repeat match goal with
         | |- context [match ?x with _ => _ end] => destruct x
         end; simpl; unfold V22FrameHeaderSize, FrameHeaderSize; auto 10.
Qed.

(** C1: the size field is the sum of the footprints of the frames plus the
    padding in every tag that [NewTag] makes, and [AddFrames], [DeleteFrames]
    and [DeleteFrame] keep it so; for [AddFrames], as long as the frames of
    the tag fit the 32 bits of the size field. *)
Theorem tag_invariant_preserved `{FrameCodecs} :
  (forall (version : Z) (h : Heap),
     tag_ok (NewTag version) h /\ tag_invariant (NewTag version) h) /\
  (forall (self : TagRef) (t : Tag) (fs : list FrameRef) (h : Heap),
     tag_ok t h -> tag_invariant t h -> frames_ok h fs ->
     footprint_of (frameHeaderSize t) h (frames t ++ fs) < 2 ^ 32 ->
     exists t' h', Tag.AddFrames self t fs h = Some (t', h') /\
       tag_ok t' h' /\ tag_invariant t' h') /\
  (forall (t : Tag) (id : string) (h : Heap),
     tag_ok t h -> tag_invariant t h ->
     exists fs t' h', Tag.DeleteFrames t id h = Some (fs, t', h') /\
       tag_ok t' h' /\ tag_invariant t' h') /\
  (forall (t : Tag) (delFrame : FrameRef) (h : Heap),
     tag_ok t h -> tag_invariant t h ->
     exists fs t' h', Tag.DeleteFrame t delFrame h = Some (fs, t', h') /\
       tag_ok t' h' /\ tag_invariant t' h').
Proof.
  split; [|split; [|split]].
  - intros version h.
    destruct (NewTag_fields version) as (Hs & Hp & Hf & _ & Hfhs).
    unfold tag_ok, tag_invariant, footprint, frames_ok. rewrite Hs, Hp, Hf. simpl.
    repeat split; try lia; try constructor; destruct Hfhs as [-> | ->]; lia.
  - intros self t fs h Hok Hinv Hfs Hfit.
    destruct (AddFrames_invariant self fs t h Hok Hinv Hfs Hfit)
      as (t' & h' & HA & Hok' & Hinv' & _).
    exists t', h'. auto.
  - intros t id h Hok Hinv.
    destruct (tag_ok_padding_le_size t h Hok Hinv) as (Hfp & Hpad).
    assert (Hfit : footprint t h < 2 ^ 63).
    { unfold tag_invariant in Hinv. destruct Hok as (Hs & _). lia. }
    destruct (DeleteFrames_spec t id h) as (h' & HD & Hsame & _);
      [apply Hok | destruct Hok as (_ & _ & ? & _); lia | exact Hfit |].
    destruct (remove_invariant t h h' (has_id h id) Hok Hinv Hsame) as (Hok' & Hinv' & _).
    eexists _, _, h'. split; [exact HD|]. split; assumption.
  - intros t delFrame h Hok Hinv.
    destruct (tag_ok_padding_le_size t h Hok Hinv) as (Hfp & Hpad).
    assert (Hfit : footprint t h < 2 ^ 63).
    { unfold tag_invariant in Hinv. destruct Hok as (Hs & _). lia. }
    destruct (DeleteFrame_spec t delFrame h) as (h' & HD & Hsame & _);
      [apply Hok | destruct Hok as (_ & _ & ? & _); lia | exact Hfit |].
    destruct (remove_invariant t h h' (fun r => bool_decide (r = delFrame)) Hok Hinv Hsame)
      as (Hok' & Hinv' & _).
    eexists _, _, h'. split; [exact HD|]. split; assumption.
Qed.

Lemma tag_invariant_preserved_witness :
  tag_invariant ex_empty ex_heap /\
  (exists t' h', Tag.AddFrames 0 ex_empty [0%nat; 1%nat] ex_heap = Some (t', h') /\
     tag_invariant t' h') /\
  (exists fs t' h', Tag.DeleteFrames ex_two "TIT2" ex_heap_owned = Some (fs, t', h') /\
     tag_invariant t' h') /\
  (exists fs t' h', Tag.DeleteFrame ex_two 1%nat ex_heap_owned = Some (fs, t', h') /\
     tag_invariant t' h').
Proof.
  destruct (@tag_invariant_preserved ex_codecs) as (HN & HA & HDs & HD).
  assert (Hok2 : tag_ok ex_two ex_heap_owned).
  { unfold tag_ok, frames_ok. simpl. unfold FrameHeaderSize.
    repeat split; try lia.
    repeat constructor; eexists; (split; [reflexivity|simpl; lia]). }
  assert (Hinv2 : tag_invariant ex_two ex_heap_owned) by reflexivity.
  split; [apply (HN 4 ex_heap)|]. split; [|split].
  - destruct (HA 0%nat ex_empty [0%nat; 1%nat] ex_heap) as (t' & h' & E & _ & I).
    + apply (HN 4 ex_heap).
    + apply (HN 4 ex_heap).
    + repeat constructor; eexists; (split; [reflexivity|simpl; lia]).
    + vm_compute. reflexivity.
    + exists t', h'. split; assumption.
  - destruct (HDs ex_two "TIT2"%string ex_heap_owned Hok2 Hinv2) as (fs & t' & h' & E & _ & I).
    exists fs, t', h'. split; assumption.
  - destruct (HD ex_two 1%nat ex_heap_owned Hok2 Hinv2) as (fs & t' & h' & E & _ & I).
    exists fs, t', h'. split; assumption.
Defined.

(** C10: deleting the frames of an identifier that no frame of the tag
    carries, or a frame that the tag does not hold, leaves the frame list,
    the size field, the padding and the store as they are, and the tag
    dirty; the padding is one that [int] holds. *)
Theorem delete_nothing_still_dirties :
  (forall (t : Tag) (id : string) (h : Heap),
     0 <= padding t < 2 ^ 63 ->
     Forall (fun r => exists f, h !! r = Some f /\ f_Id f <> id) (frames t) ->
     exists fs t', Tag.DeleteFrames t id h = Some (fs, t', h) /\ fs = [] /\
       frames t' = frames t /\ size (header t') = size (header t) /\
       padding t' = padding t /\ dirty t' = true /\ t' = with_dirty true t) /\
  (forall (t : Tag) (delFrame : FrameRef) (h : Heap),
     0 <= padding t < 2 ^ 63 ->
     ~ In delFrame (frames t) ->
     exists fs t', Tag.DeleteFrame t delFrame h = Some (fs, t', h) /\
       frames t' = frames t /\ size (header t') = size (header t) /\
       padding t' = padding t /\ dirty t' = true /\ t' = with_dirty true t).
Proof.
  assert (Hzero : forall t : Tag, 0 <= padding t < 2 ^ 63 ->
            Tag.changeSize (int (- 0)) t = with_dirty true t).
  { intros t Hp. change (int (- 0)) with 0.
    rewrite changeSize_spec by lia.
    replace (padding t - 0 <? 0) with false by (symmetry; apply Z.ltb_ge; lia).
    rewrite Z.sub_0_r. destruct t. reflexivity. }
  split.
  - intros t id h Hp Hno.
    assert (HF : forall rv, Tag.Frames_loop (frames t) id h rv = Some rv).
    { induction Hno as [|r fs (f & Hf & Hne) _ IH]; intros rv; simpl; [reflexivity|].
      rewrite Hf. simpl. destruct (String.eqb_spec (f_Id f) id); [contradiction|apply IH]. }
    assert (HL : forall fuel i, (length (frames t) <= fuel + i)%nat ->
              Tag.DeleteFrames_loop fuel id i 0 t h = Some (0, t, h)).
    { induction fuel as [|fuel IH]; intros i Hfuel; simpl.
      - rewrite (proj2 (lookup_ge_None _ _)) by lia. reflexivity.
      - destruct (frames t !! i) as [frame|] eqn:Hi; [|reflexivity].
        destruct (proj1 (Forall_lookup _ _) Hno i frame Hi) as (f & Hf & Hne).
        rewrite Hf. simpl. destruct (String.eqb_spec (f_Id f) id); [contradiction|].
        simpl. apply IH. lia. }
    exists [], (with_dirty true t). unfold Tag.DeleteFrames, Tag.Frames.
    rewrite HF. cbn -[Tag.changeSize int Tag.DeleteFrames_loop].
    rewrite HL by lia. cbn -[Tag.changeSize int]. rewrite Hzero by exact Hp.
    repeat split; reflexivity.
  - intros t delFrame h Hp Hnin.
    assert (HL : forall fuel i, (length (frames t) <= fuel + i)%nat ->
              Tag.DeleteFrame_loop fuel delFrame i 0 t h = Some (0, t, h)).
    { induction fuel as [|fuel IH]; intros i Hfuel; simpl.
      - rewrite (proj2 (lookup_ge_None _ _)) by lia. reflexivity.
      - destruct (frames t !! i) as [frame|] eqn:Hi; [|reflexivity].
        destruct (decide (frame = delFrame)) as [->|Hne].
        + exfalso. apply Hnin. apply list_elem_of_In. eapply list_elem_of_lookup_2, Hi.
        + apply IH. lia. }
    exists (frames t), (with_dirty true t). unfold Tag.DeleteFrame, Tag.AllFrames.
    rewrite HL by lia. cbn -[Tag.changeSize int]. rewrite Hzero by exact Hp.
    repeat split; reflexivity.
Qed.

Lemma delete_nothing_still_dirties_witness :
  (exists fs t', Tag.DeleteFrames ex_two "TYER" ex_heap_owned = Some (fs, t', ex_heap_owned) /\
     frames t' = [0%nat; 1%nat] /\ size (header t') = 26 /\ padding t' = 0 /\
     dirty t' = true) /\
  (exists fs t', Tag.DeleteFrame ex_padded_20 0%nat ex_heap = Some (fs, t', ex_heap) /\
     frames t' = [] /\ size (header t') = 20 /\ padding t' = 20 /\ dirty t' = true).
Proof.
  destruct delete_nothing_still_dirties as (HDs & HD). split.
  - destruct (HDs ex_two "TYER"%string ex_heap_owned)
      as (fs & t' & E & _ & Hf & Hs & Hp & Hd & _).
    + simpl. lia.
    + repeat constructor; eexists; (split; [reflexivity|discriminate]).
    + exists fs, t'. rewrite Hf, Hs, Hp, Hd. split; [exact E|]. repeat split.
  - destruct (HD ex_padded_20 0%nat ex_heap) as (fs & t' & E & Hf & Hs & Hp & Hd & _).
    + simpl. lia.
    + simpl. tauto.
    + exists fs, t'. rewrite Hf, Hs, Hp, Hd. split; [exact E|]. repeat split.
Defined.

(** C4, on the tag that holds the title and the album: [DeleteFrame] of
    the title removes it, keeps the album and clears the owner of the title,
    as the claim says, but returns the two frames that the tag held, not
    the one removed; [DeleteFrame] of a frame that the tag does not hold
    returns the frames of the tag, not an empty result. *)
Theorem DeleteFrame_returns_all_frames :
  (exists t' h', Tag.DeleteFrame ex_two 0%nat ex_heap_owned = Some ([0%nat; 1%nat], t', h') /\
     frames t' = [1%nat] /\
     owner_at ex_heap_owned 0%nat = Some (Some 0%nat) /\
     owner_at h' 0%nat = Some None /\
     owner_at h' 1%nat = Some (Some 0%nat)) /\
  (exists t' h', Tag.DeleteFrame ex_titled 1%nat ex_heap_owned = Some ([0%nat], t', h') /\
     frames t' = [0%nat]).
Proof.
  split.
  - eexists _, _. split; [reflexivity|]. repeat split.
  - eexists _, _. split; [reflexivity|]. reflexivity.
Qed.

End TagContainer.

(** ** Serialization of the tag *)

Section Serialization.
Import v2.

Lemma IntBytes_loop_length (k : nat) : forall n mask base acc,
  length (encodedbytes.IntBytes_loop k n mask base acc) = (k + length acc)%nat.
Proof.
  induction k as [|k IH]; intros n mask base acc; simpl; [reflexivity|].
  rewrite IH. simpl. lia.
Qed.

Lemma Header_Bytes_length (hd : Header) : length (Header.Bytes hd) = 10%nat.
Proof.
  unfold Header.Bytes, encodedbytes.SynchBytes, encodedbytes.IntBytes.
  rewrite !length_app, IntBytes_loop_length. reflexivity.
Qed.

Lemma copy_at_length (dst src out : list Z) (lo hi : Z) :
  copy_at dst lo hi src = Some out -> length out = length dst.
Proof.
  unfold copy_at. destruct (decide _) as [(H0 & H1 & H2)|]; [|discriminate].
  intros [= <-]. unfold len in H2.
  rewrite !length_app, !length_take, length_drop. lia.
Qed.

(** [copy(dst[lo:lo+n], src)] when [src] has [n] bytes and [dst] holds
    them: the bytes of [src] replace those of [dst] from [lo] on. *)
Lemma copy_at_exact (pre mid post src : list Z) :
  length src = length mid ->
  copy_at (pre ++ mid ++ post) (len pre) (len pre + len src) src
  = Some (pre ++ src ++ post).
Proof.
  intros Hlen. unfold copy_at, len.
  destruct (decide _) as [_|Hn].
  2:{ exfalso. apply Hn. rewrite !length_app. lia. }
  f_equal.
  replace (Z.to_nat (Z.of_nat (length pre) + Z.of_nat (length src) - Z.of_nat (length pre)))
    with (length src) by lia.
  rewrite Nat2Z.id, Nat.min_id.
  rewrite take_app_length, firstn_all.
  rewrite drop_app_add'  by reflexivity.
  rewrite Hlen, drop_app_length. reflexivity.
Qed.

Lemma Bytes_loop_length (t : Tag) (h : Heap) (fs : list FrameRef) :
  forall data index out,
  Tag.Bytes_loop fs t h data index = Some out -> length out = length data.
Proof.
  induction fs as [|r fs IH]; intros data index out; simpl.
  - intros [= <-]. reflexivity.
  - destruct (h !! r) as [f|]; [|discriminate]. simpl.
    destruct (copy_at _ _ _ _) as [data'|] eqn:Hc; [|discriminate]. simpl.
    intros Hl. rewrite (IH _ _ _ Hl). eapply copy_at_length, Hc.
Qed.

(** [Bytes] returns the 10 bytes of the header and [Size()] more. *)
Lemma Bytes_length (t : Tag) (h : Heap) (out : list Z) :
  Tag.Bytes t h = Some out -> length out = (10 + Z.to_nat (Tag.Size t))%nat.
Proof.
  unfold Tag.Bytes.
  destruct (Tag.Bytes_loop _ _ _ _ _) as [data|] eqn:Hl; [|discriminate].
  cbn [mbind option_bind]. intros Heq.
  assert (out = Header.Bytes (header t) ++ data) as -> by congruence.
  rewrite length_app, Header_Bytes_length.
  rewrite (Bytes_loop_length _ _ _ _ _ _ Hl), length_replicate. reflexivity.
Qed.

Lemma Bytes_loop_spec (t : Tag) (h : Heap) (fs : list FrameRef) :
  forall (pre : list Z) (n : nat),
  0 <= frameHeaderSize t <= 10 -> frames_serializable t h fs ->
  footprint_of (frameHeaderSize t) h fs <= Z.of_nat n ->
  len pre + Z.of_nat n < 2 ^ 63 ->
  Tag.Bytes_loop fs t h (pre ++ replicate n 0) (len pre)
  = Some (pre ++ concat (map (frame_bytes t h) fs)
              ++ replicate (n - Z.to_nat (footprint_of (frameHeaderSize t) h fs)) 0).
Proof.
  induction fs as [|r fs IH]; intros pre n Hfhs Hser Hfit Hbound.
  - simpl. rewrite Nat.sub_0_r. reflexivity.
  - inversion Hser as [|? ? (f & Hf & Hsz & Hlen) Hser']; subst.
    simpl in Hfit. unfold frame_footprint in Hfit at 1. rewrite Hf in Hfit.
    assert (Hnn : 0 <= footprint_of (frameHeaderSize t) h fs).
    { apply footprint_of_nonneg; [lia|]. eapply Forall_impl; [exact Hser'|].
      intros r' (f' & ? & ? & _). exists f'. split; assumption. }
    simpl Tag.Bytes_loop. rewrite Hf. simpl mbind. simpl option_bind.
    rewrite (int_small (f_Size f)) by lia.
    rewrite (int_small (frameHeaderSize t + f_Size f)) by lia.
    assert (Hpl : 0 <= len pre) by (unfold len; lia).
    rewrite int_small by lia.
    set (src := frameBytesConstructor t f) in *.
    assert (Hsrc : length src = Z.to_nat (frameHeaderSize t + f_Size f))
      by (unfold len in Hlen; lia).
    assert (Hn : n = (length src + (n - length src))%nat) by lia.
    rewrite Hn at 1. rewrite replicate_add.
    replace (len pre + (frameHeaderSize t + f_Size f)) with (len pre + len src)
      by (unfold len in *; lia).
    rewrite copy_at_exact by (rewrite length_replicate; reflexivity).
    simpl mbind. simpl option_bind.
    replace (len pre + len src) with (len (pre ++ src))
      by (unfold len; rewrite length_app; lia).
    rewrite app_assoc.
    rewrite IH; [|exact Hfhs|exact Hser'|lia|unfold len in *; rewrite length_app; lia].
    simpl. unfold frame_bytes at 2. rewrite Hf. fold src. unfold frame_footprint. rewrite Hf.
    rewrite <- !app_assoc.
    replace (n - length src - Z.to_nat (footprint_of (frameHeaderSize t) h fs))%nat
      with (n - Z.to_nat (frameHeaderSize t + f_Size f
                          + footprint_of (frameHeaderSize t) h fs))%nat by lia.
    reflexivity.
Qed.

(** The tags of the examples are tags that the operations build. *)
Lemma ex_tags_reached :
  Tag.AddFrames 0 ex_empty [0%nat] ex_heap
    = Some (ex_titled, setOwner 0%nat (Some 0%nat) ex_heap) /\
  Tag.DeleteFrame ex_titled 0%nat (setOwner 0%nat (Some 0%nat) ex_heap)
    = Some ([0%nat], ex_padded, ex_heap) /\
  Tag.AddFrames 0 ex_padded [1%nat] ex_heap
    = Some (ex_padded_album, setOwner 1%nat (Some 0%nat) ex_heap) /\
  Tag.AddFrames 0 ex_empty [0%nat; 1%nat] ex_heap = Some (ex_two, ex_heap_owned).
Proof. repeat split. Qed.

(** C5, as amended: in a tag that keeps the invariant and whose frames
    serialize to their footprints, [Bytes] emits the bytes of the header,
    then the serialization of each frame in the order of the frame list,
    then one zero byte for each byte of padding: the 10 bytes of the header
    and [Size()] more. *)
Theorem Bytes_header_frames_padding (t : Tag) (h : Heap) :
  tag_ok t h -> tag_invariant t h -> frames_serializable t h (frames t) ->
  Tag.Bytes t h
  = Some (Header.Bytes (header t)
          ++ concat (map (frame_bytes t h) (frames t))
          ++ replicate (Z.to_nat (padding t)) 0).
Proof.
  intros Hok Hinv Hser.
  destruct (tag_ok_padding_le_size t h Hok Hinv) as (Hfp & Hpad).
  destruct Hok as (Hs & Hp & Hfhs & Hfr).
  unfold tag_invariant in Hinv. unfold Tag.Bytes, Tag.Size, Header.Size.
  rewrite int_small by lia.
  pose proof (Bytes_loop_spec t h (frames t) [] (Z.to_nat (size (header t)))) as HL.
  simpl in HL. change (len []) with 0 in HL.
  rewrite HL; [|lia|exact Hser|fold (footprint t h); lia|lia].
  cbn [mbind option_bind app].
  replace (Z.to_nat (size (header t))
           - Z.to_nat (footprint_of (frameHeaderSize t) h (frames t)))%nat
    with (Z.to_nat (padding t)) by (fold (footprint t h); lia).
  reflexivity.
Qed.

Lemma Bytes_header_frames_padding_witness :
  Tag.Bytes ex_padded_album ex_heap
  = Some (Header.Bytes (header ex_padded_album) ++ V24Bytes ex_album ++ [0; 0; 0; 0]).
Proof.
  rewrite (Bytes_header_frames_padding ex_padded_album ex_heap).
  - reflexivity.
  - unfold tag_ok, frames_ok. simpl. unfold FrameHeaderSize.
    repeat split; try lia.
    repeat constructor; eexists; (split; [reflexivity|simpl; lia]).
  - reflexivity.
  - repeat constructor. eexists. split; [reflexivity|]. split; [simpl; lia|reflexivity].
Defined.

(** C5, as stated, fails on a tag with padding: after the header and the
    album frame, [Bytes] emits the 4 bytes of padding of [ex_padded_album]. *)
Lemma Bytes_emits_padding :
  Tag.Bytes ex_padded_album ex_heap
    = Some (Header.Bytes (header ex_padded_album) ++ V24Bytes ex_album ++ [0; 0; 0; 0]) /\
  Tag.Bytes ex_padded_album ex_heap
    <> Some (Header.Bytes (header ex_padded_album)
             ++ concat (map (frame_bytes ex_padded_album ex_heap) (frames ex_padded_album))).
Proof.
  split; [reflexivity|]. intros H. vm_compute in H. discriminate H.
Qed.

End Serialization.

(** ** The in-memory commit *)

Section Commit.
Import v2 id3.

(** [copy(dst[lo:hi], src)] when the slice has room for [src]: the bytes of
    [src] replace as many bytes of [dst] from [lo] on. *)
Lemma copy_at_room (pre mid post src : list Z) (hi : Z) :
  length src = length mid ->
  len pre + len src <= hi <= len (pre ++ mid ++ post) ->
  copy_at (pre ++ mid ++ post) (len pre) hi src = Some (pre ++ src ++ post).
Proof.
  intros Hlen Hhi. unfold copy_at.
  destruct (decide _) as [_|Hn].
  2:{ exfalso. apply Hn. unfold len in *. lia. }
  f_equal. unfold len in *.
  rewrite Nat.min_r by lia.
  rewrite Nat2Z.id, take_app_length, firstn_all.
  rewrite drop_app_add' by reflexivity.
  rewrite Hlen, drop_app_length. reflexivity.
Qed.

(** [shiftBytesBackInMem] opens a gap of [offset] zero bytes at [start]. *)
Lemma shiftBytesBackInMem_spec (blob : list Z) (start offset : Z) :
  0 <= start <= len blob -> 0 <= offset -> len blob + offset < 2 ^ 63 ->
  shiftBytesBackInMem blob start offset
  = Some (take (Z.to_nat start) blob ++ replicate (Z.to_nat offset) 0
          ++ drop (Z.to_nat start) blob).
Proof.
  intros Hstart Hoff Hfit. unfold shiftBytesBackInMem.
  assert (Hl : 0 <= len blob) by (unfold len; lia).
  rewrite (int_small (len blob + offset)) by lia.
  rewrite (int_small (start + offset)) by lia.
  destruct (decide (0 <= len blob + offset)) as [_|]; [|lia].
  destruct (decide (0 <= start /\ start <= len blob)) as [_|]; [|lia].
  set (s := Z.to_nat start). set (o := Z.to_nat offset).
  assert (Hs : (s <= length blob)%nat) by (unfold len in *; lia).
  replace (Z.to_nat (len blob + offset)) with (s + (o + (length blob - s)))%nat
    by (unfold len in *; lia).
  rewrite !replicate_add.
  pose proof (copy_at_room [] (replicate s 0)
                (replicate o 0 ++ replicate (length blob - s) 0) (take s blob)
                (len (replicate s 0 ++ replicate o 0 ++ replicate (length blob - s) 0)))
    as H1.
  simpl app in H1. change (len []) with 0 in H1.
  rewrite H1.
  2:{ rewrite length_take, length_replicate. lia. }
  2:{ unfold len. rewrite !length_app, !length_replicate, length_take. lia. }
  cbn [mbind option_bind].
  pose proof (copy_at_room (take s blob ++ replicate o 0)
                (replicate (length blob - s) 0) [] (drop s blob)
                (len (take s blob ++ replicate o 0 ++ replicate (length blob - s) 0)))
    as H2.
  rewrite <- !app_assoc, !app_nil_r in H2.
  replace (start + offset) with (len (take s blob ++ replicate o 0)).
  2:{ unfold len. rewrite length_app, length_take, length_replicate. lia. }
  rewrite H2.
  - reflexivity.
  - rewrite length_drop, length_replicate. reflexivity.
  - unfold len. rewrite !length_app, !length_replicate, length_take, length_drop. lia.
Qed.

Lemma index_app_r {A} (l1 l2 : list A) (i : Z) :
  0 <= i -> index (l1 ++ l2) (len l1 + i) = index l2 i.
Proof.
  intros Hi. unfold index, len.
  destruct (decide (0 <= Z.of_nat (length l1) + i)) as [_|]; [|lia].
  destruct (decide (0 <= i)) as [_|]; [|lia].
  replace (Z.to_nat (Z.of_nat (length l1) + i)) with (length l1 + Z.to_nat i)%nat by lia.
  rewrite lookup_app_r by lia. f_equal. lia.
Qed.

Lemma index_drop {A} (l : list A) (n : nat) (i : Z) :
  Z.of_nat n <= i -> index (drop n l) (i - Z.of_nat n) = index l i.
Proof.
  intros Hi. unfold index.
  destruct (decide (0 <= i - Z.of_nat n)) as [_|]; [|lia].
  destruct (decide (0 <= i)) as [_|]; [|lia].
  rewrite lookup_drop. f_equal. lia.
Qed.

(** C6: the commit of a dirty v2 tag that has outgrown its original size,
    in a buffer that holds the original header and tag. [shiftBytesBackInMem]
    returns a buffer longer by [Size() - originalSize] in which every byte
    from the offset [originalSize + 10] on is that many positions further;
    [UpdateEditsIntoBytes] then writes the bytes of the tag at the offset 0,
    before the shifted bytes, which stay as they are. *)
Theorem UpdateEditsIntoBytes_shifts_payload (b : Mp3Bytes) (t : Tag) (h : Heap)
    (insert : list Z) :
  tagger b = V2Tag t -> Tag.Dirty t = true ->
  0 <= originalSize b -> originalSize b < Tag.Size t ->
  originalSize b + HeaderSize <= len (blob b) ->
  len (blob b) + Tag.Size t < 2 ^ 63 ->
  Tag.Bytes t h = Some insert ->
  let delta := Tag.Size t - originalSize b in
  let start := originalSize b + HeaderSize in
  exists shifted out,
    shiftBytesBackInMem (blob b) start delta = Some shifted /\
    len shifted = len (blob b) + delta /\
    (forall i, start <= i < len (blob b) ->
       index shifted (i + delta) = index (blob b) i) /\
    UpdateEditsIntoBytes b h
      = Some (mkMp3Bytes (tagger b) (originalSize b) out, inl out) /\
    out = insert ++ drop (Z.to_nat start) (blob b) /\
    len out = len (blob b) + delta /\
    (forall i, start <= i < len (blob b) ->
       index out (i + delta) = index (blob b) i).
Proof.
  intros Htag Hdirty Ho Hgrow Hin Hfit Hins delta start.
  unfold HeaderSize in *.
  assert (Hlen : len insert = start + delta).
  { unfold len. rewrite (Bytes_length t h insert Hins). unfold start, delta. lia. }
  assert (Hshift : shiftBytesBackInMem (blob b) start delta
                   = Some (take (Z.to_nat start) (blob b) ++ replicate (Z.to_nat delta) 0
                           ++ drop (Z.to_nat start) (blob b))).
  { apply shiftBytesBackInMem_spec; unfold start, delta; lia. }
  assert (Hmove : forall pre : list Z, len pre = start + delta ->
            forall i, start <= i < len (blob b) ->
            index (pre ++ drop (Z.to_nat start) (blob b)) (i + delta) = index (blob b) i).
  { intros pre Hpre i Hi.
    replace (i + delta) with (len pre + (i - start)) by lia.
    rewrite index_app_r by lia.
    replace (i - start) with (i - Z.of_nat (Z.to_nat start)) by (unfold start; lia).
    apply index_drop. unfold start. lia. }
  eexists _, (insert ++ drop (Z.to_nat start) (blob b)).
  split; [exact Hshift|].
  split.
  { unfold len in *. rewrite !length_app, length_take, length_replicate, length_drop.
    unfold start, delta in *. lia. }
  split.
  { intros i Hi. rewrite app_assoc. apply Hmove; [|exact Hi].
    unfold len in *. rewrite length_app, length_take, length_replicate.
    unfold start, delta in *. lia. }
  split.
  { unfold UpdateEditsIntoBytes, Dirty, Bytes. rewrite Htag.
    unfold Tag.Dirty in Hdirty. unfold Tag.Dirty. rewrite Hdirty. cbn [negb].
    replace (Tag.Size t >? originalSize b) with true by (symmetry; apply Z.gtb_lt; lia).
    unfold HeaderSize.
    rewrite (int_small (originalSize b + 10)) by (unfold len in *; lia).
    rewrite (int_small (Tag.Size t - originalSize b)) by (unfold len in *; lia).
    fold start. fold delta. rewrite Hshift. cbn [mbind option_bind blob tagger originalSize].
    rewrite ?Htag, Hins. cbn [mbind option_bind].
    rewrite (int_small (start + delta)) by (unfold start, delta, len in *; lia).
    pose proof (copy_at_room []
                  (take (Z.to_nat start) (blob b) ++ replicate (Z.to_nat delta) 0)
                  (drop (Z.to_nat start) (blob b)) insert (start + delta)) as Hc.
    simpl app in Hc. change (len []) with 0 in Hc. rewrite <- app_assoc in Hc.
    rewrite Hc; [reflexivity| |].
    - unfold len in *. rewrite length_app, length_take, length_replicate.
      unfold start, delta in *. lia.
    - unfold len in *. rewrite !length_app, length_take, length_replicate, length_drop.
      unfold start, delta in *. lia. }
  split; [reflexivity|].
  split.
  { unfold len in *. rewrite length_app, length_drop. unfold start, delta in *. lia. }
  intros i Hi. apply Hmove; assumption.
Qed.

Lemma UpdateEditsIntoBytes_shifts_payload_witness :
  exists out,
    UpdateEditsIntoBytes ex_mp3 (setOwner 0%nat (Some 0%nat) ex_heap)
      = Some (mkMp3Bytes (V2Tag ex_titled) 0 out, inl out) /\
    len out = 28 /\
    index out 25 = Some 255 /\ index out 26 = Some 251 /\ index out 27 = Some 144.
Proof.
  destruct (UpdateEditsIntoBytes_shifts_payload ex_mp3 ex_titled
              (setOwner 0%nat (Some 0%nat) ex_heap)
              (Header.Bytes (header ex_titled) ++ V24Bytes ex_title))
    as (shifted & out & _ & _ & _ & HU & _ & Hl & Hi).
  - reflexivity.
  - reflexivity.
  - simpl. lia.
  - vm_compute. reflexivity.
  - vm_compute. discriminate.
  - vm_compute. reflexivity.
  - reflexivity.
  - exists out. split; [exact HU|]. split; [exact Hl|].
    split; [|split].
    + apply (Hi 10). vm_compute. split; [discriminate|reflexivity].
    + apply (Hi 11). vm_compute. split; [discriminate|reflexivity].
    + apply (Hi 12). vm_compute. split; [discriminate|reflexivity].
Defined.

End Commit.

(** ** Parsing the frames of a tag *)

Section Parsing.
Import v2.
Context `{FC : FrameCodecs}.

(** An all-zero identifier and size end the frames: [ParseV24Frame] returns
    nil after the 10 bytes of the frame header. *)
Lemma ParseV24Frame_end_of_frames (rd rd' : Reader) :
  end_of_frames_next rd rd' -> ParseV24Frame rd = (None, rd').
Proof.
  intros (data & HR & Hlen & Hzero). unfold ParseV24Frame. rewrite HR.
  rewrite Hlen, Z.ltb_irrefl.
  unfold len, FrameHeaderSize in Hlen.
  do 10 (destruct data as [|? data]; [simpl in Hlen; lia|]).
  destruct data; [|simpl in Hlen; lia].
  simpl in Hzero. injection Hzero as -> -> -> -> -> -> -> ->.
  simpl. destruct (V24FrameTypeMap EmptyString); reflexivity.
Qed.

(** A payload shorter than the frame header declares makes [ParseV24Frame]
    return nil, whatever the frame. *)
Lemma ParseV24Frame_truncated (rd rd' : Reader) :
  truncated_frame_next rd rd' -> ParseV24Frame rd = (None, rd').
Proof.
  intros (data & rd1 & n & got & HR & Hlen & Hn & Hb & HG & Hshort).
  unfold ParseV24Frame. rewrite HR, Hlen, Z.ltb_irrefl, Hn.
  assert (Hpos : 0 < n) by (unfold len in Hshort; lia).
  replace (n =? 0) with false by (symmetry; apply Z.eqb_neq; lia).
  rewrite andb_false_r, HG.
  rewrite (int_small n) by lia.
  replace (len got <? n) with true by (symmetry; apply Z.ltb_lt; exact Hshort).
  reflexivity.
Qed.

(** The loop of [ParseTag] follows a scan, and stops where the frame
    constructor returns nil: the frames parsed so far stay in the tag and
    the remaining size is what the scan has not accounted for. *)
Lemma ParseTag_loop_scanned (self : TagRef) (s0 s : Tag * Heap * Reader * Z) :
  scanned self s0 s ->
  forall t0 h0 rd0 size0 t h rd size rd',
  s0 = (t0, h0, rd0, size0) -> s = (t, h, rd, size) ->
  0 < frameHeaderSize t0 <= 10 -> size0 < 2 ^ 63 -> 0 < size ->
  frameConstructor t rd = (None, rd') ->
  size <= size0 /\
  forall fuel, (Z.to_nat size0 <= fuel)%nat ->
    ParseTag_loop fuel self t0 h0 rd0 size0 = Some (t, h, rd', size).
Proof.
  induction 1 as [s|t1 h1 rd1 rd2 size1 f s' Hpos Hfc Hsz Hscan IH];
    intros t0 h0 rd0 size0 t h rd size rd' E0 E Hfhs Hlt Hsize Hnil.
  - subst s. injection E as -> -> -> ->. split; [lia|].
    intros fuel Hfuel. destruct fuel as [|fuel]; [lia|].
    simpl. replace (size >? 0) with true by (symmetry; apply Z.gtb_lt; lia).
    rewrite Hnil. reflexivity.
  - injection E0 as -> -> -> ->. subst s'.
    assert (Hnext : int (size0 - int (frameHeaderSize t0 + int (f_Size f)))
                    = size0 - (frameHeaderSize t0 + f_Size f)).
    { rewrite (int_small (f_Size f)) by lia.
      rewrite (int_small (frameHeaderSize t0 + f_Size f)) by lia.
      apply int_small. lia. }
    destruct (IH _ _ _ _ t h rd size rd' eq_refl eq_refl) as (Hle & Hloop);
      [exact Hfhs | rewrite Hnext; lia | exact Hsize | exact Hnil |].
    rewrite Hnext in Hle. split; [lia|].
    intros fuel Hfuel. destruct fuel as [|fuel]; [lia|].
    simpl. replace (size0 >? 0) with true by (symmetry; apply Z.gtb_lt; lia).
    rewrite Hfc. apply Hloop. rewrite Hnext. lia.
Qed.

(** C7: once [ParseTag] has scanned some frames of a v2.4 tag and part of
    the declared size is left, an all-zero frame header, or a frame whose
    payload the input does not hold in full, ends the scan: [ParseTag]
    returns the tag with the frames scanned so far and no other, and the
    size that was left as its padding. *)
Theorem ParseTag_stops_at_padding_or_truncation (self : TagRef) (h0 h : Heap)
    (rs rs1 rd rd' : Reader) (hd : Header) (t : Tag) (size : Z) :
  ParseHeader rs = (Some hd, rs1) -> version hd = 4 -> 0 <= v2.size hd < 2 ^ 32 ->
  scanned self (with_header hd (NewTag 4), h0, rs1, v2.size hd) (t, h, rd, size) ->
  0 < size ->
  end_of_frames_next rd rd' \/ truncated_frame_next rd rd' ->
  ParseV24Frame rd = (None, rd') /\
  exists t' rd'',
    ParseTag self h0 rs = Some (Some t', h, rd'') /\
    t' = with_padding size t /\ frames t' = frames t /\ padding t' = size.
Proof.
  intros HH Hv Hs Hscan Hsize Hstop.
  assert (Hnil : ParseV24Frame rd = (None, rd')).
  { destruct Hstop as [Hz|Ht];
      [apply ParseV24Frame_end_of_frames|apply ParseV24Frame_truncated]; assumption. }
  split; [exact Hnil|].
  assert (Hfc : frameConstructor t = ParseV24Frame).
  { clear - Hscan.
    assert (G : forall s0 s, scanned self s0 s ->
              frameConstructor (fst (fst (fst s))) = frameConstructor (fst (fst (fst s0)))).
    { induction 1 as [|? ? ? ? ? ? ? ? ? ? ? IH]; [reflexivity|]. rewrite IH. reflexivity. }
    apply (G _ _ Hscan). }
  destruct (ParseTag_loop_scanned self _ _ Hscan _ _ _ _ t h rd size rd' eq_refl eq_refl)
    as (Hle & Hloop).
  - simpl. unfold FrameHeaderSize. lia.
  - lia.
  - exact Hsize.
  - rewrite Hfc. exact Hnil.
  - unfold ParseTag. rewrite HH, Hv.
    change (v2.size (header (with_header hd (NewTag 4)))) with (v2.size hd).
    rewrite (int_small (v2.size hd)) by lia.
    rewrite (Hloop (Z.to_nat (v2.size hd))) by lia.
    cbn [mbind option_bind].
    rewrite uint_small by lia.
    assert (Hhd : header (with_padding size t) = hd).
    { clear - Hscan.
      assert (G : forall s0 s, scanned self s0 s ->
                header (fst (fst (fst s))) = header (fst (fst (fst s0)))).
      { induction 1 as [|? ? ? ? ? ? ? ? ? ? ? IH]; [reflexivity|]. rewrite IH. reflexivity. }
      apply (G _ _ Hscan). }
    unfold Tag.Size, Header.Size. rewrite Hhd.
    rewrite (int_small (v2.size hd)) by lia.
    unfold HeaderSize. rewrite int_small by lia.
    unfold Seek. replace (10 + v2.size hd <? 0) with false by (symmetry; apply Z.ltb_ge; lia).
    eexists _, _. split; [reflexivity|]. repeat split.
Qed.

End Parsing.

Section ParsingExamples.
Import v2.

Lemma ParseTag_stops_at_padding_or_truncation_witness :
  (exists t' h rd'',
     @ParseTag ex_codecs 0%nat [] (mkReader ex_file_padded 0) = Some (Some t', h, rd'') /\
     frames t' = [0%nat] /\ padding t' = 15 /\ h !! 0%nat = Some (set_owner (Some 0%nat) ex_title)) /\
  (exists t' h rd'',
     @ParseTag ex_codecs 0%nat [] (mkReader ex_file_truncated 0) = Some (Some t', h, rd'') /\
     frames t' = [0%nat] /\ padding t' = 15 /\ length h = 1%nat).
Proof.
  split.
  - destruct (@ParseTag_stops_at_padding_or_truncation ex_codecs 0%nat []
                [set_owner (Some 0%nat) ex_title]
                (mkReader ex_file_padded 0) (mkReader ex_file_padded 10)
                (mkReader ex_file_padded 25) (mkReader ex_file_padded 35)
                (mkHeader 4 0 0 false false false false 30)
                (with_frames [0%nat]
                   (with_header (mkHeader 4 0 0 false false false false 30)
                      (@NewTag ex_codecs 4)))
                15)
      as (_ & t' & rd'' & HP & -> & Hf & Hp).
    + reflexivity.
    + reflexivity.
    + simpl. lia.
    + eapply (scanned_step 0%nat _ _ _ (mkReader ex_file_padded 25) _ ex_title).
      * simpl. lia.
      * reflexivity.
      * simpl. lia.
      * apply scanned_refl.
    + lia.
    + left. exists (replicate 10 0). repeat split.
    + eexists _, _, rd''. split; [exact HP|]. repeat split.
  - destruct (@ParseTag_stops_at_padding_or_truncation ex_codecs 0%nat []
                [set_owner (Some 0%nat) ex_title]
                (mkReader ex_file_truncated 0) (mkReader ex_file_truncated 10)
                (mkReader ex_file_truncated 25) (mkReader ex_file_truncated 37)
                (mkHeader 4 0 0 false false false false 30)
                (with_frames [0%nat]
                   (with_header (mkHeader 4 0 0 false false false false 30)
                      (@NewTag ex_codecs 4)))
                15)
      as (_ & t' & rd'' & HP & -> & Hf & Hp).
    + reflexivity.
    + reflexivity.
    + simpl. lia.
    + eapply (scanned_step 0%nat _ _ _ (mkReader ex_file_truncated 25) _ ex_title).
      * simpl. lia.
      * reflexivity.
      * simpl. lia.
      * apply scanned_refl.
    + lia.
    + right. exists [84; 65; 76; 66; 0; 0; 0; 9; 0; 0], (mkReader ex_file_truncated 35), 9, [3; 72].
      repeat split; simpl; lia.
    + eexists _, _, rd''. split; [exact HP|]. repeat split.
Defined.

End ParsingExamples.

(** ** More on the integer codec *)

Section IntegerCodecMore.
Import encodedbytes.

Lemma digits_value_lt (k : Z) (ds : list Z) : forall i,
  0 <= k -> Forall (fun d => 0 <= d < 2 ^ k) ds -> 0 <= i ->
  digits_value k ds i < (i + 1) * 2 ^ (k * len ds).
Proof.
  induction ds as [|d ds IH]; intros i Hk HF Hi.
  - simpl. unfold len. simpl. rewrite Z.mul_0_r. simpl. lia.
  - inversion HF as [|? ? Hd HF']; subst. simpl.
    assert (0 < 2 ^ k) by (apply Z.pow_pos_nonneg; lia).
    assert (0 < 2 ^ (k * len ds)) by (apply Z.pow_pos_nonneg; unfold len; nia).
    specialize (IH (i * 2 ^ k + d) Hk HF' ltac:(nia)).
    replace (k * len (d :: ds)) with (k + k * len ds) by (unfold len; simpl length; lia).
    rewrite Z.pow_add_r by (unfold len; nia). nia.
Qed.

Lemma digits_value_inj (k : Z) (xs : list Z) : forall ys i j,
  0 <= k -> length xs = length ys ->
  Forall (fun d => 0 <= d < 2 ^ k) xs -> Forall (fun d => 0 <= d < 2 ^ k) ys ->
  digits_value k xs i = digits_value k ys j -> i = j /\ xs = ys.
Proof.
  induction xs as [|x xs IH]; intros [|y ys] i j Hk Hlen Hx Hy Heq;
    try discriminate Hlen.
  - simpl in Heq. auto.
  - inversion Hx as [|? ? Hx0 Hx']; inversion Hy as [|? ? Hy0 Hy']; subst.
    simpl in Heq, Hlen.
    destruct (IH ys _ _ Hk ltac:(lia) Hx' Hy' Heq) as (Hij & ->).
    assert (0 < 2 ^ k) by (apply Z.pow_pos_nonneg; lia).
    assert (i = j) by nia. subst j.
    split; [reflexivity|]. f_equal. lia.
Qed.

(** The guard of [ByteInt] under the 7-bit convention is [b >= 128]. *)
Lemma SynchInt_loop_error (buf : list Z) : forall i,
  snd (ByteInt_loop buf SynchByteLength i) = None <-> Forall (fun b => b < 128) buf.
Proof.
  induction buf as [|b buf IH]; intros i; simpl.
  - split; [constructor|reflexivity].
  - change (uint8 (Z.shiftl 1 SynchByteLength)) with 128.
    change (SynchByteLength <? NormByteLength) with true. cbn [andb].
    destruct (Z.leb_spec 128 b) as [Hge|Hlt]; simpl.
    + split; [discriminate|]. intros HF. inversion HF; subst. lia.
    + rewrite IH. split; [intros HF; constructor; assumption|].
      intros HF. inversion HF; assumption.
Qed.

Lemma NormInt_loop_error (buf : list Z) : forall i,
  snd (ByteInt_loop buf NormByteLength i) = None.
Proof.
  induction buf as [|b buf IH]; intros i; simpl; [reflexivity|].
  change (NormByteLength <? NormByteLength) with false. cbn [andb]. apply IH.
Qed.

(** X1: [SynchInt] fails exactly on more than 4 bytes or on a byte with its top
    bit set; [NormInt] fails exactly on more than 4 bytes. *)
Theorem ByteInt_error_iff :
  (forall buf, snd (SynchInt buf) = None <->
               (length buf <= 4)%nat /\ Forall (fun b => b < 128) buf) /\
  (forall buf, snd (NormInt buf) = None <-> (length buf <= 4)%nat).
Proof.
  split; intros buf; unfold SynchInt, NormInt, ByteInt, BytesPerInt, len.
  - destruct (Z.ltb_spec 4 (Z.of_nat (length buf))) as [Hlong|Hshort]; simpl.
    + split; [discriminate|]. intros (Hl & _). lia.
    + rewrite SynchInt_loop_error. split; [intros HF; split; [lia|exact HF]|tauto].
  - destruct (Z.ltb_spec 4 (Z.of_nat (length buf))) as [Hlong|Hshort]; simpl.
    + split; [discriminate|]. lia.
    + rewrite NormInt_loop_error. split; [lia|reflexivity].
Qed.

(** X2: On at most 4 bytes within the convention, [ByteInt] returns the
    big-endian value of the bytes in base [2^base], which has as many
    digits as there are bytes: below [2^28] and [2^32] for 4 bytes. *)
Theorem ByteInt_big_endian (buf : list Z) :
  (length buf <= 4)%nat ->
  (Forall (fun b => 0 <= b < 2 ^ 7) buf ->
     SynchInt buf = (digits_value 7 buf 0, None) /\
     0 <= digits_value 7 buf 0 < 2 ^ (7 * len buf)) /\
  (Forall (fun b => 0 <= b < 2 ^ 8) buf ->
     NormInt buf = (digits_value 8 buf 0, None) /\
     0 <= digits_value 8 buf 0 < 2 ^ (8 * len buf)).
Proof.
  intros Hlen.
  assert (G : forall k, 0 < k <= 8 -> Forall (fun b => 0 <= b < 2 ^ k) buf ->
            ByteInt buf k = (digits_value k buf 0, None) /\
            0 <= digits_value k buf 0 < 2 ^ (k * len buf)).
  { intros k Hk HF.
    pose proof (digits_value_lt k buf 0 ltac:(lia) HF ltac:(lia)) as Hlt.
    pose proof (digits_value_ge k buf 0 ltac:(lia) HF ltac:(lia)) as Hge.
    rewrite Z.add_0_l, Z.mul_1_l in Hlt.
    assert (2 ^ (k * len buf) <= 2 ^ 32).
    { apply Z.pow_le_mono_r; [lia|]. unfold len. nia. }
    split; [|lia].
    unfold ByteInt, BytesPerInt.
    replace (4 <? len buf) with false by (symmetry; apply Z.ltb_ge; unfold len; lia).
    apply ByteInt_loop_digits; [assumption|assumption|lia|lia]. }
  split; intros HF; [apply (G 7)|apply (G 8)]; (lia || assumption).
Qed.

Lemma ByteInt_big_endian_witness :
  SynchInt [68; 122; 112; 4] = (144619524, None) /\
  NormInt [11; 149; 174; 180] = (194358964, None).
Proof.
  split.
  - destruct (ByteInt_big_endian [68; 122; 112; 4]) as (H & _); [simpl; lia|].
    destruct H as (E & _); [repeat constructor; lia|]. rewrite E. reflexivity.
  - destruct (ByteInt_big_endian [11; 149; 174; 180]) as (_ & H); [simpl; lia|].
    destruct H as (E & _); [repeat constructor; lia|]. rewrite E. reflexivity.
Defined.

(** X3: [IntBytes] returns 4 bytes, each a digit of the base: no byte of
    [SynchBytes] has its top bit set. *)
Theorem IntBytes_digits (n : Z) :
  0 <= n ->
  (length (SynchBytes n) = 4%nat /\ Forall (fun b => 0 <= b < 128) (SynchBytes n)) /\
  (length (NormBytes n) = 4%nat /\ Forall (fun b => 0 <= b < 256) (NormBytes n)).
Proof.
  intros Hn.
  assert (G : forall k, 0 < k <= 8 ->
            length (IntBytes n k) = 4%nat /\ Forall (fun b => 0 <= b < 2 ^ k) (IntBytes n k)).
  { intros k Hk. unfold IntBytes.
    assert (Hmask : uint32 (uint32 (Z.shiftl 1 k) - 1) = 2 ^ k - 1).
    { rewrite Z.shiftl_1_l.
      assert (2 ^ k <= 2 ^ 8) by (apply Z.pow_le_mono_r; lia).
      assert (0 < 2 ^ k) by (apply Z.pow_pos_nonneg; lia).
      change (2 ^ 8) with 256 in *.
      rewrite (uint32_small (2 ^ k)) by (change (2 ^ 32) with 4294967296; lia).
      apply uint32_small. change (2 ^ 32) with 4294967296; lia. }
    rewrite Hmask.
    destruct (IntBytes_loop_digits k (Z.to_nat BytesPerInt) n [] Hk Hn)
      as (ds & E & L & F & _).
    rewrite E, app_nil_r. split; [exact L|exact F]. }
  split; [apply (G 7)|apply (G 8)]; lia.
Qed.

Lemma IntBytes_digits_witness :
  length (SynchBytes 4294967295) = 4%nat /\
  Forall (fun b => 0 <= b < 128) (SynchBytes 4294967295).
Proof. exact (proj1 (IntBytes_digits 4294967295 ltac:(lia))). Defined.

(** X4: Encoding keeps the low 28 (resp. 32) bits: decoding what [SynchBytes]
    made of [n] gives [n mod 2^28], so a size of 2^28 or more does not
    survive the 7-bit convention. *)
Theorem ByteInt_IntBytes_mod (n : Z) :
  0 <= n ->
  SynchInt (SynchBytes n) = (n mod 2 ^ 28, None) /\
  NormInt (NormBytes n) = (n mod 2 ^ 32, None).
Proof.
  intros Hn.
  assert (G : forall k, 0 < k <= 8 -> ByteInt (IntBytes n k) k = (n mod 2 ^ (4 * k), None)).
  { intros k Hk. unfold IntBytes.
    assert (Hmask : uint32 (uint32 (Z.shiftl 1 k) - 1) = 2 ^ k - 1).
    { rewrite Z.shiftl_1_l.
      assert (2 ^ k <= 2 ^ 8) by (apply Z.pow_le_mono_r; lia).
      assert (0 < 2 ^ k) by (apply Z.pow_pos_nonneg; lia).
      change (2 ^ 8) with 256 in *.
      rewrite (uint32_small (2 ^ k)) by (change (2 ^ 32) with 4294967296; lia).
      apply uint32_small. change (2 ^ 32) with 4294967296; lia. }
    rewrite Hmask.
    destruct (IntBytes_loop_digits k (Z.to_nat BytesPerInt) n [] Hk Hn)
      as (ds & E & L & F & V).
    rewrite E, app_nil_r. unfold ByteInt, len. rewrite L.
    change (BytesPerInt <? Z.of_nat (Z.to_nat BytesPerInt)) with false. cbv iota.
    assert (Hv : digits_value k ds 0 = n mod 2 ^ (4 * k)).
    { rewrite V. change (Z.of_nat (Z.to_nat BytesPerInt)) with 4.
      rewrite (Z.mul_comm k 4). lia. }
    assert (2 ^ (4 * k) <= 2 ^ 32) by (apply Z.pow_le_mono_r; lia).
    pose proof (Z.mod_pos_bound n (2 ^ (4 * k)) ltac:(apply Z.pow_pos_nonneg; lia)).
    rewrite ByteInt_loop_digits; [rewrite Hv; reflexivity|assumption|assumption|lia|lia]. }
  split; [apply (G 7)|apply (G 8)]; lia.
Qed.

Lemma ByteInt_IntBytes_mod_witness :
  SynchInt (SynchBytes (2 ^ 28 + 5)) = (5, None).
Proof.
  rewrite (proj1 (ByteInt_IntBytes_mod (2 ^ 28 + 5) ltac:(lia))). reflexivity.
Defined.

Lemma IntBytes_of_digits (k : Z) (buf : list Z) :
  0 < k <= 8 -> length buf = 4%nat -> Forall (fun b => 0 <= b < 2 ^ k) buf ->
  ByteInt buf k = (digits_value k buf 0, None) /\
  IntBytes (digits_value k buf 0) k = buf.
Proof.
  intros Hk Hlen HF.
  pose proof (digits_value_lt k buf 0 ltac:(lia) HF ltac:(lia)) as Hlt.
  pose proof (digits_value_ge k buf 0 ltac:(lia) HF ltac:(lia)) as Hge.
  rewrite Z.add_0_l, Z.mul_1_l in Hlt.
  unfold len in Hlt. rewrite Hlen in Hlt. change (Z.of_nat 4) with 4 in Hlt.
  assert (2 ^ (k * 4) <= 2 ^ 32) by (apply Z.pow_le_mono_r; lia).
  split.
  - unfold ByteInt, BytesPerInt, len. rewrite Hlen.
    change (4 <? Z.of_nat 4) with false. cbv iota.
    apply ByteInt_loop_digits; [assumption|assumption|lia|lia].
  - unfold IntBytes.
    assert (Hmask : uint32 (uint32 (Z.shiftl 1 k) - 1) = 2 ^ k - 1).
    { rewrite Z.shiftl_1_l.
      assert (2 ^ k <= 2 ^ 8) by (apply Z.pow_le_mono_r; lia).
      assert (0 < 2 ^ k) by (apply Z.pow_pos_nonneg; lia).
      change (2 ^ 8) with 256 in *.
      rewrite (uint32_small (2 ^ k)) by (change (2 ^ 32) with 4294967296; lia).
      apply uint32_small. change (2 ^ 32) with 4294967296; lia. }
    rewrite Hmask.
    destruct (IntBytes_loop_digits k (Z.to_nat BytesPerInt) (digits_value k buf 0) []
                Hk Hge) as (ds & E & L & F & V).
    rewrite E, app_nil_r.
    apply (digits_value_inj k ds buf 0 0); [lia|rewrite L, Hlen; reflexivity|exact F|exact HF|].
    rewrite V. change (Z.of_nat (Z.to_nat BytesPerInt)) with 4.
    rewrite Z.mod_small by lia. lia.
Qed.

(** X5: The other round trip: 4 bytes within the convention are the encoding
    of the integer they decode to. *)
Theorem IntBytes_ByteInt (buf : list Z) :
  length buf = 4%nat ->
  (Forall (fun b => 0 <= b < 2 ^ 7) buf ->
     exists n, SynchInt buf = (n, None) /\ SynchBytes n = buf) /\
  (Forall (fun b => 0 <= b < 2 ^ 8) buf ->
     exists n, NormInt buf = (n, None) /\ NormBytes n = buf).
Proof.
  intros Hlen. split; intros HF.
  - exists (digits_value 7 buf 0). apply (IntBytes_of_digits 7 buf); (lia || assumption).
  - exists (digits_value 8 buf 0). apply (IntBytes_of_digits 8 buf); (lia || assumption).
Qed.

Lemma IntBytes_ByteInt_witness :
  exists n, SynchInt [68; 122; 112; 4] = (n, None) /\ SynchBytes n = [68; 122; 112; 4].
Proof.
  apply (proj1 (IntBytes_ByteInt [68; 122; 112; 4] eq_refl)).
  repeat constructor; lia.
Defined.

End IntegerCodecMore.

(** ** More on the encoding table *)

Section EncodingTableMore.
Import encodedbytes.

(** X6: The index of a name of the table is the position of the name, and the
    name of the index of any string is defined: it is the string when the
    table holds it and ISO-8859-1 otherwise, so [IndexForEncoding] never
    returns the index on which [EncodingForIndex] panics. *)
Theorem Encoding_index_round_trip :
  (forall b e, index EncodingMap b = Some e ->
     EncodingForIndex b = Some (Name e) /\ IndexForEncoding (Name e) = b) /\
  (forall s, EncodingForIndex (IndexForEncoding s)
             = Some (if existsb (fun e => String.eqb (Name e) s) EncodingMap
                     then s else "ISO-8859-1"%string)).
Proof.
  split.
  - intros b e He. split; [apply (EncodingForIndex_in_range b e He)|].
    assert (Hb : 0 <= b < 4).
    { unfold index in He. destruct (decide (0 <= b)); [|discriminate].
      apply lookup_lt_Some in He. simpl in He. lia. }
    assert (Hc : b = 0 \/ b = 1 \/ b = 2 \/ b = 3) by lia.
    destruct Hc as [-> | [-> | [-> | ->]]]; injection He as <-; reflexivity.
  - intros s. unfold IndexForEncoding, EncodingMap.
    cbn [IndexForEncoding_loop existsb Name orb].
    destruct (String.eqb_spec "ISO-8859-1" s) as [<-|_]; [reflexivity|].
    destruct (String.eqb_spec "UTF-16" s) as [<-|_]; [reflexivity|].
    destruct (String.eqb_spec "UTF-16BE" s) as [<-|_]; [reflexivity|].
    destruct (String.eqb_spec "UTF-8" s) as [<-|_]; reflexivity.
Qed.

Lemma Encoding_index_round_trip_witness :
  EncodingForIndex 2 = Some "UTF-16BE"%string /\ IndexForEncoding "UTF-16BE" = 2.
Proof.
  exact (proj1 Encoding_index_round_trip 2 {| Name := "UTF-16BE"; NullLength := 2 |} eq_refl).
Defined.

Lemma NullLength_1_or_2 (encoding nl : Z) :
  EncodingNullLengthForIndex encoding = Some nl -> nl = 1 \/ nl = 2.
Proof.
  unfold EncodingNullLengthForIndex, index.
  destruct (decide _); [|discriminate].
  destruct (EncodingMap !! _) as [e|] eqn:He; [|discriminate].
  intros [= <-]. apply list_elem_of_lookup_2 in He. unfold EncodingMap in He.
  repeat (apply elem_of_cons in He; destruct He as [->|He]; [simpl; auto|]).
  apply elem_of_nil in He. contradiction.
Qed.

Lemma slice_in_range {A} (s : list A) (lo hi : Z) :
  0 <= lo -> lo <= hi -> hi <= len s -> is_Some (slice s lo hi).
Proof.
  intros. unfold slice. destruct (decide _) as [_|Hn]; [eexists; reflexivity|].
  exfalso. apply Hn. auto.
Qed.

Lemma nullIndex_loop_spec (data : list Z) (nl : Z) (k : nat) :
  forall i, 0 < nl -> 0 <= i -> nl * (i + Z.of_nat k) <= len data -> len data < 2 ^ 62 ->
  let null := replicate (Z.to_nat nl) 0 in
  (nullIndex_loop k i data null nl = Some (-1, -1) /\
   forall j, i <= j < i + Z.of_nat k -> slice data (nl * j) (nl * j + nl) <> Some null) \/
  (exists j, i <= j < i + Z.of_nat k /\
     nullIndex_loop k i data null nl = Some (nl * j, nl * j + nl) /\
     slice data (nl * j) (nl * j + nl) = Some null /\
     forall j', i <= j' < j -> slice data (nl * j') (nl * j' + nl) <> Some null).
Proof.
  induction k as [|k IH]; intros i Hnl Hi Hfit Hlen null; unfold null; clear null.
  - left. split; [reflexivity|]. intros j Hj. lia.
  - simpl nullIndex_loop.
    rewrite (int_small (nl * i)) by nia.
    rewrite (int_small (nl * i + nl)) by nia.
    destruct (slice_in_range data (nl * i) (nl * i + nl)) as (chunk & Hchunk);
      [nia|lia|nia|].
    rewrite Hchunk. cbn [mbind option_bind].
    destruct (decide (chunk = replicate (Z.to_nat nl) 0)) as [->|Hne].
    + right. exists i. split; [lia|]. split; [reflexivity|]. split; [exact Hchunk|].
      intros j' Hj'. lia.
    + destruct (IH (i + 1) Hnl ltac:(lia) ltac:(nia) Hlen) as [(HL & Hno)|(j & Hj & HL & Hs & Hno)];
        cbv zeta in *.
      * left. split; [exact HL|]. intros j Hj.
        destruct (Z.eq_dec j i) as [->|Hji].
        -- rewrite Hchunk. intros [= E]. apply Hne. exact E.
        -- apply Hno. lia.
      * right. exists j. split; [lia|]. split; [exact HL|]. split; [exact Hs|].
        intros j' Hj'. destruct (Z.eq_dec j' i) as [->|Hji].
        -- rewrite Hchunk. intros [= E]. apply Hne. exact E.
        -- apply Hno. lia.
Qed.

(** X7: [nullIndex] finds the first terminator that is aligned to the width of
    the terminator of the encoding: it returns the bounds of the first
    all-zero chunk among the chunks [0..w), [w..2w), ... that fit the data,
    and (-1, -1) when none of these chunks is all zero, whatever zero bytes
    lie across two chunks. *)
Theorem nullIndex_first_aligned_terminator (data : list Z) (encoding nl : Z) :
  EncodingNullLengthForIndex encoding = Some nl -> len data < 2 ^ 62 ->
  let null := replicate (Z.to_nat nl) 0 in
  exists atIndex afterIndex, nullIndex data encoding = Some (atIndex, afterIndex) /\
    ((atIndex = -1 /\ afterIndex = -1 /\
      forall j, 0 <= j -> nl * j + nl <= len data ->
        slice data (nl * j) (nl * j + nl) <> Some null) \/
     (exists j, 0 <= j /\ atIndex = nl * j /\ afterIndex = atIndex + nl /\
        afterIndex <= len data /\ slice data atIndex afterIndex = Some null /\
        forall j', 0 <= j' < j -> slice data (nl * j') (nl * j' + nl) <> Some null)).
Proof.
  intros Hnl Hlen null.
  assert (Hw : nl = 1 \/ nl = 2) by (eapply NullLength_1_or_2, Hnl).
  assert (Hl : 0 <= len data) by (unfold len; lia).
  unfold nullIndex. rewrite Hnl. cbn [mbind option_bind].
  replace (nl <=? 0) with false by (symmetry; apply Z.leb_gt; lia).
  rewrite Z.quot_div_nonneg by lia.
  pose proof (Z.div_mod (len data) nl ltac:(lia)) as Hdm.
  pose proof (Z.mod_pos_bound (len data) nl ltac:(lia)) as Hmod.
  assert (Hq : 0 <= len data / nl) by (apply Z.div_pos; lia).
  destruct (nullIndex_loop_spec data nl (Z.to_nat (len data / nl)) 0)
    as [(HL & Hno)|(j & Hj & HL & Hs & Hno)]; [lia|lia|rewrite Z2Nat.id by lia; lia|exact Hlen| |].
  - exists (-1), (-1). split; [exact HL|]. left. repeat split.
    intros j Hj Hfit. apply Hno. rewrite Z2Nat.id by lia.
    split; [lia|]. nia.
  - exists (nl * j), (nl * j + nl). split; [exact HL|]. right.
    exists j. rewrite Z2Nat.id in Hj by lia.
    split; [lia|]. split; [reflexivity|]. split; [reflexivity|].
    split; [nia|]. split; [exact Hs|].
    intros j' Hj'. apply Hno. lia.
Qed.

Lemma nullIndex_first_aligned_terminator_witness :
  nullIndex [72; 0; 0; 0; 105; 0] 1 = Some (2, 4) /\
  nullIndex [72; 0; 0; 105; 1; 0] 1 = Some (-1, -1).
Proof.
  split.
  - destruct (nullIndex_first_aligned_terminator [72; 0; 0; 0; 105; 0] 1 2 eq_refl)
      as (a & b & E & _); [vm_compute; reflexivity|]. rewrite E. vm_compute in E.
    symmetry. exact E.
  - destruct (nullIndex_first_aligned_terminator [72; 0; 0; 105; 1; 0] 1 2 eq_refl)
      as (a & b & E & _); [vm_compute; reflexivity|]. rewrite E. vm_compute in E.
    symmetry. exact E.
Defined.

End EncodingTableMore.

(** ** More on the tag container *)

Section TagContainerMore.
Import v2.

Lemma Frames_loop_allocated (id : string) (h : Heap) (fs : list FrameRef) :
  forall rv, Forall (fun r => is_Some (h !! r)) fs ->
  Tag.Frames_loop fs id h rv = Some (rv ++ List.filter (has_id h id) fs).
Proof.
  induction fs as [|r fs IH]; intros rv Hok; simpl.
  - rewrite app_nil_r. reflexivity.
  - inversion Hok as [|? ? (f & Hf) Hok']; subst.
    unfold has_id at 1. rewrite Hf. simpl.
    destruct (String.eqb (f_Id f) id).
    + rewrite IH by exact Hok'. rewrite <- app_assoc. reflexivity.
    + apply IH. exact Hok'.
Qed.

Lemma Frames_loop_nil (id : string) (h : Heap) (fs : list FrameRef) :
  forall rv, Exists (fun r => h !! r = None) fs -> Tag.Frames_loop fs id h rv = None.
Proof.
  induction fs as [|r fs IH]; intros rv Hex; [inversion Hex|].
  simpl. destruct (h !! r) as [f|] eqn:Hf; [|reflexivity]. simpl.
  inversion Hex as [? ? Hr|? ? Hex']; subst; [congruence|].
  destruct (String.eqb (f_Id f) id); apply IH; exact Hex'.
Qed.

(** X8: [Frames(id)] returns the frames of the tag that carry [id], in the
    order of the frame list, and [Frame(id)] the first of them, nil when
    there is none; on a tag that holds a nil frame both panic. *)
Theorem Frames_and_Frame (t : Tag) (id : string) (h : Heap) :
  (Forall (fun r => is_Some (h !! r)) (frames t) ->
     Tag.Frames t id h = Some (List.filter (has_id h id) (frames t)) /\
     Tag.Frame t id h = Some (head (List.filter (has_id h id) (frames t))) /\
     (Tag.Frame t id h = Some None <->
      Forall (fun r => has_id h id r = false) (frames t))) /\
  (Exists (fun r => h !! r = None) (frames t) ->
     Tag.Frames t id h = None /\ Tag.Frame t id h = None).
Proof.
  split.
  - intros Hok.
    assert (HF : Tag.Frames t id h = Some (List.filter (has_id h id) (frames t))).
    { unfold Tag.Frames. rewrite Frames_loop_allocated by exact Hok. reflexivity. }
    split; [exact HF|]. unfold Tag.Frame. rewrite HF. cbn [mbind option_bind].
    split; [reflexivity|].
    clear. induction (frames t) as [|r fs IH]; simpl.
    + split; [constructor|reflexivity].
    + destruct (has_id h id r) eqn:Hr; simpl.
      * split; [discriminate|]. intros HF. inversion HF; subst. congruence.
      * rewrite IH. split; [intros HF; constructor; assumption|].
        intros HF. inversion HF; assumption.
  - intros Hex. unfold Tag.Frame, Tag.Frames.
    rewrite Frames_loop_nil by exact Hex. split; reflexivity.
Qed.

Lemma Frames_and_Frame_witness :
  Tag.Frames ex_two "TALB" ex_heap_owned = Some [1%nat] /\
  Tag.Frame ex_two "TALB" ex_heap_owned = Some (Some 1%nat) /\
  Tag.Frame ex_two "TYER" ex_heap_owned = Some None.
Proof.
  destruct (Frames_and_Frame ex_two "TALB" ex_heap_owned) as (H1 & _).
  destruct (Frames_and_Frame ex_two "TYER" ex_heap_owned) as (H2 & _).
  assert (Hok : Forall (fun r => is_Some (ex_heap_owned !! r)) (frames ex_two))
    by (repeat constructor; eexists; reflexivity).
  destruct (H1 Hok) as (E1 & E2 & _). destruct (H2 Hok) as (_ & E3 & _).
  rewrite E1, E2, E3. repeat split.
Defined.

(** X9: [AddFrames] returns exactly when no frame it is given is nil; it then
    appends the frames in order, makes the tag the owner of each, leaves
    the other frame objects as they are, and the tag dirty. *)
Theorem AddFrames_appends_and_owns (self : TagRef) (fs : list FrameRef) :
  forall (t : Tag) (h : Heap),
  (Forall (fun r => is_Some (h !! r)) fs ->
     exists t' h', Tag.AddFrames self t fs h = Some (t', h') /\
       frames t' = frames t ++ fs /\
       frameHeaderSize t' = frameHeaderSize t /\
       same_frames h h' /\
       (forall r, In r fs -> owner_at h' r = Some (Some self)) /\
       (forall r, ~ In r fs -> h' !! r = h !! r) /\
       (fs <> [] -> Tag.Dirty t' = true)) /\
  (Exists (fun r => h !! r = None) fs -> Tag.AddFrames self t fs h = None).
Proof.
  induction fs as [|r fs IH]; intros t h; split.
  - intros _. exists t, h. rewrite app_nil_r.
    repeat split; try reflexivity; [intros r []|congruence].
  - intros Hex. inversion Hex.
  - intros Hok. inversion Hok as [|? ? (f & Hf) Hok']; subst.
    rewrite (AddFrames_cons self t r fs h f Hf).
    pose proof (setOwner_same_frames h r (Some self)) as Hsame.
    destruct (proj1 (IH (AddFrames_step t r f) (setOwner r (Some self) h)))
      as (t' & h' & HA & Hfr & Hfhs & Hsame' & Hown & Hkeep & Hd).
    { eapply Forall_impl; [exact Hok'|]. intros r' (f' & Hf').
      destruct (same_frames_lookup h _ r' f' Hsame Hf') as (f'' & Hf'' & _).
      eexists. exact Hf''. }
    exists t', h'. split; [exact HA|].
    assert (Hfr1 : frames (AddFrames_step t r f) = frames t ++ [r]).
    { unfold AddFrames_step. cbv zeta. unfold with_frames at 1. cbn [frames].
      rewrite changeSize_frames. reflexivity. }
    assert (Hfhs1 : frameHeaderSize (AddFrames_step t r f) = frameHeaderSize t).
    { unfold AddFrames_step. cbv zeta. unfold with_frames at 1. cbn [frameHeaderSize].
      apply changeSize_frameHeaderSize. }
    split; [rewrite Hfr, Hfr1, <- app_assoc; reflexivity|].
    split; [congruence|].
    split; [eapply same_frames_trans; eassumption|].
    split; [|split].
    + intros r' Hin.
      destruct (in_dec Nat.eq_dec r' fs) as [Hin'|Hnin]; [apply Hown; exact Hin'|].
      destruct Hin as [<-|Hin]; [|contradiction].
      unfold owner_at. rewrite (Hkeep r Hnin).
      rewrite (setOwner_lookup_eq h r (Some self) f Hf). reflexivity.
    + intros r' Hnin. rewrite Hkeep by (intros Hin; apply Hnin; right; exact Hin).
      apply setOwner_lookup_ne. intros ->. apply Hnin. left. reflexivity.
    + intros _. destruct fs as [|r2 fs'].
      * simpl in HA. injection HA as <- _. reflexivity.
      * apply Hd. discriminate.
  - intros Hex. simpl. destruct (h !! r) as [f|] eqn:Hf; [|reflexivity]. simpl.
    inversion Hex as [? ? Hr|? ? Hex']; subst; [congruence|].
    apply (proj2 (IH _ _)).
    eapply Exists_impl; [exact Hex'|]. intros r' Hr'. simpl in Hr'.
    destruct (decide (r = r')) as [<-|Hne]; [congruence|].
    rewrite setOwner_lookup_ne by exact Hne. exact Hr'.
Qed.

Lemma AddFrames_appends_and_owns_witness :
  (exists t' h', Tag.AddFrames 0 ex_empty [0%nat; 1%nat] ex_heap = Some (t', h') /\
     frames t' = [0%nat; 1%nat] /\ owner_at h' 1%nat = Some (Some 0%nat)) /\
  Tag.AddFrames 0 ex_empty [0%nat; 7%nat] ex_heap = None.
Proof.
  destruct (AddFrames_appends_and_owns 0%nat [0%nat; 1%nat] ex_empty ex_heap) as (H1 & _).
  destruct (AddFrames_appends_and_owns 0%nat [0%nat; 7%nat] ex_empty ex_heap) as (_ & H2).
  split.
  - destruct H1 as (t' & h' & E & Hf & _ & _ & Ho & _).
    + repeat constructor; eexists; reflexivity.
    + exists t', h'. split; [exact E|]. split; [exact Hf|]. apply Ho. simpl. auto.
  - apply H2. apply Exists_cons_tl, Exists_cons_hd. reflexivity.
Defined.

End TagContainerMore.

(** ** More on deleting frames and on the sizes of the tag *)

Section DeleteMore.
Import v2.

Lemma filter_filter_negb {A} (m : A -> bool) (l : list A) :
  List.filter m (List.filter (fun r => negb (m r)) l) = [].
Proof.
  induction l as [|a l IH]; simpl; [reflexivity|].
  destruct (m a) eqn:Ha; simpl; [exact IH|]. rewrite Ha. exact IH.
Qed.

Lemma filter_ext_has_id (h h' : Heap) (id : string) (l : list FrameRef) :
  same_frames h h' -> List.filter (has_id h' id) l = List.filter (has_id h id) l.
Proof.
  intros Hs. induction l as [|a l IH]; simpl; [reflexivity|].
  rewrite (same_frames_has_id h h' id a Hs), IH. reflexivity.
Qed.

Lemma tag_ok_fits (t : Tag) (h : Heap) :
  tag_ok t h -> tag_invariant t h -> footprint t h < 2 ^ 63.
Proof.
  intros Hok Hinv. destruct (tag_ok_padding_le_size t h Hok Hinv) as (Hfp & Hpad).
  unfold tag_invariant in Hinv. destruct Hok as (Hs & _). lia.
Qed.

(** X10: [DeleteFrames(id)] on a tag that keeps the size invariant returns the
    frames that [Frames(id)] gave before the call; the other frames stay, in
    their order; the removed frames have no owner any more and no other
    frame object changes; [Size()] stays and the padding grows by the bytes
    of the removed frames; afterwards the tag holds no frame of [id]. *)
Theorem DeleteFrames_removes_matching (t : Tag) (id : string) (h : Heap) :
  tag_ok t h -> tag_invariant t h ->
  exists removed t' h',
    Tag.DeleteFrames t id h = Some (removed, t', h') /\
    Tag.Frames t id h = Some removed /\
    frames t' = List.filter (fun r => negb (has_id h id r)) (frames t) /\
    (forall r, In r removed -> owner_at h' r = Some None) /\
    (forall r, ~ In r removed -> h' !! r = h !! r) /\
    Tag.Size t' = Tag.Size t /\
    Tag.Padding t' = Tag.Padding t + footprint_of (frameHeaderSize t) h removed /\
    Tag.Dirty t' = true /\
    Tag.Frames t' id h' = Some [] /\ Tag.Frame t' id h' = Some None.
Proof.
  intros Hok Hinv.
  pose proof (tag_ok_fits t h Hok Hinv) as Hfit.
  destruct (tag_ok_padding_le_size t h Hok Hinv) as (Hfp & Hpad).
  destruct (DeleteFrames_spec t id h) as (h' & HD & Hsame & Hown & Hkeep);
    [apply Hok | destruct Hok as (_ & _ & ? & _); lia | exact Hfit |].
  destruct (remove_invariant t h h' (has_id h id) Hok Hinv Hsame)
    as (Hok' & Hinv' & Hd' & Hsz').
  set (removed := List.filter (has_id h id) (frames t)) in *.
  set (t' := Tag.changeSize _ _) in *.
  assert (Hfr : frames t' = List.filter (fun r => negb (has_id h id r)) (frames t)).
  { unfold t'. rewrite changeSize_frames. reflexivity. }
  assert (Hfhs : frameHeaderSize t' = frameHeaderSize t).
  { unfold t'. rewrite changeSize_frameHeaderSize. reflexivity. }
  assert (HF' : Tag.Frames t' id h' = Some []).
  { rewrite Frames_filter by apply Hok'.
    rewrite Hfr, (filter_ext_has_id h h' id _ Hsame), filter_filter_negb. reflexivity. }
  exists removed, t', h'.
  split; [exact HD|]. split; [apply Frames_filter, Hok|].
  split; [exact Hfr|]. split; [exact Hown|]. split; [exact Hkeep|].
  split; [unfold Tag.Size, Header.Size; rewrite Hsz'; reflexivity|].
  split.
  { unfold Tag.Padding. unfold tag_invariant, footprint in Hinv, Hinv'.
    rewrite Hsz', Hfr, Hfhs in Hinv'.
    rewrite (same_frames_footprint_of _ h h' _ Hsame) in Hinv'.
    pose proof (footprint_of_filter (frameHeaderSize t) h (has_id h id) (frames t)).
    fold removed in H. lia. }
  split; [exact Hd'|]. split; [exact HF'|].
  unfold Tag.Frame. rewrite HF'. reflexivity.
Qed.

Lemma DeleteFrames_removes_matching_witness :
  exists t' h',
    Tag.DeleteFrames ex_two "TIT2" ex_heap_owned = Some ([0%nat], t', h') /\
    frames t' = [1%nat] /\ Tag.Size t' = 26 /\ Tag.Padding t' = 15 /\
    Tag.Frame t' "TIT2" h' = Some None.
Proof.
  destruct (DeleteFrames_removes_matching ex_two "TIT2" ex_heap_owned)
    as (removed & t' & h' & E & EF & Hfr & _ & _ & Hs & Hp & _ & _ & HF).
  - unfold tag_ok, frames_ok. simpl. unfold FrameHeaderSize.
    repeat split; try lia.
    repeat constructor; eexists; (split; [reflexivity|simpl; lia]).
  - reflexivity.
  - assert (Hr : removed = [0%nat]).
    { assert (HE : Tag.Frames ex_two "TIT2" ex_heap_owned = Some [0%nat]) by reflexivity.
      congruence. }
    subst removed. exists t', h'.
    split; [exact E|]. split; [exact Hfr|]. split; [exact Hs|].
    split; [rewrite Hp; reflexivity|exact HF].
Defined.

Lemma filter_bool_decide_not_in (del : FrameRef) (l : list FrameRef) :
  ~ In del (List.filter (fun r => negb (bool_decide (r = del))) l).
Proof.
  intros Hin. apply filter_In in Hin. destruct Hin as (_ & Hb).
  rewrite bool_decide_eq_true_2 in Hb by reflexivity. discriminate.
Qed.

Lemma filter_bool_decide_in (del r : FrameRef) (l : list FrameRef) :
  In r (List.filter (fun r => bool_decide (r = del)) l) <-> r = del /\ In del l.
Proof.
  rewrite filter_In. split.
  - intros (Hin & Hb). apply bool_decide_eq_true_1 in Hb. subst. auto.
  - intros (-> & Hin). split; [exact Hin|]. apply bool_decide_eq_true_2. reflexivity.
Qed.

(** X11: [DeleteFrame(f)] on a tag that keeps the size invariant removes every
    occurrence of the frame object [f] from the frame list and keeps the
    other frames in order; if the tag held [f], [f] has no owner any more;
    no other frame object changes; [Size()] stays and the padding grows by
    the bytes of the removed occurrences. *)
Theorem DeleteFrame_removes_every_occurrence (t : Tag) (delFrame : FrameRef) (h : Heap) :
  tag_ok t h -> tag_invariant t h ->
  exists returned t' h',
    Tag.DeleteFrame t delFrame h = Some (returned, t', h') /\
    frames t' = List.filter (fun r => negb (bool_decide (r = delFrame))) (frames t) /\
    ~ In delFrame (frames t') /\
    (In delFrame (frames t) -> owner_at h' delFrame = Some None) /\
    (forall r, r <> delFrame -> h' !! r = h !! r) /\
    (~ In delFrame (frames t) -> h' = h) /\
    Tag.Size t' = Tag.Size t /\
    Tag.Padding t' = Tag.Padding t
      + footprint_of (frameHeaderSize t) h
          (List.filter (fun r => bool_decide (r = delFrame)) (frames t)) /\
    Tag.Dirty t' = true.
Proof.
  intros Hok Hinv.
  pose proof (tag_ok_fits t h Hok Hinv) as Hfit.
  destruct (DeleteFrame_spec t delFrame h) as (h' & HD & Hsame & Hown & Hkeep);
    [apply Hok | destruct Hok as (_ & _ & ? & _); lia | exact Hfit |].
  destruct (remove_invariant t h h' (fun r => bool_decide (r = delFrame)) Hok Hinv Hsame)
    as (Hok' & Hinv' & Hd' & Hsz').
  cbv zeta in HD, Hown, Hkeep.
  set (t' := Tag.changeSize _ _) in *.
  assert (Hfr : frames t'
                = List.filter (fun r => negb (bool_decide (r = delFrame))) (frames t)).
  { unfold t'. rewrite changeSize_frames. reflexivity. }
  assert (Hfhs : frameHeaderSize t' = frameHeaderSize t).
  { unfold t'. rewrite changeSize_frameHeaderSize. reflexivity. }
  exists (frames t), t', h'.
  split; [exact HD|]. split; [exact Hfr|].
  split; [rewrite Hfr; apply filter_bool_decide_not_in|].
  split; [intros Hin; apply Hown, filter_bool_decide_in; auto|].
  split; [intros r Hne; apply Hkeep; rewrite filter_bool_decide_in; tauto|].
  split.
  { intros Hnin. apply list_eq. intros r. apply Hkeep.
    rewrite filter_bool_decide_in. tauto. }
  split; [unfold Tag.Size, Header.Size; rewrite Hsz'; reflexivity|].
  split; [|exact Hd'].
  unfold Tag.Padding. unfold tag_invariant, footprint in Hinv, Hinv'.
  rewrite Hsz', Hfr, Hfhs in Hinv'.
  rewrite (same_frames_footprint_of _ h h' _ Hsame) in Hinv'.
  pose proof (footprint_of_filter (frameHeaderSize t) h
                (fun r => bool_decide (r = delFrame)) (frames t)) as Hsplit.
  cbv beta in Hsplit. lia.
Qed.

Lemma DeleteFrame_removes_every_occurrence_witness :
  exists returned t' h',
    Tag.DeleteFrame ex_two 1%nat ex_heap_owned = Some (returned, t', h') /\
    frames t' = [0%nat] /\ owner_at h' 1%nat = Some None /\
    h' !! 0%nat = ex_heap_owned !! 0%nat /\ Tag.Size t' = 26 /\ Tag.Padding t' = 11.
Proof.
  destruct (DeleteFrame_removes_every_occurrence ex_two 1%nat ex_heap_owned)
    as (returned & t' & h' & E & Hfr & _ & Ho & Hk & _ & Hs & Hp & _).
  - unfold tag_ok, frames_ok. simpl. unfold FrameHeaderSize.
    repeat split; try lia.
    repeat constructor; eexists; (split; [reflexivity|simpl; lia]).
  - reflexivity.
  - exists returned, t', h'.
    split; [exact E|]. split; [exact Hfr|].
    split; [apply Ho; simpl; auto|]. split; [apply Hk; discriminate|].
    split; [exact Hs|]. rewrite Hp. reflexivity.
Defined.

End DeleteMore.

Section SizesMore.
Import v2.

Lemma int_uint (z : Z) : int (uint z) = int z.
Proof.
  unfold int, uint.
  replace ((z mod 2 ^ 64 + 2 ^ 63) mod 2 ^ 64) with ((z + 2 ^ 63) mod 2 ^ 64);
    [reflexivity|].
  rewrite (Z.add_mod (z mod 2 ^ 64)), Z.mod_mod, <- Z.add_mod by lia. reflexivity.
Qed.

Lemma RealSize_small (t : Tag) :
  0 <= size (header t) < 2 ^ 64 ->
  - 2 ^ 63 <= size (header t) - padding t < 2 ^ 63 ->
  Tag.RealSize t = size (header t) - padding t.
Proof.
  intros Hs Hd. unfold Tag.RealSize. cbv zeta.
  rewrite (uint_small (size (header t))) by lia.
  rewrite int_uint. apply int_small. lia.
Qed.

(** X12: [RealSize()] of a tag that keeps the size invariant is the number of
    bytes its frames take, header included; and [changeSize(diff)] moves
    [RealSize()] by [diff], whether the padding absorbs [diff] or not, as
    long as the size field holds the result. *)
Theorem RealSize_is_footprint :
  (forall (t : Tag) (h : Heap),
     tag_ok t h -> tag_invariant t h -> Tag.RealSize t = footprint t h) /\
  (forall (t : Tag) (diff : Z),
     0 <= padding t <= size (header t) -> size (header t) < 2 ^ 32 ->
     - 2 ^ 62 < diff < 2 ^ 62 ->
     size (header t) - padding t + diff < 2 ^ 32 ->
     Tag.RealSize (Tag.changeSize diff t) = Tag.RealSize t + diff).
Proof.
  split.
  - intros t h Hok Hinv.
    destruct (tag_ok_padding_le_size t h Hok Hinv) as (Hfp & Hpad).
    destruct Hok as (Hs & Hp & _).
    rewrite RealSize_small by lia. unfold tag_invariant in Hinv. lia.
  - intros t diff Hp Hs Hd Hfit.
    rewrite (RealSize_small t) by lia.
    rewrite changeSize_spec by lia.
    destruct (Z.ltb_spec (padding t - diff) 0) as [Hneg|Hpos].
    + rewrite RealSize_small; cbn [size header padding with_dirty with_header with_size
                                     with_padding];
        rewrite ?uint32_small by lia; lia.
    + rewrite RealSize_small; cbn [size header padding with_dirty with_header with_size
                                     with_padding]; lia.
Qed.

Lemma RealSize_is_footprint_witness :
  Tag.RealSize ex_padded_album = footprint ex_padded_album ex_heap /\
  Tag.RealSize (Tag.changeSize 30 ex_padded_20) = Tag.RealSize ex_padded_20 + 30 /\
  Tag.RealSize (Tag.changeSize (-4) ex_padded_album) = Tag.RealSize ex_padded_album + -4.
Proof.
  destruct RealSize_is_footprint as (H1 & H2).
  split; [|split].
  - apply H1; [|reflexivity].
    unfold tag_ok, frames_ok. simpl. unfold FrameHeaderSize.
    repeat split; try lia.
    repeat constructor; eexists; (split; [reflexivity|simpl; lia]).
  - apply H2; simpl; lia.
  - apply H2; simpl; lia.
Defined.

Lemma Bytes_loop_returns_iff (t : Tag) (h : Heap) (fs : list FrameRef) :
  forall (data : list Z) (index : Z),
  0 <= frameHeaderSize t <= 10 -> frames_ok h fs ->
  0 <= index <= len data -> len data < 2 ^ 62 ->
  (is_Some (Tag.Bytes_loop fs t h data index)
   <-> index + footprint_of (frameHeaderSize t) h fs <= len data).
Proof.
  induction fs as [|r fs IH]; intros data index Hfhs Hok Hidx Hlen.
  - simpl. split; [lia|]. intros _. eexists. reflexivity.
  - inversion Hok as [|? ? (f & Hf & Hsz) Hok']; subst.
    pose proof (footprint_of_nonneg (frameHeaderSize t) h fs ltac:(lia) Hok') as Hnn.
    cbn [Tag.Bytes_loop footprint_of foldr]. fold (footprint_of (frameHeaderSize t) h fs).
    unfold frame_footprint. rewrite Hf. cbn [mbind option_bind].
    rewrite (int_small (f_Size f)) by lia.
    rewrite (int_small (frameHeaderSize t + f_Size f)) by lia.
    rewrite int_small by lia.
    destruct (copy_at data index (index + (frameHeaderSize t + f_Size f))
                (frameBytesConstructor t f)) as [data'|] eqn:Hc.
    + pose proof (copy_at_length _ _ _ _ _ Hc) as Hl.
      unfold copy_at in Hc. destruct (decide _) as [(H0 & H1 & H2)|]; [|discriminate].
      cbn [mbind option_bind option_ret]. rewrite IH; [|exact Hfhs|exact Hok'|unfold len in *; lia
                                       |unfold len in *; lia].
      unfold len. rewrite Hl. fold (len data). lia.
    + cbn [mbind option_bind option_ret]. unfold copy_at in Hc.
      destruct (decide _) as [|Hn]; [discriminate|].
      split; [intros (? & ?); discriminate|]. intros Hle. exfalso. apply Hn. lia.
Qed.

(** X13: [Bytes()] panics exactly when the frames of the tag take more bytes
    than [Size()] says (the slice [data[index:index+size]] leaves the
    buffer); when it returns, it returns the 10 bytes of the header and
    [Size()] more. *)
Theorem Bytes_returns_iff_frames_fit (t : Tag) (h : Heap) :
  tag_ok t h ->
  (is_Some (Tag.Bytes t h) <-> footprint t h <= Tag.Size t) /\
  (forall out, Tag.Bytes t h = Some out -> len out = HeaderSize + Tag.Size t).
Proof.
  intros (Hs & Hp & Hfhs & Hok).
  assert (HS : Tag.Size t = size (header t)).
  { unfold Tag.Size, Header.Size. apply int_small. lia. }
  split.
  - pose proof (Bytes_loop_returns_iff t h (frames t)
                  (replicate (Z.to_nat (Tag.Size t)) 0) 0) as HL.
    unfold len in HL. rewrite length_replicate in HL.
    rewrite Z2Nat.id in HL by lia.
    rewrite Z.add_0_l in HL. fold (footprint t h) in HL.
    rewrite <- HL; [|lia|exact Hok|lia|lia].
    unfold Tag.Bytes.
    destruct (Tag.Bytes_loop _ _ _ _ _) as [data|]; cbn [mbind option_bind].
    + split; intros _; eexists; reflexivity.
    + split; intros (? & ?); discriminate.
  - intros out Hout. unfold len. rewrite (Bytes_length t h out Hout).
    unfold HeaderSize. lia.
Qed.

Lemma Bytes_returns_iff_frames_fit_witness :
  is_Some (Tag.Bytes ex_padded_album ex_heap) /\
  Tag.Bytes (with_header (with_size 10 (header ex_titled)) ex_titled) ex_heap = None.
Proof.
  split.
  - apply (Bytes_returns_iff_frames_fit ex_padded_album ex_heap).
    + unfold tag_ok, frames_ok. simpl. unfold FrameHeaderSize.
      repeat split; try lia.
      repeat constructor; eexists; (split; [reflexivity|simpl; lia]).
    + unfold footprint. simpl. unfold FrameHeaderSize, Tag.Size, Header.Size. simpl.
      vm_compute. discriminate.
  - destruct (Bytes_returns_iff_frames_fit
                (with_header (with_size 10 (header ex_titled)) ex_titled) ex_heap)
      as (Hiff & _).
    + unfold tag_ok, frames_ok. simpl. unfold FrameHeaderSize.
      repeat split; try lia.
      repeat constructor; eexists; (split; [reflexivity|simpl; lia]).
    + destruct (Tag.Bytes _ ex_heap) as [out|] eqn:E; [|reflexivity].
      exfalso. assert (Hs : is_Some (Some out)) by (eexists; reflexivity).
      apply Hiff in Hs. revert Hs. unfold footprint, Tag.Size, Header.Size.
      vm_compute. intros Hs. apply Hs. reflexivity.
Defined.

End SizesMore.

(** ** The tag header and the v2.4 frame header *)

Section Headers.
Import v2.
Context `{FC : FrameCodecs}.

Lemma SynchInt_bytes (buf : list Z) :
  (length buf <= 4)%nat -> Forall (fun b => 0 <= b < 128) buf ->
  encodedbytes.SynchInt buf = (digits_value 7 buf 0, None) /\
  0 <= digits_value 7 buf 0 < 2 ^ 28.
Proof.
  intros Hl HF.
  assert (HF' : Forall (fun d => 0 <= d < 2 ^ 7) buf) by exact HF.
  pose proof (digits_value_lt 7 buf 0 ltac:(lia) HF' ltac:(lia)) as Hlt.
  pose proof (digits_value_ge 7 buf 0 ltac:(lia) HF' ltac:(lia)) as Hge.
  assert (Hp : 2 ^ (7 * len buf) <= 2 ^ 28)
    by (apply Z.pow_le_mono_r; unfold len; lia).
  split; [|lia].
  unfold encodedbytes.SynchInt, encodedbytes.ByteInt, encodedbytes.BytesPerInt.
  replace (4 <? len buf) with false by (symmetry; apply Z.ltb_ge; unfold len; lia).
  apply ByteInt_loop_digits; [unfold encodedbytes.SynchByteLength; lia|exact HF'|lia|].
  change (2 ^ 32) with (16 * 2 ^ 28). lia.
Qed.

Lemma SynchInt_top_bit (buf : list Z) :
  Exists (fun b => 128 <= b) buf -> exists n e, encodedbytes.SynchInt buf = (n, Some e).
Proof.
  intros Hex. destruct (encodedbytes.SynchInt buf) as (n & [e|]) eqn:E;
    [exists n, e; reflexivity|].
  exfalso. unfold encodedbytes.SynchInt, encodedbytes.ByteInt in E.
  destruct (_ <? _); [discriminate|].
  assert (Hs : snd (encodedbytes.ByteInt_loop buf encodedbytes.SynchByteLength 0) = None)
    by (rewrite E; reflexivity).
  apply SynchInt_loop_error in Hs.
  apply Exists_exists in Hex. destruct Hex as (b & Hin & Hb).
  pose proof (proj1 (Forall_forall _ _) Hs b Hin) as Hlt. simpl in Hlt. lia.
Qed.

Lemma ascii_of_byte_inj (a b : Z) :
  0 <= a < 256 -> 0 <= b < 256 ->
  ascii_of_N (Z.to_N a) = ascii_of_N (Z.to_N b) -> a = b.
Proof.
  intros Ha Hb E. apply (f_equal N_of_ascii) in E.
  rewrite !N_ascii_embedding in E by lia. lia.
Qed.

Lemma string_of_bytes_of_string (s : string) : string_of_bytes (bytes_of_string s) = s.
Proof.
  induction s as [|c s IH]; simpl; [reflexivity|].
  rewrite N2Z.id, ascii_N_embedding, IH. reflexivity.
Qed.

Lemma ParseHeader_version_cases (v r f s : Z) :
  let hd :=
    match v with
    | 2 => mkHeader v r f (isBitSet f 7) (isBitSet f 6) false false s
    | 3 | 4 => mkHeader v r f (isBitSet f 7) false (isBitSet f 5) (isBitSet f 6) s
    | _ => mkHeader v r f false false false false s
    end in
  version hd = v /\ revision hd = r /\ flags hd = f /\ size hd = s /\
  unsynchronization hd = ((v =? 2) || (v =? 3) || (v =? 4)) && isBitSet f 7 /\
  compression hd = (v =? 2) && isBitSet f 6 /\
  extendedHeader hd = ((v =? 3) || (v =? 4)) && isBitSet f 6 /\
  experimental hd = ((v =? 3) || (v =? 4)) && isBitSet f 5.
Proof.
  destruct v as [|p|p]; [repeat split| |repeat split].
  destruct p as [p|p|]; [| |repeat split];
    (destruct p as [p|p|]; [| |repeat split]);
    (destruct p as [p|p|]; repeat split).
Qed.

(** The result of [ParseHeader] in terms of the 10 bytes it reads. *)
Lemma ParseHeader_fields (rd : Reader) :
  Forall (fun b => 0 <= b < 256) (rd_data rd) ->
  let data := take 10 (drop (rd_pos rd) (rd_data rd)) in
  (fst (ParseHeader rd) = None <->
     len data < 10 \/ take 3 data <> [73; 68; 51] \/
     Exists (fun b => 128 <= b) (drop 6 data)) /\
  rd_pos (snd (ParseHeader rd)) = (rd_pos rd + length data)%nat /\
  (forall hd, fst (ParseHeader rd) = Some hd ->
     version hd = nth 3 data 0 /\ revision hd = nth 4 data 0 /\
     flags hd = nth 5 data 0 /\
     size hd = digits_value 7 (drop 6 data) 0 /\ 0 <= size hd < 2 ^ 28 /\
     unsynchronization hd
       = ((version hd =? 2) || (version hd =? 3) || (version hd =? 4))
         && isBitSet (flags hd) 7 /\
     compression hd = (version hd =? 2) && isBitSet (flags hd) 6 /\
     extendedHeader hd
       = ((version hd =? 3) || (version hd =? 4)) && isBitSet (flags hd) 6 /\
     experimental hd
       = ((version hd =? 3) || (version hd =? 4)) && isBitSet (flags hd) 5).
Proof.
  intros Hbytes data.
  assert (Hd : Forall (fun b => 0 <= b < 256) data).
  { unfold data. apply Forall_take, Forall_drop. exact Hbytes. }
  unfold ParseHeader, ReadFull, HeaderSize.
  change (Z.to_nat 10) with 10%nat. fold data.
  destruct (Z.ltb_spec (len data) 10) as [Hshort|Hlong].
  { cbn [orb fst snd rd_pos]. split; [|split].
    - split; [intros _; left; exact Hshort|reflexivity].
    - reflexivity.
    - intros hd [=]. }
  assert (Hlen : length data = 10%nat).
  { unfold len in Hlong. pose proof (length_take_le (drop (rd_pos rd) (rd_data rd)) 10).
    unfold data in *. rewrite length_take in *. lia. }
  clearbody data.
  do 10 (destruct data as [|? data]; [discriminate Hlen|]).
  destruct data; [|discriminate Hlen].
  assert (Hd6 : Forall (fun b => 0 <= b < 256) [z5; z6; z7; z8])
    by (apply (Forall_drop _ 6) in Hd; exact Hd).
  cbn [orb take drop nth string_of_bytes].
  repeat (apply Forall_cons in Hd; destruct Hd as (? & Hd)).
  destruct (String.eqb_spec
              (String (ascii_of_N (Z.to_N z))
                 (String (ascii_of_N (Z.to_N z0))
                    (String (ascii_of_N (Z.to_N z1)) EmptyString))) "ID3")
    as [Hid|Hid]; cbn [negb].
  2:{ cbn [fst snd rd_pos]. split; [|split].
      - split; [|reflexivity]. intros _. right. left. intros E. apply Hid.
        injection E as -> -> ->. reflexivity.
      - reflexivity.
      - intros hd [=]. }
  assert (Hmagic : [z; z0; z1] = [73; 68; 51]).
  { injection Hid as E1 E2 E3.
    rewrite (ascii_of_byte_inj z 73), (ascii_of_byte_inj z0 68),
      (ascii_of_byte_inj z1 51); (reflexivity || lia || assumption). }
  destruct (decide (Forall (fun b => 0 <= b < 128) [z5; z6; z7; z8])) as [Hsz|Hsz].
  - destruct (SynchInt_bytes [z5; z6; z7; z8] ltac:(simpl; lia) Hsz) as (E & Hrange).
    rewrite E. cbv iota beta.
    pose proof (ParseHeader_version_cases z2 z3 z4 (digits_value 7 [z5; z6; z7; z8] 0))
      as Hcases. cbv zeta in Hcases.
    set (hd := match z2 with 2 => _ | _ => _ end) in *.
    destruct Hcases as (Hv & Hr & Hf & Hs & Hrest).
    cbn [fst snd rd_pos]. split; [|split].
    + split; [discriminate|]. intros [Hl|[Hm|Hex]].
      * unfold len in Hl. simpl in Hl. lia.
      * contradiction.
      * exfalso. apply Exists_exists in Hex. destruct Hex as (b & Hin & Hb).
        pose proof (proj1 (Forall_forall _ _) Hsz b Hin) as Hlt. simpl in Hlt. lia.
    + reflexivity.
    + intros hd' [= <-]. rewrite Hv, Hr, Hf, Hs.
      split; [reflexivity|]. split; [reflexivity|]. split; [reflexivity|].
      split; [reflexivity|]. split; [exact Hrange|exact Hrest].
  - assert (Hex : Exists (fun b => 128 <= b) [z5; z6; z7; z8]).
    { apply not_Forall_Exists in Hsz; [|intros b; apply _].
      apply Exists_exists in Hsz. destruct Hsz as (b & Hin & Hb).
      apply Exists_exists. exists b. split; [exact Hin|].
      pose proof (proj1 (Forall_forall _ _) Hd6 b Hin) as Hr. simpl in Hr, Hb. lia. }
    destruct (SynchInt_top_bit _ Hex) as (n & e & E). rewrite E. cbv iota beta.
    cbn [fst snd rd_pos]. split; [|split].
    + split; [|reflexivity]. intros _. right. right. exact Hex.
    + reflexivity.
    + intros hd [=].
Qed.

(** X14: [ParseHeader] reads up to 10 bytes. It returns nil exactly when fewer
    than 10 bytes are left, when the first three are not "ID3", or when one
    of the four size bytes has its top bit set. Otherwise the header has
    the bytes 3, 4 and 5 as version, revision and flags, the 28-bit value
    of the four size bytes as size, and the flag bits that its version
    defines. *)
Theorem ParseHeader_reads_header (rd : Reader) :
  Forall (fun b => 0 <= b < 256) (rd_data rd) ->
  let data := take 10 (drop (rd_pos rd) (rd_data rd)) in
  (fst (ParseHeader rd) = None <->
     len data < 10 \/ take 3 data <> [73; 68; 51] \/
     Exists (fun b => 128 <= b) (drop 6 data)) /\
  rd_pos (snd (ParseHeader rd)) = (rd_pos rd + length data)%nat /\
  (forall hd, fst (ParseHeader rd) = Some hd ->
     version hd = nth 3 data 0 /\ revision hd = nth 4 data 0 /\
     flags hd = nth 5 data 0 /\
     size hd = digits_value 7 (drop 6 data) 0 /\ 0 <= size hd < 2 ^ 28 /\
     unsynchronization hd
       = ((version hd =? 2) || (version hd =? 3) || (version hd =? 4))
         && isBitSet (flags hd) 7 /\
     compression hd = (version hd =? 2) && isBitSet (flags hd) 6 /\
     extendedHeader hd
       = ((version hd =? 3) || (version hd =? 4)) && isBitSet (flags hd) 6 /\
     experimental hd
       = ((version hd =? 3) || (version hd =? 4)) && isBitSet (flags hd) 5).
Proof. exact (ParseHeader_fields rd). Qed.

End Headers.

Section HeadersRoundTrip.
Import v2.
Context `{FC : FrameCodecs}.

Lemma ReadFull_at (pre mid rest : list Z) (n : Z) :
  len mid = n ->
  ReadFull (mkReader (pre ++ mid ++ rest) (length pre)) n
  = (mid, mkReader (pre ++ mid ++ rest) (length pre + length mid)).
Proof.
  intros Hn. unfold ReadFull. cbn [rd_data rd_pos].
  rewrite drop_app_length.
  replace (Z.to_nat n) with (length mid) by (unfold len in Hn; lia).
  rewrite take_app_length. reflexivity.
Qed.

(** X15: What [Header.Bytes] writes, [ParseHeader] reads back: for a size of 28
    bits, the parsed header has the version, revision, flags and size of the
    header written, and serializes to the same 10 bytes, leaving the reader
    after them. Conversely, 10 bytes that [ParseHeader] accepts are the
    bytes of the header it returns. *)
Theorem ParseHeader_Header_Bytes_round_trip :
  (forall (hd : Header) (pre rest : list Z),
     0 <= size hd < 2 ^ 28 ->
     let data := pre ++ Header.Bytes hd ++ rest in
     exists hd',
       ParseHeader (mkReader data (length pre))
       = (Some hd', mkReader data (length pre + 10)) /\
       version hd' = version hd /\ revision hd' = revision hd /\
       flags hd' = flags hd /\ size hd' = size hd /\
       Header.Bytes hd' = Header.Bytes hd) /\
  (forall (rd : Reader) (hd : Header),
     Forall (fun b => 0 <= b < 256) (rd_data rd) ->
     fst (ParseHeader rd) = Some hd ->
     Header.Bytes hd = take 10 (drop (rd_pos rd) (rd_data rd))).
Proof.
  split.
  - intros hd pre rest Hs data.
    assert (HB : Header.Bytes hd
                 = [73; 68; 51; version hd; revision hd; flags hd]
                   ++ encodedbytes.SynchBytes (size hd)) by reflexivity.
    pose proof (Header_Bytes_length hd) as HL.
    unfold ParseHeader, data.
    rewrite (ReadFull_at pre (Header.Bytes hd) rest HeaderSize)
      by (unfold len, HeaderSize; rewrite HL; reflexivity).
    rewrite HL. unfold len. rewrite HL. change (Z.of_nat 10 <? HeaderSize) with false.
    rewrite HB. cbn [app take drop nth orb].
    change (string_of_bytes [73; 68; 51]) with "ID3"%string.
    change (negb ("ID3" =? "ID3")%string) with false. cbv iota.
    assert (E : encodedbytes.ByteInt (encodedbytes.IntBytes (size hd) 7) 7 = (size hd, None)).
    { apply ByteInt_IntBytes; [lia|]. change (2 ^ (4 * 7)) with (2 ^ 28). exact Hs. }
    change (encodedbytes.ByteInt (encodedbytes.IntBytes (size hd) 7) 7)
      with (encodedbytes.SynchInt (encodedbytes.SynchBytes (size hd))) in E.
    rewrite drop_0, E. cbv iota beta.
    pose proof (ParseHeader_version_cases (version hd) (revision hd) (flags hd) (size hd))
      as Hcases. cbv zeta in Hcases.
    set (hd' := match version hd with 2 => _ | _ => _ end) in *.
    destruct Hcases as (Hv & Hr & Hf & Hsz & _).
    exists hd'. split; [reflexivity|].
    repeat (split; [assumption|]).
    unfold Header.Bytes. rewrite Hv, Hr, Hf, Hsz. reflexivity.
  - intros rd hd Hbytes Hhd.
    destruct (ParseHeader_fields rd Hbytes) as (Hnil & _ & Hfields).
    cbv zeta in Hnil, Hfields.
    set (data := take 10 (drop (rd_pos rd) (rd_data rd))) in *.
    assert (Hd : Forall (fun b => 0 <= b < 256) data).
    { unfold data. apply Forall_take, Forall_drop. exact Hbytes. }
    destruct (Hfields hd Hhd) as (Hv & Hr & Hf & Hs & _).
    assert (Hlen : ~ len data < 10) by (intros H; rewrite (proj2 Hnil) in Hhd; [discriminate|auto]).
    assert (Hmagic : take 3 data = [73; 68; 51]).
    { destruct (decide (take 3 data = [73; 68; 51])) as [E|N]; [exact E|].
      rewrite (proj2 Hnil) in Hhd; [discriminate|auto]. }
    assert (Hsz : Forall (fun b => 0 <= b < 128) (drop 6 data)).
    { apply Forall_forall. intros b Hin.
      pose proof (proj1 (Forall_forall _ _) (Forall_drop _ 6 _ Hd) b Hin) as Hr'.
      simpl in Hr'. split; [lia|].
      destruct (Z.lt_ge_cases b 128) as [Hlt|Hge]; [exact Hlt|].
      rewrite (proj2 Hnil) in Hhd; [discriminate|].
      right. right. apply Exists_exists. exists b. split; [exact Hin|lia]. }
    assert (Hl10 : length data = 10%nat).
    { unfold len in Hlen. unfold data in *. rewrite length_take in *. lia. }
    clearbody data.
    do 10 (destruct data as [|? data]; [discriminate Hl10|]).
    destruct data; [|discriminate Hl10].
    cbn [take drop nth] in *.
    unfold Header.Bytes. rewrite Hv, Hr, Hf, Hs.
    destruct (IntBytes_of_digits 7 [z5; z6; z7; z8] ltac:(lia) eq_refl Hsz) as (_ & E).
    unfold encodedbytes.SynchBytes, encodedbytes.SynchByteLength. rewrite E.
    injection Hmagic as -> -> ->. reflexivity.
Qed.

Lemma TrimLeft_nonzero (b : Z) (s : list Z) : b <> 0 -> TrimLeft (b :: s) 0 = b :: s.
Proof. intros Hb. simpl. destruct (Z.eqb_spec b 0); [contradiction|reflexivity]. Qed.

(** X16: What [V24Bytes] writes, [ParseV24Frame] reads back: for a frame with a
    four-byte identifier that neither starts nor ends with a zero byte, and
    whose [Size()] is the length of its [Bytes()], below [2^28], the frame
    parser hands to the payload constructor the identifier, the size, the
    two flag bytes and the payload of the frame written, consumes exactly
    the bytes written, and the frame takes [FrameHeaderSize + Size()] bytes. *)
Theorem ParseV24Frame_V24Bytes_round_trip (f : Framer) (c1 c2 c3 c4 : ascii)
    (pre rest : list Z) :
  f_Id f = String c1 (String c2 (String c3 (String c4 EmptyString))) ->
  c1 <> zero -> c4 <> zero ->
  f_Size f = len (f_Bytes f) -> len (f_Bytes f) < 2 ^ 28 ->
  let data := pre ++ V24Bytes f ++ rest in
  let t := match V24FrameTypeMap (f_Id f) with
           | Some t => t
           | None => mkFrameType (f_Id f) "Unknown frame" ParseDataFrame
           end in
  len (V24Bytes f) = FrameHeaderSize + f_Size f /\
  ParseV24Frame (mkReader data (length pre))
  = (construct (constructor t)
       (mkFrameHead t (f_StatusFlags f) (f_FormatFlags f) (f_Size f)) (f_Bytes f),
     mkReader data (length pre + length (V24Bytes f))).
Proof.
  intros Hid Hc1 Hc4 Hsize Hlt data t.
  assert (Hs0 : 0 <= f_Size f < 2 ^ 28) by (unfold len in *; lia).
  assert (Hu : uint32 (f_Size f) = f_Size f).
  { apply uint32_small. change (2 ^ 32) with (16 * 2 ^ 28). lia. }
  set (b1 := Z.of_N (N_of_ascii c1)). set (b2 := Z.of_N (N_of_ascii c2)).
  set (b3 := Z.of_N (N_of_ascii c3)). set (b4 := Z.of_N (N_of_ascii c4)).
  assert (Hidb : bytes_of_string (f_Id f) = [b1; b2; b3; b4]) by (rewrite Hid; reflexivity).
  assert (Hnz : forall c, c <> zero -> Z.of_N (N_of_ascii c) <> 0).
  { intros c Hc E. apply Hc. rewrite <- (ascii_N_embedding c).
    replace (N_of_ascii c) with 0%N by lia. reflexivity. }
  assert (Hsb : exists s1 s2 s3 s4,
            encodedbytes.SynchBytes (f_Size f) = [s1; s2; s3; s4]).
  { pose proof (IntBytes_loop_length 4 (f_Size f)
                  (uint32 (uint32 (Z.shiftl 1 7) - 1)) 7 []) as HL.
    change (encodedbytes.IntBytes_loop 4 (f_Size f) (uint32 (uint32 (Z.shiftl 1 7) - 1)) 7 [])
      with (encodedbytes.SynchBytes (f_Size f)) in HL.
    destruct (encodedbytes.SynchBytes (f_Size f)) as [|s1 [|s2 [|s3 [|s4 [|? ?]]]]];
      try discriminate HL.
    exists s1, s2, s3, s4. reflexivity. }
  destruct Hsb as (s1 & s2 & s3 & s4 & Hsb).
  assert (HV : V24Bytes f
               = [b1; b2; b3; b4; s1; s2; s3; s4; f_StatusFlags f; f_FormatFlags f]
                 ++ f_Bytes f).
  { unfold V24Bytes. rewrite Hu, Hidb, Hsb. reflexivity. }
  split.
  { rewrite HV. unfold len. rewrite length_app. unfold FrameHeaderSize, len in *.
    simpl length. lia. }
  unfold ParseV24Frame, data. rewrite HV, <- (app_assoc _ (f_Bytes f) rest).
  rewrite (ReadFull_at pre _ (f_Bytes f ++ rest) FrameHeaderSize) by reflexivity.
  change (len [b1; b2; b3; b4; s1; s2; s3; s4; f_StatusFlags f; f_FormatFlags f]
          <? FrameHeaderSize) with false. cbv iota.
  cbn [take drop nth].
  assert (HT : Trim [b1; b2; b3; b4] 0 = [b1; b2; b3; b4]).
  { unfold Trim, TrimRight. rewrite TrimLeft_nonzero by (apply Hnz; exact Hc1).
    change (reverse [b1; b2; b3; b4]) with [b4; b3; b2; b1].
    rewrite TrimLeft_nonzero by (apply Hnz; exact Hc4). reflexivity. }
  rewrite HT, <- Hidb, string_of_bytes_of_string. fold t.
  assert (E : encodedbytes.ByteInt (encodedbytes.IntBytes (f_Size f) 7) 7 = (f_Size f, None)).
  { apply ByteInt_IntBytes; [lia|]. change (2 ^ (4 * 7)) with (2 ^ 28). exact Hs0. }
  change (encodedbytes.ByteInt (encodedbytes.IntBytes (f_Size f) 7) 7)
    with (encodedbytes.SynchInt (encodedbytes.SynchBytes (f_Size f))) in E.
  rewrite Hsb in E. rewrite E. cbv iota beta.
  rewrite Hid at 1. cbn [String.eqb andb]. 
  change (String c1 (String c2 (String c3 (String c4 EmptyString))) =? EmptyString)%string
    with false. cbn [andb].
  pose proof (ReadFull_at
                (pre ++ [b1; b2; b3; b4; s1; s2; s3; s4; f_StatusFlags f; f_FormatFlags f])
                (f_Bytes f) rest (f_Size f) (eq_sym Hsize)) as HR.
  rewrite <- !app_assoc, length_app in HR. cbn [length] in HR.
  cbn [app] in HR |- *. cbn [length].
  rewrite HR.
  rewrite (int_small (f_Size f)) by lia.
  replace (len (f_Bytes f) <? f_Size f) with false by (symmetry; apply Z.ltb_ge; lia).
  f_equal. f_equal. lia.
Qed.

End HeadersRoundTrip.

Section HeadersExamples.
Import v2.

Lemma ParseHeader_reads_header_witness :
  (exists hd, fst (@ParseHeader ex_codecs (mkReader ex_file_padded 0)) = Some hd /\
     version hd = 4 /\ size hd = 30) /\
  fst (@ParseHeader ex_codecs (mkReader [73; 68; 51; 4; 0; 0; 0; 0; 128; 0] 0)) = None.
Proof.
  split.
  - destruct (@ParseHeader_reads_header ex_codecs (mkReader ex_file_padded 0))
      as (_ & _ & Hf).
    + repeat constructor; lia.
    + eexists. split; [reflexivity|].
      destruct (Hf _ eq_refl) as (Hv & _ & _ & Hs & _). split; reflexivity.
  - destruct (@ParseHeader_reads_header ex_codecs
                (mkReader [73; 68; 51; 4; 0; 0; 0; 0; 128; 0] 0)) as (Hnil & _).
    + repeat constructor; lia.
    + apply (proj2 Hnil). right. right.
      apply Exists_cons_tl, Exists_cons_tl, Exists_cons_hd. lia.
Defined.

Lemma ParseHeader_Header_Bytes_round_trip_witness :
  (exists hd',
     @ParseHeader ex_codecs (mkReader (Header.Bytes (header ex_titled) ++ [255]) 0)
     = (Some hd', mkReader (Header.Bytes (header ex_titled) ++ [255]) 10) /\
     version hd' = 4 /\ size hd' = 15) /\
  (exists hd, fst (@ParseHeader ex_codecs (mkReader ex_file_padded 0)) = Some hd /\
     Header.Bytes hd = take 10 ex_file_padded).
Proof.
  destruct (@ParseHeader_Header_Bytes_round_trip ex_codecs) as (H1 & H2). split.
  - destruct (H1 (header ex_titled) [] [255]) as (hd' & E & Hv & _ & _ & Hs & _).
    + simpl. lia.
    + exists hd'. split; [exact E|]. rewrite Hv, Hs. split; reflexivity.
  - eexists. split; [reflexivity|].
    apply (H2 (mkReader ex_file_padded 0)); [repeat constructor; lia|reflexivity].
Defined.

Lemma ParseV24Frame_V24Bytes_round_trip_witness :
  @ParseV24Frame ex_codecs (mkReader (V24Bytes ex_title ++ [0]) 0)
  = (Some ex_title, mkReader (V24Bytes ex_title ++ [0]) 15).
Proof.
  destruct (@ParseV24Frame_V24Bytes_round_trip ex_codecs ex_title "T" "I" "T" "2" [] [0])
    as (_ & HP).
  - reflexivity.
  - discriminate.
  - discriminate.
  - reflexivity.
  - simpl. unfold len. simpl. lia.
  - exact HP.
Defined.

End HeadersExamples.

(** ** Adding a frame and deleting it again *)

Section AddThenDelete.
Import v2.

Lemma filter_not_in (r : FrameRef) (l : list FrameRef) :
  ~ In r l -> List.filter (fun r' => negb (bool_decide (r' = r))) l = l.
Proof.
  induction l as [|a l IH]; intros Hnin; simpl; [reflexivity|].
  rewrite bool_decide_eq_false_2 by (intros ->; apply Hnin; left; reflexivity).
  simpl. rewrite IH; [reflexivity|]. intros Hin. apply Hnin. right. exact Hin.
Qed.

(** X17: A frame that is added to a tag and deleted again leaves the frame list
    as it was and the frame without owner, but not the sizes: [Size()] keeps
    what the addition added to it, and the bytes of the frame stay in the tag
    as padding. *)
Theorem AddFrames_then_DeleteFrame (self : TagRef) (t : Tag) (r : FrameRef) (f : Framer)
    (h : Heap) :
  tag_ok t h -> tag_invariant t h ->
  h !! r = Some f -> 0 <= f_Size f < 2 ^ 32 -> ~ In r (frames t) ->
  footprint t h + (frameHeaderSize t + f_Size f) < 2 ^ 32 ->
  exists t1 h1 returned t2 h2,
    Tag.AddFrames self t [r] h = Some (t1, h1) /\
    Tag.DeleteFrame t1 r h1 = Some (returned, t2, h2) /\
    frames t2 = frames t /\
    owner_at h2 r = Some None /\ same_frames h h2 /\
    (forall r', r' <> r -> h2 !! r' = h !! r') /\
    Tag.Size t2 = Tag.Size t + Z.max 0 (frameHeaderSize t + f_Size f - Tag.Padding t) /\
    Tag.Padding t2 = Z.max (Tag.Padding t) (frameHeaderSize t + f_Size f) /\
    tag_invariant t2 h2.
Proof.
  intros Hok Hinv Hf Hsz Hnin Hfit.
  destruct (tag_ok_padding_le_size t h Hok Hinv) as (Hfp & Hpad).
  destruct (AddFrames_step_invariant self t r f h Hok Hinv Hf Hsz Hfit)
    as (Hok1 & Hinv1 & Hfhs1 & Hfr1 & Hd1).
  pose proof (setOwner_same_frames h r (Some self)) as Hsame1.
  assert (HA : Tag.AddFrames self t [r] h
               = Some (AddFrames_step t r f, setOwner r (Some self) h)).
  { rewrite (AddFrames_cons self t r [] h f Hf). reflexivity. }
  assert (Hs1 : size (header (AddFrames_step t r f))
                = size (header t) + Z.max 0 (frameHeaderSize t + f_Size f - padding t)).
  { assert (Hfhs : 0 < frameHeaderSize t <= 10) by apply Hok.
    assert (Hs : 0 <= size (header t) < 2 ^ 32) by apply Hok.
    unfold tag_invariant in Hinv.
    rewrite AddFrames_step_spec by lia. cbv zeta.
    destruct (Z.ltb_spec (padding t - (frameHeaderSize t + f_Size f)) 0) as [Hneg|Hpos];
      cbn [size header with_frames with_dirty with_header with_size with_padding].
    - rewrite uint32_small by lia. lia.
    - lia. }
  assert (Hne1 : forall r', r' <> r -> setOwner r (Some self) h !! r' = h !! r').
  { intros r' Hne. apply setOwner_lookup_ne. congruence. }
  set (h1 := setOwner r (Some self) h) in *. clearbody h1.
  set (t1 := AddFrames_step t r f) in *. clearbody t1.
  pose proof (tag_ok_fits t1 h1 Hok1 Hinv1) as Hfit1.
  destruct (DeleteFrame_spec t1 r h1) as (h2 & HD & Hsame2 & Hown & Hkeep);
    [apply Hok1 | destruct Hok1 as (_ & _ & ? & _); lia | exact Hfit1 |].
  destruct (remove_invariant t1 h1 h2 (fun r' => bool_decide (r' = r)) Hok1 Hinv1 Hsame2)
    as (Hok2 & Hinv2 & Hd2 & Hsz2).
  cbv zeta in HD, Hown, Hkeep, Hok2, Hinv2, Hd2, Hsz2.
  assert (Hfr2 : frames (Tag.changeSize
             (- footprint_of (frameHeaderSize t1) h1
                  (List.filter (fun r' => bool_decide (r' = r)) (frames t1)))
             (with_frames
                (List.filter (fun r' => negb (bool_decide (r' = r))) (frames t1)) t1))
           = frames t).
  { rewrite changeSize_frames. cbn [frames with_frames].
    rewrite Hfr1, List.filter_app, filter_not_in by exact Hnin. simpl.
    rewrite bool_decide_eq_true_2 by reflexivity. simpl. apply app_nil_r. }
  assert (Hfhs2 : frameHeaderSize (Tag.changeSize
             (- footprint_of (frameHeaderSize t1) h1
                  (List.filter (fun r' => bool_decide (r' = r)) (frames t1)))
             (with_frames
                (List.filter (fun r' => negb (bool_decide (r' = r))) (frames t1)) t1))
           = frameHeaderSize t).
  { rewrite changeSize_frameHeaderSize. exact Hfhs1. }
  set (t2 := Tag.changeSize _ _) in *. clearbody t2.
  assert (Hin : In r (List.filter (fun r' => bool_decide (r' = r)) (frames t1))).
  { apply filter_bool_decide_in. split; [reflexivity|]. rewrite Hfr1.
    apply in_or_app. right. left. reflexivity. }
  assert (Hsame : same_frames h h2) by (eapply same_frames_trans; eassumption).
  exists t1, h1, (frames t1), t2, h2.
  split; [exact HA|].
  split; [exact HD|]. split; [exact Hfr2|]. split; [apply Hown, Hin|].
  split; [exact Hsame|].
  split.
  { intros r' Hne. rewrite Hkeep by (rewrite filter_bool_decide_in; tauto).
    apply Hne1. exact Hne. }
  assert (HS : forall t', 0 <= size (header t') < 2 ^ 32 -> Tag.Size t' = size (header t')).
  { intros t' Ht'. unfold Tag.Size, Header.Size. apply int_small. lia. }
  assert (Hs2 : size (header t2)
                = size (header t) + Z.max 0 (frameHeaderSize t + f_Size f - padding t))
    by (rewrite Hsz2; exact Hs1).
  split.
  { rewrite (HS t2) by apply Hok2. rewrite (HS t) by apply Hok. exact Hs2. }
  split; [|exact Hinv2].
  assert (Hfoot2 : footprint t2 h2 = footprint t h).
  { unfold footprint. rewrite Hfr2, Hfhs2. apply same_frames_footprint_of. exact Hsame. }
  unfold Tag.Padding. unfold tag_invariant in Hinv, Hinv2.
  clear - Hinv Hinv2 Hs2 Hfoot2.
  destruct (Z.max_spec 0 (frameHeaderSize t + f_Size f - padding t)) as [(? & Hm)|(? & Hm)];
    rewrite Hm in Hs2;
    destruct (Z.max_spec (padding t) (frameHeaderSize t + f_Size f)) as [(? & Hm')|(? & Hm')];
    rewrite Hm'; lia.
Qed.

Lemma AddFrames_then_DeleteFrame_witness :
  exists t1 h1 returned t2 h2,
    Tag.AddFrames 0 ex_empty [0%nat] ex_heap = Some (t1, h1) /\
    Tag.DeleteFrame t1 0%nat h1 = Some (returned, t2, h2) /\
    frames t2 = [] /\ Tag.Size t2 = 15 /\ Tag.Padding t2 = 15.
Proof.
  destruct (AddFrames_then_DeleteFrame 0%nat ex_empty 0%nat ex_title ex_heap)
    as (t1 & h1 & returned & t2 & h2 & EA & ED & Hfr & _ & _ & _ & Hs & Hp & _).
  - unfold tag_ok, frames_ok. simpl. unfold FrameHeaderSize.
    repeat split; try lia. constructor.
  - reflexivity.
  - reflexivity.
  - simpl. lia.
  - simpl. tauto.
  - vm_compute. reflexivity.
  - exists t1, h1, returned, t2, h2.
    split; [exact EA|]. split; [exact ED|]. split; [exact Hfr|].
    split; [rewrite Hs|rewrite Hp]; reflexivity.
Defined.

End AddThenDelete.

(** ** The result of ParseTag *)

Section ParseTagResult.
Import v2.
Context `{FC : FrameCodecs}.

Lemma length_setOwner (r : FrameRef) (o : option TagRef) (h : Heap) :
  length (setOwner r o h) = length h.
Proof. unfold setOwner. destruct (h !! r); [apply length_insert|reflexivity]. Qed.

Lemma setOwner_new (o : option TagRef) (h : Heap) (f : Framer) :
  setOwner (length h) o (h ++ [f]) = h ++ [set_owner o f].
Proof.
  unfold setOwner. rewrite lookup_app_r by lia. rewrite Nat.sub_diag. simpl.
  replace (length h) with (length h + 0)%nat at 1 by lia.
  rewrite insert_app_r. reflexivity.
Qed.

(** The loop of [ParseTag] returns: each frame parsed takes at least the
    bytes of a frame header off [size]. The frames it parses are new objects,
    stored in order after the ones of the store, owned by the tag; [size]
    goes down by their footprints. *)
Lemma ParseTag_loop_result (self : TagRef) (fuel : nat) :
  forall (t : Tag) (h : Heap) (rd : Reader) (size : Z),
  (forall rd f rd', Forall (fun b => 0 <= b < 256) (rd_data rd) ->
     frameConstructor t rd = (Some f, rd') ->
     0 <= f_Size f < 2 ^ 32 /\ Forall (fun b => 0 <= b < 256) (rd_data rd')) ->
  Forall (fun b => 0 <= b < 256) (rd_data rd) ->
  0 < frameHeaderSize t <= 10 -> size < 2 ^ 62 -> (Z.to_nat size <= fuel)%nat ->
  exists t' h' rd' size',
    ParseTag_loop fuel self t h rd size = Some (t', h', rd', size') /\
    header t' = header t /\ dirty t' = dirty t /\
    frameHeaderSize t' = frameHeaderSize t /\
    take (length h) h' = h /\
    frames t' = frames t ++ seq (length h) (length h' - length h) /\
    (forall r, (length h <= r < length h')%nat -> owner_at h' r = Some (Some self)) /\
    size' = size - footprint_of (frameHeaderSize t) h'
                     (seq (length h) (length h' - length h)) /\
    size' <= size.
Proof.
  induction fuel as [|fuel IH]; intros t h rd size Hsizes Hbytes Hfhs Hlt Hfuel.
  - assert (Hle : size <= 0) by lia.
    exists t, h, rd, size. simpl.
    destruct (Z.gtb_spec size 0) as [Hpos|_]; [lia|].
    rewrite firstn_all, Nat.sub_diag, app_nil_r. simpl.
    repeat split; try reflexivity; try lia.
  - simpl. destruct (Z.gtb_spec size 0) as [Hpos|Hle].
    2:{ exists t, h, rd, size.
        rewrite firstn_all, Nat.sub_diag, app_nil_r. simpl.
        repeat split; try reflexivity; try lia. }
    destruct (frameConstructor t rd) as (frame & rd1) eqn:Hfc.
    destruct frame as [f|].
    2:{ exists t, h, rd1, size.
        rewrite firstn_all, Nat.sub_diag, app_nil_r. simpl.
        repeat split; try reflexivity; try lia. }
    destruct (Hsizes rd f rd1 Hbytes Hfc) as (Hsz & Hbytes1).
    rewrite setOwner_new.
    set (f' := set_owner (Some self) f).
    set (h1 := h ++ [f']).
    set (t1 := with_frames (frames t ++ [length h]) t).
    change (frameHeaderSize t1) with (frameHeaderSize t).
    rewrite (int_small (f_Size f)) by lia.
    rewrite (int_small (frameHeaderSize t + f_Size f)) by lia.
    rewrite int_small by lia.
    destruct (IH t1 h1 rd1 (size - (frameHeaderSize t + f_Size f)))
      as (t' & h' & rd' & size' & HL & Hhd & Hd & Hfh & Htake & Hfr & Hown & Hsize' & Hdown);
      [exact Hsizes|exact Hbytes1|exact Hfhs|lia|lia|].
    assert (Hl1 : length h1 = S (length h)).
    { unfold h1. rewrite length_app. simpl. lia. }
    assert (Hlen : (length h1 <= length h')%nat).
    { rewrite <- Htake at 1. rewrite length_take. lia. }
    assert (Hf' : h' !! length h = Some f').
    { rewrite <- (lookup_take_lt h' (length h1)) by lia. rewrite Htake. unfold h1.
      rewrite lookup_app_r by lia. rewrite Nat.sub_diag. reflexivity. }
    assert (Hseq : seq (length h) (length h' - length h)
                   = length h :: seq (length h1) (length h' - length h1)).
    { replace (length h' - length h)%nat with (S (length h' - length h1)) by lia.
      rewrite Hl1. reflexivity. }
    exists t', h', rd', size'. split; [exact HL|].
    split; [exact Hhd|]. split; [exact Hd|]. split; [exact Hfh|].
    split.
    { replace (take (length h) h') with (take (length h) (take (length h1) h')).
      - rewrite Htake. unfold h1. rewrite take_app_length. reflexivity.
      - rewrite take_take. f_equal. lia. }
    split.
    { rewrite Hfr, Hseq. unfold t1. cbn [frames with_frames].
      rewrite <- app_assoc. reflexivity. }
    split.
    { intros r Hr. destruct (decide (r = length h)) as [->|Hne].
      - unfold owner_at. rewrite Hf'. reflexivity.
      - apply Hown. lia. }
    split; [|lia].
    rewrite Hsize', Hseq. change (frameHeaderSize t1) with (frameHeaderSize t).
    cbn [footprint_of foldr]. fold (footprint_of (frameHeaderSize t) h'
                                      (seq (length h1) (length h' - length h1))).
    unfold frame_footprint. rewrite Hf'. unfold f'. simpl f_Size. lia.
Qed.

(** X18: [ParseTag] returns on every input of bytes, as long as the frame parser
    of the version, on a reader of bytes, returns frames whose [Size()] is a
    [uint32] and leaves a reader of bytes. It returns nil
    exactly when [ParseHeader] does, and then stores nothing. Otherwise the
    tag has the parsed header and is not dirty; its frames are new objects,
    stored in order after the ones of the store, which stays as it was, and
    each has the tag as its owner; the padding is the declared size less the
    bytes of the frames as a [uint], so the size invariant holds unless the
    frames overrun the declared size; and the reader is left just after the
    declared size. *)
Theorem ParseTag_result (self : TagRef) (h : Heap) (rs : Reader) :
  Forall (fun b => 0 <= b < 256) (rd_data rs) ->
  (forall hd rd f rd', fst (ParseHeader rs) = Some hd ->
     Forall (fun b => 0 <= b < 256) (rd_data rd) ->
     frameConstructor (NewTag (version hd)) rd = (Some f, rd') ->
     0 <= f_Size f < 2 ^ 32 /\ Forall (fun b => 0 <= b < 256) (rd_data rd')) ->
  exists res h' rd',
    ParseTag self h rs = Some (res, h', rd') /\
    (res = None <-> fst (ParseHeader rs) = None) /\
    (res = None -> h' = h) /\
    (forall t, res = Some t ->
       fst (ParseHeader rs) = Some (header t) /\
       Tag.Dirty t = false /\
       take (length h) h' = h /\
       frames t = seq (length h) (length h' - length h) /\
       (forall r, In r (frames t) -> owner_at h' r = Some (Some self)) /\
       Tag.Padding t = uint (Tag.Size t - footprint t h') /\
       (footprint t h' <= Tag.Size t -> tag_invariant t h') /\
       rd_pos rd' = Z.to_nat (HeaderSize + Tag.Size t)).
Proof.
  intros Hbytes Hsizes.
  destruct (ParseHeader_fields rs Hbytes) as (_ & _ & Hfields). cbv zeta in Hfields.
  unfold ParseTag.
  destruct (ParseHeader rs) as ([hd|] & rs1) eqn:HP; cbn [fst] in *.
  2:{ exists None, h, rs1. split; [reflexivity|].
      split; [tauto|]. split; [reflexivity|]. intros t [=]. }
  destruct (Hfields hd eq_refl) as (_ & _ & _ & _ & Hs & _).
  pose proof (NewTag_fields (version hd)) as (_ & Hp0 & Hfr0 & Hd0 & Hfhs0).
  set (t0 := with_header hd (NewTag (version hd))).
  change (v2.size (header t0)) with (v2.size hd).
  rewrite (int_small (v2.size hd)) by lia.
  destruct (ParseTag_loop_result self (Z.to_nat (v2.size hd)) t0 h rs1 (v2.size hd))
    as (t' & h' & rd' & size' & HL & Hhd & Hd & Hfh & Htake & Hfr & Hown & Hsize' & Hdown).
  { intros rd f rd''. apply (Hsizes hd rd f rd'' eq_refl). }
  { assert (E : rd_data rs1 = rd_data rs); [|rewrite E; exact Hbytes].
    unfold ParseHeader, ReadFull in HP.
    repeat match type of HP with
           | context [if ?c then _ else _] => destruct c
           | context [match ?x with (_, _) => _ end] => destruct x as (? & [?|])
           end; injection HP as _ <-; reflexivity. }
  { change (frameHeaderSize t0) with (frameHeaderSize (NewTag (version hd))). lia. }
  { lia. }
  { lia. }
  rewrite HL. cbn [mbind option_bind].
  change (header t0) with hd in Hhd. change (dirty t0) with (dirty (NewTag (version hd))) in Hd.
  change (frames t0) with (frames (NewTag (version hd))) in Hfr.
  rewrite Hfr0 in Hfr. rewrite Hd0 in Hd. cbn [app] in Hfr.
  assert (HS : Tag.Size (with_padding (uint size') t') = v2.size hd).
  { unfold Tag.Size, Header.Size. cbn [header with_padding]. rewrite Hhd.
    apply int_small. lia. }
  rewrite HS. unfold HeaderSize. rewrite (int_small (10 + v2.size hd)) by lia.
  unfold Seek. replace (10 + v2.size hd <? 0) with false by (symmetry; apply Z.ltb_ge; lia).
  eexists (Some _), h', _. split; [reflexivity|].
  split; [split; discriminate|]. split; [discriminate|].
  intros t [= <-]. rewrite HS.
  assert (Hfoot : footprint (with_padding (uint size') t') h' = v2.size hd - size').
  { unfold footprint. cbn [frames frameHeaderSize with_padding]. rewrite Hfr, Hfh.
    change (frameHeaderSize t0) with (frameHeaderSize (NewTag (version hd))) in Hsize' |- *.
    lia. }
  split; [cbn [header with_padding]; rewrite Hhd; reflexivity|].
  split; [exact Hd|]. split; [exact Htake|]. split; [exact Hfr|].
  split.
  { cbn [frames with_padding]. rewrite Hfr. intros r Hr. apply in_seq in Hr.
    apply Hown. assert (length h <= length h')%nat; [|lia].
    rewrite <- Htake at 1. rewrite length_take. lia. }
  split.
  { rewrite Hfoot. unfold Tag.Padding. cbn [padding with_padding]. f_equal. lia. }
  split.
  { rewrite Hfoot. intros Hle. unfold tag_invariant. rewrite Hfoot.
    cbn [header padding with_padding]. rewrite Hhd, uint_small by lia. lia. }
  reflexivity.
Qed.

End ParseTagResult.

Section ParseV24FrameResult.
Import v2.
Context `{FC : FrameCodecs}.

(** What [ParseV24Frame] has read when it returns a frame. *)
Lemma ParseV24Frame_fields (rd : Reader) (f : Framer) (rd' : Reader) :
  Forall (fun b => 0 <= b < 256) (rd_data rd) ->
  ParseV24Frame rd = (Some f, rd') ->
  exists c hd payload,
    construct c hd payload = Some f /\
    0 <= fh_size Ctor hd < 2 ^ 28 /\ len payload = fh_size Ctor hd /\
    payload = take (Z.to_nat (fh_size Ctor hd))
                (drop (rd_pos rd + 10) (rd_data rd)) /\
    rd' = mkReader (rd_data rd) (rd_pos rd + 10 + Z.to_nat (fh_size Ctor hd)).
Proof.
  intros Hbytes. unfold ParseV24Frame, ReadFull, FrameHeaderSize.
  change (Z.to_nat 10) with 10%nat. cbn [rd_data rd_pos].
  set (data := take 10 (drop (rd_pos rd) (rd_data rd))).
  assert (Hd : Forall (fun b => 0 <= b < 256) data).
  { unfold data. apply Forall_take, Forall_drop. exact Hbytes. }
  destruct (Z.ltb_spec (len data) 10) as [Hshort|Hlong]; [discriminate|].
  assert (Hlen : length data = 10%nat).
  { unfold len in Hlong. unfold data in *. rewrite length_take in *. lia. }
  rewrite Hlen.
  set (t := match V24FrameTypeMap _ with Some t => t | None => _ end).
  assert (Hd4 : Forall (fun b => 0 <= b < 256) (take 4 (drop 4 data)))
    by (apply Forall_take, Forall_drop; exact Hd).
  destruct (decide (Forall (fun b => 0 <= b < 128) (take 4 (drop 4 data)))) as [Hsz|Hsz].
  2:{ assert (Hex : Exists (fun b => 128 <= b) (take 4 (drop 4 data))).
      { apply not_Forall_Exists in Hsz; [|intros b; apply _].
        apply Exists_exists in Hsz. destruct Hsz as (b & Hin & Hb).
        apply Exists_exists. exists b. split; [exact Hin|].
        pose proof (proj1 (Forall_forall _ _) Hd4 b Hin) as Hr. simpl in Hr, Hb. lia. }
      destruct (SynchInt_top_bit _ Hex) as (n & e & E). rewrite E. discriminate. }
  destruct (SynchInt_bytes (take 4 (drop 4 data))) as (E & Hrange);
    [rewrite length_take; lia|exact Hsz|].
  rewrite E. cbv iota beta.
  set (n := digits_value 7 (take 4 (drop 4 data)) 0) in *.
  destruct (_ && _); [discriminate|].
  rewrite (int_small n) by lia.
  set (payload := take (Z.to_nat n) (drop (rd_pos rd + 10) (rd_data rd))).
  destruct (Z.ltb_spec (len payload) n) as [Hp|Hp]; [discriminate|].
  intros [= Hc <-].
  eexists _, _, payload. split; [exact Hc|]. cbn [fh_size].
  assert (Hpl : len payload = n).
  { unfold len in *. unfold payload in *. rewrite length_take in *. lia. }
  split; [exact Hrange|]. split; [exact Hpl|]. split; [reflexivity|].
  f_equal. unfold len in Hpl. lia.
Qed.

(** X19: [ParseV24Frame] reads the 10 bytes of a frame header and, unless it
    returns nil before, the payload that the header declares: the payload
    constructor gets a frame head with a size of 28 bits and a payload of that
    many bytes, and the reader has moved by [FrameHeaderSize] plus the size. *)
Theorem ParseV24Frame_reads_frame (rd : Reader) (f : Framer) (rd' : Reader) :
  Forall (fun b => 0 <= b < 256) (rd_data rd) ->
  ParseV24Frame rd = (Some f, rd') ->
  exists c hd payload,
    construct c hd payload = Some f /\
    0 <= fh_size Ctor hd < 2 ^ 28 /\ len payload = fh_size Ctor hd /\
    payload = take (Z.to_nat (fh_size Ctor hd))
                (drop (rd_pos rd + 10) (rd_data rd)) /\
    rd' = mkReader (rd_data rd) (rd_pos rd + 10 + Z.to_nat (fh_size Ctor hd)).
Proof. exact (ParseV24Frame_fields rd f rd'). Qed.

End ParseV24FrameResult.

Section ParseTagExamples.
Import v2.

Lemma ParseTag_result_witness :
  exists t h' rd',
    @ParseTag ex_codecs 0 [] (mkReader ex_file_padded 0) = Some (Some t, h', rd') /\
    frames t = [0%nat] /\ owner_at h' 0%nat = Some (Some 0%nat) /\
    Tag.Padding t = 15 /\ tag_invariant t h' /\ rd_pos rd' = 40%nat.
Proof.
  destruct (@ParseTag_result ex_codecs 0%nat [] (mkReader ex_file_padded 0))
    as (res & h' & rd' & E & _ & _ & Ht).
  - repeat constructor; lia.
  - intros hd rd f rd'' [= <-] Hbytes HP.
    destruct (@ParseV24Frame_fields ex_codecs rd f rd'' Hbytes HP)
      as (c & fh & payload & Hc & Hr & _ & _ & ->).
    injection Hc as <-. cbn [f_Size rd_data]. split; [|exact Hbytes].
    change (@Ctor ex_codecs) with unit in Hr.
    change (2 ^ 32) with (16 * 2 ^ 28). lia.
  - assert (E' : @ParseTag ex_codecs 0 [] (mkReader ex_file_padded 0)
                 = Some (Some (with_padding 15
                                 (with_frames [0%nat]
                                    (with_header (mkHeader 4 0 0 false false false false 30)
                                       (@NewTag ex_codecs 4)))),
                         [set_owner (Some 0%nat) ex_title],
                         mkReader ex_file_padded 40)) by reflexivity.
    rewrite E' in E. injection E as <- <- <-.
    eexists _, _, _. split; [reflexivity|].
    destruct (Ht _ eq_refl) as (_ & _ & _ & Hfr & Hown & Hpad & Hinv & Hpos).
    split; [reflexivity|]. split; [apply Hown; left; reflexivity|].
    split; [reflexivity|]. split; [apply Hinv; vm_compute; discriminate|exact Hpos].
Defined.

Lemma ParseV24Frame_reads_frame_witness :
  exists hd payload,
    @construct ex_codecs tt hd payload = Some ex_title /\
    fh_size unit hd = 5 /\ payload = [3; 72; 105; 33; 33].
Proof.
  destruct (@ParseV24Frame_reads_frame ex_codecs (mkReader ex_file_padded 10) ex_title
              (mkReader ex_file_padded 25))
    as (c & hd & payload & Hc & _ & _ & _ & _).
  - repeat constructor; lia.
  - reflexivity.
  - exists hd, payload. destruct c. split; [exact Hc|].
    injection Hc as _ Hs _ _ Hp. split; assumption.
Defined.

End ParseTagExamples.

(** ** More on the in-memory commit *)

Section CommitMore.
Import v2 id3.

(** [copy(dst, src)] over the whole of [dst]. *)
Lemma copy_at_whole (dst src : list Z) :
  copy_at dst 0 (len dst) src
  = Some (take (length dst) src ++ drop (length src) dst).
Proof.
  unfold copy_at, len. destruct (decide _) as [_|Hn]; [|exfalso; apply Hn; lia].
  f_equal. rewrite Z.sub_0_r, Nat2Z.id. change (Z.to_nat 0) with 0%nat.
  rewrite take_0, Nat.add_0_l. cbn [app].
  destruct (Nat.le_ge_cases (length dst) (length src)) as [Hle|Hge].
  - rewrite Nat.min_l by exact Hle.
    rewrite (drop_ge dst (length dst)), (drop_ge dst (length src)) by lia. reflexivity.
  - rewrite Nat.min_r by exact Hge. rewrite !take_ge by lia. reflexivity.
Qed.

(** [copy(dst[lo:], src)] when [src] fills [dst] from [lo] to its end. *)
Lemma copy_at_tail (dst src : list Z) (lo : Z) :
  0 <= lo -> lo + len src = len dst ->
  copy_at dst lo (len dst) src = Some (take (Z.to_nat lo) dst ++ src).
Proof.
  intros Hlo Hfit. unfold copy_at, len in *.
  destruct (decide _) as [_|Hn]; [|exfalso; apply Hn; lia].
  f_equal. f_equal.
  replace (Z.to_nat (Z.of_nat (length dst) - lo)) with (length src) by lia.
  rewrite Nat.min_id, firstn_all, drop_ge by lia. apply app_nil_r.
Qed.

(** X20: [shiftBytesBackInMem(blob, start, offset)] returns exactly when
    [start] is a position of [blob] and [start+offset] is not negative. It
    then returns [len(blob)+offset] bytes: the bytes of [blob] before
    [start], followed by [offset] zero bytes, all cut at [start+offset],
    and then the bytes of [blob] from [start] on: a positive [offset] opens
    a gap of zero bytes at [start], a negative one drops the bytes before
    [start]. *)
Theorem shiftBytesBackInMem_layout (blob : list Z) (start offset : Z) :
  - 2 ^ 62 < start < 2 ^ 62 -> - 2 ^ 62 < offset < 2 ^ 62 -> len blob < 2 ^ 62 ->
  (0 <= start <= len blob /\ 0 <= start + offset ->
     shiftBytesBackInMem blob start offset
     = Some (take (Z.to_nat (start + offset))
               (take (Z.to_nat start) blob ++ replicate (Z.to_nat offset) 0)
             ++ drop (Z.to_nat start) blob)) /\
  (~ (0 <= start <= len blob /\ 0 <= start + offset) ->
     shiftBytesBackInMem blob start offset = None) /\
  (forall out, shiftBytesBackInMem blob start offset = Some out ->
     len out = len blob + offset).
Proof.
  intros Hs Ho Hl.
  assert (Hl0 : 0 <= len blob) by (unfold len; lia).
  assert (Hyes : 0 <= start <= len blob /\ 0 <= start + offset ->
     shiftBytesBackInMem blob start offset
     = Some (take (Z.to_nat (start + offset))
               (take (Z.to_nat start) blob ++ replicate (Z.to_nat offset) 0)
             ++ drop (Z.to_nat start) blob)).
  { intros (Hstart & Hlo). unfold shiftBytesBackInMem.
    rewrite (int_small (len blob + offset)) by lia.
    rewrite (int_small (start + offset)) by lia.
    destruct (decide (0 <= len blob + offset)) as [_|]; [|lia].
    destruct (decide (0 <= start /\ start <= len blob)) as [_|]; [|lia].
    set (N := Z.to_nat (len blob + offset)).
    set (s := Z.to_nat start). set (lo := Z.to_nat (start + offset)).
    assert (Hsl : (s <= length blob)%nat) by (unfold len in *; lia).
    rewrite copy_at_whole. cbn [mbind option_bind].
    rewrite length_replicate, length_take, Nat.min_l by exact Hsl.
    rewrite drop_replicate.
    set (out1 := take N (take s blob) ++ replicate (N - s) 0).
    assert (Hl1 : length out1 = N).
    { unfold out1. rewrite length_app, !length_take, length_replicate. lia. }
    replace (len (replicate N 0)) with (len out1)
      by (unfold len; rewrite Hl1, length_replicate; reflexivity).
    rewrite copy_at_tail.
    2: lia.
    2:{ unfold len in *. rewrite Hl1, length_drop. unfold N, s. lia. }
    f_equal. f_equal. fold lo. unfold out1.
    destruct (Z.le_gt_cases 0 offset) as [Hpos|Hneg].
    - rewrite (take_ge (take s blob) N) by (rewrite length_take; unfold N, s; lia).
      replace lo with (s + Z.to_nat offset)%nat by (unfold lo, s; lia).
      rewrite !take_app_add' by (rewrite length_take; lia).
      rewrite !take_replicate. f_equal. f_equal. unfold N, s, len in *. lia.
    - replace (Z.to_nat offset) with 0%nat by lia. cbn [replicate]. rewrite app_nil_r.
      rewrite take_app_le by (rewrite !length_take; unfold lo, N, s, len in *; lia).
      rewrite take_take. f_equal. unfold lo, N, len in *. lia. }
  split; [exact Hyes|]. split.
  - intros Hno. unfold shiftBytesBackInMem.
    rewrite (int_small (len blob + offset)) by lia.
    rewrite (int_small (start + offset)) by lia.
    destruct (decide (0 <= len blob + offset)) as [HN|]; [|reflexivity].
    destruct (decide (0 <= start /\ start <= len blob)) as [Hstart|]; [|reflexivity].
    rewrite copy_at_whole. cbn [mbind option_bind].
    unfold copy_at. destruct (decide _) as [(H0 & _)|]; [|reflexivity].
    exfalso. apply Hno. lia.
  - intros out Hout.
    destruct (decide (0 <= start <= len blob /\ 0 <= start + offset)) as [Hy|Hn].
    + rewrite (Hyes Hy) in Hout. injection Hout as <-.
      unfold len in *. rewrite length_app, length_take, length_app, length_take,
        length_replicate, length_drop. lia.
    + exfalso. assert (Hnone : shiftBytesBackInMem blob start offset = None).
      { unfold shiftBytesBackInMem.
        rewrite (int_small (len blob + offset)) by lia.
        rewrite (int_small (start + offset)) by lia.
        destruct (decide (0 <= len blob + offset)) as [HN|]; [|reflexivity].
        destruct (decide (0 <= start /\ start <= len blob)) as [Hstart|]; [|reflexivity].
        rewrite copy_at_whole. cbn [mbind option_bind].
        unfold copy_at. destruct (decide _) as [(H0 & _)|]; [|reflexivity].
        exfalso. apply Hn. lia. }
      congruence.
Qed.

Lemma shiftBytesBackInMem_layout_witness :
  shiftBytesBackInMem [1; 2; 3; 4; 5] 2 3 = Some [1; 2; 0; 0; 0; 3; 4; 5] /\
  shiftBytesBackInMem [1; 2; 3; 4; 5] 3 (-2) = Some [1; 4; 5] /\
  shiftBytesBackInMem [1; 2; 3; 4; 5] 6 1 = None.
Proof.
  split; [|split].
  - rewrite (proj1 (shiftBytesBackInMem_layout [1; 2; 3; 4; 5] 2 3
                      ltac:(lia) ltac:(lia) ltac:(unfold len; simpl; lia)));
      [reflexivity|unfold len; simpl; lia].
  - rewrite (proj1 (shiftBytesBackInMem_layout [1; 2; 3; 4; 5] 3 (-2)
                      ltac:(lia) ltac:(lia) ltac:(unfold len; simpl; lia)));
      [reflexivity|unfold len; simpl; lia].
  - apply (proj1 (proj2 (shiftBytesBackInMem_layout [1; 2; 3; 4; 5] 6 1
                      ltac:(lia) ltac:(lia) ltac:(unfold len; simpl; lia)))).
    unfold len. simpl. lia.
Defined.

Lemma Mp3Bytes_eta (b : Mp3Bytes) : mkMp3Bytes (tagger b) (originalSize b) (blob b) = b.
Proof. destruct b. reflexivity. Qed.

Lemma copy_at_empty (dst src : list Z) : copy_at dst 0 0 src = Some dst.
Proof.
  unfold copy_at. destruct (decide _) as [_|Hn]; [|exfalso; apply Hn; unfold len; lia].
  reflexivity.
Qed.

(** X21: The edits of a v2 tag that did not grow are not written: when the tag
    is dirty but [Size()] does not exceed the original size, [start] and
    [offset] stay 0, [copy(b.blob[0:0], insert)] copies nothing and
    [UpdateEditsIntoBytes] returns the buffer as it was; it still needs
    [Bytes()] to return. *)
Theorem UpdateEditsIntoBytes_not_grown (b : Mp3Bytes) (t : Tag) (h : Heap) :
  tagger b = V2Tag t -> Tag.Dirty t = true -> Tag.Size t <= originalSize b ->
  (forall insert, Tag.Bytes t h = Some insert ->
     UpdateEditsIntoBytes b h = Some (b, inl (blob b))) /\
  (Tag.Bytes t h = None -> UpdateEditsIntoBytes b h = None).
Proof.
  intros Ht Hd Hle. destruct b as [tg os bl]. cbn [tagger originalSize blob] in *.
  subst tg. unfold UpdateEditsIntoBytes, Dirty, Bytes.
  cbn [tagger originalSize blob]. rewrite Hd. cbn [negb].
  destruct (Z.gtb_spec (Tag.Size t) os) as [Hgt|_]; [lia|].
  cbn [tagger originalSize blob]. split.
  - intros insert Hb. rewrite Hb. cbn [mbind option_bind].
    change (int (0 + 0)) with 0. rewrite copy_at_empty. reflexivity.
  - intros Hb. rewrite Hb. reflexivity.
Qed.

Lemma UpdateEditsIntoBytes_not_grown_witness :
  UpdateEditsIntoBytes (mkMp3Bytes (V2Tag ex_padded_album) 15 ex_blob) ex_heap
  = Some (mkMp3Bytes (V2Tag ex_padded_album) 15 ex_blob, inl ex_blob).
Proof.
  destruct (UpdateEditsIntoBytes_not_grown
              (mkMp3Bytes (V2Tag ex_padded_album) 15 ex_blob) ex_padded_album ex_heap)
    as (H1 & _).
  - reflexivity.
  - reflexivity.
  - vm_compute. discriminate.
  - destruct (Tag.Bytes ex_padded_album ex_heap) as [insert|] eqn:E.
    + exact (H1 insert eq_refl).
    + discriminate E.
Defined.

(** X22: For a dirty ID3v1 tag, [UpdateEditsIntoBytes] panics on a buffer of
    fewer than 128 bytes; otherwise it copies the bytes of the tag over the
    first bytes of the buffer, at most [len(blob) - 128] of them, so the last
    128 bytes, where the ID3v1 tag of a file is, stay as they were. *)
Theorem UpdateEditsIntoBytes_v1_writes_at_start (b : Mp3Bytes) (bytes : list Z)
    (h : Heap) :
  tagger b = V1Tag true bytes -> len (blob b) < 2 ^ 62 ->
  (len (blob b) < v1.TagSize -> UpdateEditsIntoBytes b h = None) /\
  (v1.TagSize <= len (blob b) ->
     let n := Nat.min (length (blob b) - 128) (length bytes) in
     exists b',
       UpdateEditsIntoBytes b h = Some (b', inl (blob b')) /\
       tagger b' = tagger b /\ originalSize b' = originalSize b /\
       blob b' = take n bytes ++ drop n (blob b) /\
       len (blob b') = len (blob b) /\
       drop (length (blob b) - 128) (blob b') = drop (length (blob b) - 128) (blob b)).
Proof.
  intros Ht Hl. destruct b as [tg os bl]. cbn [tagger originalSize blob] in *.
  subst tg. unfold UpdateEditsIntoBytes, Dirty, Bytes, v1.TagSize.
  cbn [tagger originalSize blob negb mbind option_bind]. rewrite Z.add_0_l.
  assert (Hl0 : 0 <= len bl) by (unfold len; lia).
  rewrite !(int_small (len bl - 128)) by lia.
  split.
  - intros Hshort. unfold copy_at. case_decide as Hdec; [lia|reflexivity].
  - intros Hlong. set (n := Nat.min (length bl - 128) (length bytes)).
    unfold copy_at. case_decide as Hdec; [|lia].
    cbn [mbind option_bind]. change (Z.to_nat 0) with 0%nat.
    rewrite take_0, Nat.add_0_l, Z.sub_0_r. cbn [app].
    replace (Z.to_nat (len bl - 128)) with (length bl - 128)%nat
      by (unfold len; lia).
    fold n. exists (mkMp3Bytes (V1Tag true bytes) os (take n bytes ++ drop n bl)).
    split; [reflexivity|]. cbn [tagger originalSize blob].
    split; [reflexivity|]. split; [reflexivity|]. split; [reflexivity|].
    assert (Hn1 : (n <= length bl - 128)%nat) by (unfold n; lia).
    assert (Hn2 : (n <= length bytes)%nat) by (unfold n; lia).
    split.
    + unfold len. rewrite length_app, length_take, length_drop. unfold len in *. lia.
    + rewrite drop_app_ge by (rewrite length_take; lia).
      rewrite length_take, drop_drop. f_equal. lia.
Qed.

Lemma UpdateEditsIntoBytes_v1_writes_at_start_witness :
  UpdateEditsIntoBytes (mkMp3Bytes (V1Tag true [84; 65; 71]) 0 [1; 2; 3]) ex_heap = None /\
  exists b',
    UpdateEditsIntoBytes
      (mkMp3Bytes (V1Tag true [84; 65; 71]) 0 (replicate 130 7)) ex_heap
    = Some (b', inl (blob b')) /\
    blob b' = [84; 65] ++ replicate 128 7.
Proof.
  split.
  - apply (UpdateEditsIntoBytes_v1_writes_at_start
             (mkMp3Bytes (V1Tag true [84; 65; 71]) 0 [1; 2; 3]) [84; 65; 71] ex_heap).
    + reflexivity.
    + unfold len. simpl. lia.
    + unfold len, v1.TagSize. simpl. lia.
  - destruct (UpdateEditsIntoBytes_v1_writes_at_start
                (mkMp3Bytes (V1Tag true [84; 65; 71]) 0 (replicate 130 7))
                [84; 65; 71] ex_heap) as (_ & H2).
    + reflexivity.
    + unfold len. simpl. lia.
    + destruct H2 as (b' & E & _ & _ & Hb & _).
      * unfold len, v1.TagSize. simpl. lia.
      * exists b'. split; [exact E|]. rewrite Hb. reflexivity.
Defined.

End CommitMore.
